(** * Show-attend-and-tell solver: batching, training step, checkpoints

    A shallow embedding of [core/solver.py]: the collate function
    [pack_collate_fn], the [CaptioningSolver] constructor, [_save] and
    [_load], the ignite handlers, [_train], [_test], [test] and [train].

    Conventions of the embedding.
    - A Python exception is a value [Raise e] of [result]; stateful methods
      live in the monad [py], a state monad over [world] in which the state
      written before an exception stays visible.
    - Float tensors hold exact reals ([R]); integer tensors hold [Z] or
      [nat]. A list is a Python list or the leading dimension of a tensor.
    - The torch and ignite primitives the solver calls ([sorted],
      [pack_sequence], [pad_sequence], [CrossEntropyLoss], [MSELoss],
      [argmax], [DataLoader], [Engine.run], [torch.save], [torch.load],
      [os.path.join], [str]) are written out below from their documented
      behaviour (torch 1.0, where a packed sequence is the pair
      [(data, batch_sizes)] that line 144 unpacks).
    - The attention model, the beam decoder, the optimiser update and the
      helpers of [core/utils.py] are collaborators: fields of [model_api]
      and [externals]; so is the answer of the file system when the
      constructor makes its two directories. *)

From Stdlib Require Import Reals Lra Lia ZArith QArith Ascii.
From stdpp Require Import gmap strings list pretty sorting.

Local Open Scope Z_scope.
Local Open Scope nat_scope.

(** ** Python runtime *)

Inductive exn :=
| ValueError | KeyError | AttributeError | IndexError | TypeError
| RuntimeError | ZeroDivisionError | FileNotFoundError | UnpicklingError
| EOFError | OSError.

Inductive result (A : Type) :=
| Ok (a : A)
| Raise (e : exn).
Arguments Ok {A} a.
Arguments Raise {A} e.

#[global] Instance result_ret : MRet result := @Ok.
#[global] Instance result_bind : MBind result := λ A B k r,
  match r with Ok a => k a | Raise e => Raise e end.
#[global] Instance result_fmap : FMap result := λ A B f r,
  match r with Ok a => Ok (f a) | Raise e => Raise e end.

Definition returns {A} (r : result A) : Prop := ∃ a, r = Ok a.

(** [l[i]] on a Python list or tensor, for [i >= 0]. *)
Definition index {A} (l : list A) (i : nat) : result A :=
  match l !! i with Some x => Ok x | None => Raise IndexError end.

(** [l[a:b]], for [0 <= a]: slices clamp and never raise. *)
Definition slice {A} (l : list A) (a b : nat) : list A := take (b - a) (drop a l).

(** [[l[i] for i in idx]]. *)
Definition gather {A} (l : list A) (idx : list nat) : result (list A) :=
  mapM (index l) idx.

(** [sorted(l, key=key, reverse=reverse)]. CPython sorts stably in ascending
    key order, comparing keys with [<] only; for [reverse=True] it reverses
    the list, sorts, and reverses the result, so that equal keys keep the
    order of the input. Any stable sort returns the same list; insertion
    stands for timsort. *)
Fixpoint insert_by {A} (key : A → nat) (x : A) (l : list A) : list A :=
  match l with
  | [] => [x]
  | y :: l' => if key y <? key x then y :: insert_by key x l' else x :: l
  end.

Definition stable_sort {A} (key : A → nat) (l : list A) : list A :=
  foldr (insert_by key) [] l.

Definition sorted {A} (l : list A) (key : A → nat) (reverse : bool) : list A :=
  if reverse then rev (stable_sort key (rev l)) else stable_sort key l.

(** [str(i)] for an integer is stdpp's [pretty]; [os.path.join(a, b)] of
    posixpath. *)
Definition str (i : Z) : string := pretty i.

Fixpoint endswith_sep (s : string) : bool :=
  match s with
  | EmptyString => false
  | String c EmptyString => bool_decide (c = "/"%char)
  | String _ s' => endswith_sep s'
  end.

Definition startswith_sep (s : string) : bool :=
  match s with
  | String c _ => bool_decide (c = "/"%char)
  | EmptyString => false
  end.

Definition os_path_join (a b : string) : string :=
  if startswith_sep b then b
  else if bool_decide (a = EmptyString) || endswith_sep a then a +:+ b
  else a +:+ "/" +:+ b.

(** ** Tensors *)

Abbreviation feature := (list (list R)).        (* one image: L x D *)
Abbreviation states := (list (list (list R))).  (* layers x batch x H *)
Abbreviation state_dict := (gmap string (list R)).

Definition sum_R (l : list R) : R := foldr Rplus 0%R l.

(** [h[:, :n]]. *)
Definition take_batch (n : nat) (h : states) : states := take n <$> h.

(** ** torch.nn.utils.rnn *)

Record packed_sequence := PackedSequence {
  data : list Z;
  batch_sizes : list nat
}.

(** The tokens of time step [t]: the [t]-th token of every sequence that
    has one, in batch order. *)
Definition time_step (seqs : list (list Z)) (t : nat) : list Z :=
  omap (λ s, s !! t) seqs.

Definition active_count (lengths : list nat) (t : nat) : nat :=
  length (filter (λ n, t < n) lengths).

Fixpoint is_decreasing (l : list nat) : bool :=
  match l with
  | a :: (b :: _) as l' => (b <=? a) && is_decreasing l'
  | _ => true
  end.

(** [pack_sequence(sequences)] pads and then packs: an empty list has no
    first element to take the shape from, the lengths have to be sorted in
    decreasing order, and every length has to be positive. *)
Definition pack_sequence (sequences : list (list Z)) : result packed_sequence :=
  let lengths := length <$> sequences in
  match lengths with
  | [] => Raise IndexError
  | max_len :: _ =>
    if negb (is_decreasing lengths) then Raise RuntimeError
    else if negb (forallb (λ n, 0 <? n) lengths) then Raise RuntimeError
    else Ok (PackedSequence (mjoin (time_step sequences <$> seq 0 max_len))
                            (active_count lengths <$> seq 0 max_len))
  end.

(** [pad_sequence(sequences)] for matrices with rows of width [width]:
    entry [b] of the result lists, for every sequence, its row [b] or a row
    of zeros. The result has the layout longest x number of sequences x
    width. *)
Definition zero_row (width : nat) : list R := replicate width 0%R.

Definition pad_sequence (width : nat) (sequences : list (list (list R)))
  : result (list (list (list R))) :=
  match sequences with
  | [] => Raise IndexError
  | _ =>
    let max_len := max_list (length <$> sequences) in
    Ok ((λ b, (λ s, default (zero_row width) (s !! b)) <$> sequences) <$> seq 0 max_len)
  end.

(** [torch.sum(x, 1)] of a three-dimensional tensor with rows of width
    [width]. *)
Definition add_rows (r1 r2 : list R) : list R := zip_with Rplus r1 r2.

Definition sum_dim1 (width : nat) (x : list (list (list R))) : list (list R) :=
  (λ rows, foldr add_rows (zero_row width) rows) <$> x.

(** ** Losses *)

(** [-log_softmax(row)[target]]. *)
Definition nll (row : list R) (target : nat) : option R :=
  x ← row !! target; Some (ln (sum_R (exp <$> row)) - x)%R.

Definition nll_row (ignore_index : Z) (row : list R) (target : Z) : result R :=
  if bool_decide (target = ignore_index) then Ok 0%R
  else if bool_decide (0 ≤ target)%Z then
    match nll row (Z.to_nat target) with
    | Some x => Ok x
    | None => Raise IndexError
    end
  else Raise IndexError.

(** [nn.CrossEntropyLoss(ignore_index=ignore_index, reduction='sum')]. *)
Definition cross_entropy (ignore_index : Z) (input : list (list R)) (target : list Z)
  : result R :=
  if bool_decide (length input = length target) then
    sum_R <$> mapM (λ p, nll_row ignore_index p.1 p.2) (zip input target)
  else Raise ValueError.

(** [nn.MSELoss(reduction='sum')] on two matrices of one shape. *)
Definition sq (x : R) : R := (x * x)%R.

Definition mse_row (r1 r2 : list R) : R := sum_R (zip_with (λ x y, sq (x - y)) r1 r2).

Definition mse_sum (input target : list (list R)) : result R :=
  if bool_decide (length input = length target) then
    Ok (sum_R (zip_with mse_row input target))
  else Raise RuntimeError.

(** [torch.argmax(row)]: the index of the first maximal entry. *)
Fixpoint argmax_from (best_i : nat) (best : R) (i : nat) (row : list R) : nat :=
  match row with
  | [] => best_i
  | x :: row' =>
    if Rlt_dec best x then argmax_from i x (S i) row'
    else argmax_from best_i best (S i) row'
  end.

Definition argmax (row : list R) : result nat :=
  match row with
  | [] => Raise RuntimeError
  | x :: row' => Ok (argmax_from 0 x 1 row')
  end.

(** [torch.sum(pred == target)] for two integer vectors of one length. *)
Definition count_equal (pred : list nat) (target : list Z) : result nat :=
  if bool_decide (length pred = length target) then
    Ok (length (filter (λ p, Z.of_nat p.1 = p.2) (zip pred target)))
  else Raise RuntimeError.

(** ** The collate function *)

Abbreviation example := (feature * list Z * string)%type.

Record collated := Collated {
  c_features : list feature;
  c_packed : packed_sequence;
  c_captions : list string;
  c_seq_lens : list nat
}.

Definition pack_collate_fn (batch : list example) : result collated :=
  match batch with
  | [] => Raise ValueError
  | _ =>
    let features := batch.*1.*1 in
    let cap_vecs := batch.*1.*2 in
    let captions := batch.*2 in
    let len_sorted_idx :=
      sorted (seq 0 (length cap_vecs)) (λ x, length (cap_vecs !!! x)) true in
    len_sorted_cap_vecs ← gather cap_vecs len_sorted_idx;
    len_sorted_features ← gather features len_sorted_idx;
    len_sorted_captions ← gather captions len_sorted_idx;
    let seq_lens := length <$> len_sorted_cap_vecs in
    packed_cap_vecs ← pack_sequence len_sorted_cap_vecs;
    Ok (Collated len_sorted_features packed_cap_vecs len_sorted_captions seq_lens)
  end.

(** ** Collaborators *)

(** The caption model. [forward θ features proj tokens h c] is one call of
    the model on the active examples: it returns the logits (one row of
    width [V] per example), the attention weights (one row of width [L] per
    example) and the next recurrent state. The shape fields are the part of
    the model's contract that the solver relies on. *)
Record model_api := ModelApi {
  L : nat;
  V : nat;
  batch_norm : state_dict → list feature → list feature;
  project_features : state_dict → list feature → list feature;
  get_initial_lstm : state_dict → list feature → states * states;
  forward : state_dict → list feature → list feature → list Z → states → states
            → list (list R) * list (list R) * (states * states);
  V_pos : 0 < V;
  forward_logits_shape : ∀ θ fs ps toks h c,
    length (forward θ fs ps toks h c).1.1 = length toks
    ∧ Forall (λ row, length row = V) (forward θ fs ps toks h c).1.1;
  forward_alpha_shape : ∀ θ fs ps toks h c,
    length (forward θ fs ps toks h c).1.2 = length toks
    ∧ Forall (λ row, length row = L) (forward θ fs ps toks h c).1.2
}.

Inductive optimizer_kind := Adam | RMSprop.

Abbreviation scores := (list (string * R)).

(** The optimiser, the beam decoder, and the helpers [decode_captions] and
    [evaluate] of [core/utils.py]. [save_json] and [write_scores] write
    files that no method of the solver reads back; they are left out of
    the file store.

    [optim_update kind M null alpha_c θ state batch] is the effect of
    [loss.backward(); optimizer.step()] on the parameters and on the state
    of the optimiser. The gradient is that of the loss of the step, and
    what the loss is as a function of the parameters is fixed by the model,
    the padding id that the word criterion ignores, the coefficient
    [alpha_c] and the batch: these are the arguments.

    [makedirs path] is [if not os.path.exists(path): os.makedirs(path)]
    and [summary_writer path] is the creation of the [SummaryWriter] in
    the directory [path]. Directories and event files are not part of the
    file store of the model: whether the directory is there or can be
    made, and whether the writer can be opened in it, is the answer of the
    file system, [Ok tt] or an exception. *)
Record externals := Externals {
  optim_init : optimizer_kind → R → state_dict → state_dict;
  optim_update : optimizer_kind → model_api → Z → R → state_dict → state_dict
                 → collated → state_dict * state_dict;
  beam_decode : state_dict → list feature → list (list Z);
  decode_captions : list (list Z) → list string;
  evaluate : list (Z * string) → scores;
  makedirs : string → result unit;
  summary_writer : string → result unit
}.

(** ** The solver object, the file store and the monad *)

Record checkpoint_file := CheckpointFile {
  ck_epoch : Z;
  ck_iteration : Z;
  ck_model_state_dict : state_dict;
  ck_optimizer_state_dict : state_dict;
  ck_loss : R
}.

(** What [torch.load] finds at a path: a checkpoint dictionary as [_save]
    pickles it, or bytes that do not unpickle, with the exception that
    [torch.load] raises on them (an [UnpicklingError], an [EOFError] on a
    truncated file, ...). *)
Inductive file :=
| Pickled (c : checkpoint_file)
| Corrupt (e : exn).

Inductive dataset :=
| PairData (items : list (feature * Z))   (* (feature, image_id) *)
| TripleData (items : list example).      (* (feature, cap_vec, caption) *)

(** A batch as a data loader hands it to an engine: the 4-tuple of
    [pack_collate_fn], or the pair that the default collate function makes
    of [(feature, image_id)] items. *)
Inductive batch_obj :=
| PackedBatch (b : collated)
| PairBatch (features : list feature) (image_ids : list Z).

(** The keyword arguments of the constructor. *)
Record config := Config {
  n_time_steps : nat;
  batch_size : nat;
  beam_size : nat;
  update_rule : string;
  learning_rate : R;
  metric : string;
  alpha_c : R;
  snapshot_steps : Z;
  eval_every : Z;
  log_path : string;
  checkpoint_dir : string;
  checkpoint : option string;
  device : string
}.

Definition default_config : config :=
  Config 31 100 3 "adam" 0.01%R "CIDEr" 1%R 100 200 "./log/" "./model/" None "cuda:0".

(** The attributes of [self]. [optimizer] and [start_iter] are the two that
    a constructor run can leave unset. *)
Record solver := Solver {
  cfg : config;
  _start : Z;
  _null : Z;
  _end : Z;
  train_dataset : list example;
  val_dataset : list (feature * Z);
  optimizer : option (optimizer_kind * state_dict);
  start_iter : option Z;
  test_loader : option dataset
}.

(** The state the methods act on: the solver, the parameters of the model
    object (which the caller of the constructor shares), the checkpoint
    files, and a ghost log with one entry per call of the model in [_train]:
    the tokens fed to the model and the targets it is scored against. *)
Record world := World {
  self_ : solver;
  model_params : state_dict;
  fs : gmap string file;
  forward_log : list (list Z * list Z)
}.

Definition py (A : Type) : Type := world → result A * world.

#[global] Instance py_ret : MRet py := λ A a w, (Ok a, w).
#[global] Instance py_bind : MBind py := λ A B k m w,
  match m w with
  | (Ok a, w') => k a w'
  | (Raise e, w') => (Raise e, w')
  end.

Definition raise {A} (e : exn) : py A := λ w, (Raise e, w).
Definition lift {A} (r : result A) : py A := λ w, (r, w).
Definition get : py world := λ w, (Ok w, w).
Definition modify (f : world → world) : py unit := λ w, (Ok tt, f w).

Definition set_self (s : solver) (w : world) : world :=
  World s (model_params w) (fs w) (forward_log w).
Definition set_model_params (θ : state_dict) (w : world) : world :=
  World (self_ w) θ (fs w) (forward_log w).
Definition set_fs (f : gmap string file) (w : world) : world :=
  World (self_ w) (model_params w) f (forward_log w).
Definition log_forward (e : list Z * list Z) (w : world) : world :=
  World (self_ w) (model_params w) (fs w) (forward_log w ++ [e]).

Definition set_optimizer (o : option (optimizer_kind * state_dict)) (s : solver) : solver :=
  Solver (cfg s) (_start s) (_null s) (_end s) (train_dataset s) (val_dataset s)
         o (start_iter s) (test_loader s).
Definition set_start_iter (i : Z) (s : solver) : solver :=
  Solver (cfg s) (_start s) (_null s) (_end s) (train_dataset s) (val_dataset s)
         (optimizer s) (Some i) (test_loader s).
Definition set_test_loader (d : dataset) (s : solver) : solver :=
  Solver (cfg s) (_start s) (_null s) (_end s) (train_dataset s) (val_dataset s)
         (optimizer s) (start_iter s) (Some d).

(** [self.optimizer]: an attribute that was never set raises. *)
Definition get_optimizer : py (optimizer_kind * state_dict) := λ w,
  match optimizer (self_ w) with
  | Some o => (Ok o, w)
  | None => (Raise AttributeError, w)
  end.

(** ** Data loaders and the test engine *)

(** The batches of [DataLoader(dataset, batch_size=n)] without shuffling:
    consecutive groups of [n] items, the last one possibly shorter. *)
Fixpoint chunks_fuel {A} (fuel n : nat) (l : list A) : list (list A) :=
  match fuel, l with
  | S fuel', _ :: _ => take n l :: chunks_fuel fuel' n (drop n l)
  | _, _ => []
  end.

Definition chunks {A} (n : nat) (l : list A) : list (list A) :=
  chunks_fuel (length l) n l.

Definition default_collate (items : list (feature * Z)) : result batch_obj :=
  Ok (PairBatch items.*1 items.*2).

(** [pack_collate_fn] as a collate function: on items that are pairs, the
    unpacking into three names on line 16 raises. *)
Definition pack_collate (d : dataset) (n : nat) : list (result batch_obj) :=
  match d with
  | PairData items => (λ _, Raise ValueError) <$> chunks n items
  | TripleData items => (λ c, PackedBatch <$> pack_collate_fn c) <$> chunks n items
  end.

Definition val_loader (s : solver) : list (result batch_obj) :=
  default_collate <$> chunks (batch_size (cfg s)) (val_dataset s).

Record engine_state := EngineState {
  es_captions : list (Z * string);
  es_scores : option scores
}.

(** A Python number ([loss = 0], [acc = 0.]) or a tensor that came out of
    the model's computation: only the latter has [backward] and [item]. *)
Inductive scalar (A : Type) :=
| PyNumber (x : A)
| Tensor (x : A).
Arguments PyNumber {A} x.
Arguments Tensor {A} x.

Definition value {A} (s : scalar A) : A :=
  match s with PyNumber x | Tensor x => x end.

(** The local variables of the loop of [_train]. *)
Record loop_state := LoopState {
  start_idx : nat;
  hidden_states : states;
  cell_states : states;
  loss : scalar R;
  acc : scalar nat;
  alphas : list (list (list R))
}.

(** What is passed as [test_dataset]: nothing, a dataset, or (as the
    iteration handler does) a data loader. *)
Inductive test_arg :=
| ArgNone
| ArgDataset (d : dataset)
| ArgLoader (l : list (result batch_obj)).

(** One completed iteration of the training engine. *)
Record iteration := Iteration {
  it_epoch : Z;
  it_output : R * Q;
  it_params : state_dict;
  it_opt_state : state_dict
}.

Section Solver.
Context (M : model_api) (E : externals).

(** *** Checkpoints *)

Definition checkpoint_path (dir : string) (iteration : Z) : string :=
  os_path_join dir (str iteration +:+ ".pth").

Definition torch_save (c : checkpoint_file) (path : string) : py unit :=
  modify (λ w, set_fs (<[path := Pickled c]> (fs w)) w).

Definition torch_load (path : string) : py checkpoint_file := λ w,
  match fs w !! path with
  | Some (Pickled c) => (Ok c, w)
  | Some (Corrupt e) => (Raise e, w)
  | None => (Raise FileNotFoundError, w)
  end.

Definition _save (epoch iteration : Z) (loss : R) : py unit :=
  w ← get;
  o ← get_optimizer;
  torch_save (CheckpointFile epoch iteration (model_params w) o.2 loss)
             (checkpoint_path (checkpoint_dir (cfg (self_ w))) iteration).

Definition _load (model_path : string) : py unit :=
  checkpoint ← torch_load model_path;
  _ ← modify (set_model_params (ck_model_state_dict checkpoint));
  o ← get_optimizer;
  _ ← modify (λ w, set_self
         (set_optimizer (Some (o.1, ck_optimizer_state_dict checkpoint)) (self_ w)) w);
  modify (λ w, set_self (set_start_iter (ck_iteration checkpoint + 1) (self_ w)) w).

(** *** The constructor

    The training loader shuffles (line 64): its sampler refuses a data set
    without items, and both loaders refuse a batch size that is not
    positive. Building the beam decoder, the two criteria and the two
    engines touches nothing that the methods below read; they are left
    out. *)

Definition lookup_word (word_to_idx : gmap string Z) (word : string) : result Z :=
  match word_to_idx !! word with
  | Some i => Ok i
  | None => Raise KeyError
  end.

Definition __init__ (word_to_idx : gmap string Z)
    (train_dataset : list example) (val_dataset : list (feature * Z))
    (kwargs : config) : py unit :=
  start ← lift (lookup_word word_to_idx "<START>");
  null ← lift (lookup_word word_to_idx "<NULL>");
  end_ ← lift (lookup_word word_to_idx "<END>");
  (* RandomSampler(train_dataset), then the batch samplers *)
  if bool_decide (length train_dataset = 0) then raise ValueError else
  if bool_decide (batch_size kwargs = 0) then raise ValueError else
  _ ← modify (set_self
         (Solver kwargs start null end_ train_dataset val_dataset None None None));
  _ ← (if bool_decide (update_rule kwargs = "adam") then
         modify (λ w, set_self (set_optimizer
           (Some (Adam, optim_init E Adam (learning_rate kwargs) (model_params w)))
           (self_ w)) w)
       else if bool_decide (update_rule kwargs = "rmsprop") then
         modify (λ w, set_self (set_optimizer
           (Some (RMSprop, optim_init E RMSprop (learning_rate kwargs) (model_params w)))
           (self_ w)) w)
       else mret tt);
  _ ← lift (makedirs E (checkpoint_dir kwargs));
  _ ← lift (makedirs E (log_path kwargs));
  _ ← match checkpoint kwargs with
      | Some path => _load path
      | None => modify (λ w, set_self (set_start_iter 1 (self_ w)) w)
      end;
  lift (summary_writer E (log_path kwargs)).

(** *** Evaluation *)

Definition _test (st : engine_state) (batch : batch_obj) : py engine_state :=
  match batch with
  | PairBatch features image_ids =>
    w ← get;
    let cap_vecs := beam_decode E (model_params w) features in
    let captions := decode_captions E cap_vecs in
    mret (EngineState (es_captions st ++ zip image_ids captions) (es_scores st))
  | PackedBatch _ => raise ValueError   (* four values do not unpack into two names *)
  end.

Definition testing_start_epoch_handler (st : engine_state) : engine_state :=
  EngineState [] (es_scores st).

Definition testing_end_epoch_handler (st : engine_state) (is_val : bool) : engine_state :=
  if is_val then EngineState (es_captions st) (Some (evaluate E (es_captions st)))
  else st.

(** One epoch of the test engine over a loader; a batch is collated when
    the loop reaches it. The end-of-epoch handler is registered with the
    extra argument [True] (line 84). *)
Fixpoint run_batches (loader : list (result batch_obj)) (st : engine_state)
  : py engine_state :=
  match loader with
  | [] => mret st
  | b :: loader' =>
    batch ← lift b;
    st' ← _test st batch;
    run_batches loader' st'
  end.

Definition test_engine_run (loader : list (result batch_obj)) : py engine_state :=
  st ← run_batches loader (testing_start_epoch_handler (EngineState [] None));
  mret (testing_end_epoch_handler st true).

(** [test] returns a scores mapping ([Some]) or Python's [None]. *)
Definition test (test_dataset : test_arg) (is_validation : bool) : py (option scores) :=
  if is_validation then
    w ← get;
    test_state ← test_engine_run (val_loader (self_ w));
    match es_scores test_state with
    | Some s => mret (Some s)
    | None => raise AttributeError
    end
  else
    match test_dataset with
    | ArgDataset d =>
      _ ← modify (λ w, set_self (set_test_loader d (self_ w)) w);
      w ← get;
      _ ← test_engine_run (pack_collate d (batch_size (cfg (self_ w))));
      mret None
    | ArgLoader [] =>
      _ ← test_engine_run [];
      mret None
    | _ => raise TypeError   (* no length, or items that cannot be indexed *)
    end.

(** *** The iteration handler of the training engine

    Printing and the scalars sent to the summary writer are left out. *)

Definition py_mod (a b : Z) : result Z :=
  if bool_decide (b = 0)%Z then Raise ZeroDivisionError else Ok (a `mod` b)%Z.

Definition training_end_iter_handler (epoch iteration : Z) (output : R * Q) : py unit :=
  let loss := output.1 in
  w ← get;
  r ← lift (py_mod iteration (eval_every (cfg (self_ w))));
  _ ← (if bool_decide (r = 0)%Z then
         caption_scores ← test (ArgLoader (val_loader (self_ w))) true;
         match caption_scores with
         | Some _ => mret tt
         | None => raise AttributeError
         end
       else mret tt);
  r ← lift (py_mod iteration (snapshot_steps (cfg (self_ w))));
  if bool_decide (r = 0)%Z then _save epoch iteration loss else mret tt.

(** The training engine runs [_train] and then fires the handler, with
    consecutive iteration numbers. [its] lists, for the iterations
    [first], [first + 1], ..., what the call of [_train] left behind: the
    epoch, its output, and the state of the model and of the optimiser. *)
Definition after_step (i : iteration) (w : world) : world :=
  set_self
    (set_optimizer ((λ o, (o.1, it_opt_state i)) <$> optimizer (self_ w)) (self_ w))
    (set_model_params (it_params i) w).

Fixpoint iterations_completed (first : Z) (its : list iteration) : py unit :=
  match its with
  | [] => mret tt
  | i :: its' =>
    _ ← modify (after_step i);
    _ ← training_end_iter_handler (it_epoch i) first (it_output i);
    iterations_completed (first + 1) its'
  end.

(** *** The training step *)

Definition train_step (θ : state_dict) (features features_proj : list feature)
    (cap_vecs : list Z) (batch_sizes : list nat) (null : Z)
    (i : nat) (st : loop_state) : py loop_state :=
  bs_i ← lift (index batch_sizes i);
  let end_idx := start_idx st + bs_i in
  let curr_cap_vecs := slice cap_vecs (start_idx st) end_idx in
  let out := forward M θ (take bs_i features) (take bs_i features_proj) curr_cap_vecs
               (take_batch bs_i (hidden_states st))
               (take_batch bs_i (cell_states st)) in
  let logits := out.1.1 in
  bs_next ← lift (index batch_sizes (i + 1));
  let targets := slice cap_vecs end_idx (end_idx + bs_next) in
  _ ← modify (log_forward (curr_cap_vecs, targets));
  ce ← lift (cross_entropy null (take bs_next logits) targets);
  preds ← lift (mapM argmax logits);
  matches ← lift (count_equal (take bs_next preds) targets);
  mret (LoopState end_idx out.2.1 out.2.2
          (Tensor (value (loss st) + ce)%R)
          (Tensor (value (acc st) + matches))
          (alphas st ++ [out.1.2])).

Fixpoint train_loop (θ : state_dict) (features features_proj : list feature)
    (cap_vecs : list Z) (batch_sizes : list nat) (null : Z)
    (range : list nat) (st : loop_state) : py loop_state :=
  match range with
  | [] => mret st
  | i :: range' =>
    st' ← train_step θ features features_proj cap_vecs batch_sizes null i st;
    train_loop θ features features_proj cap_vecs batch_sizes null range' st'
  end.

(** The target of the attention regulariser:
    [(seq_lens / L).repeat(1, L)]. *)
Definition alpha_target (seq_lens : list nat) : list (list R) :=
  (λ n, replicate (L M) (INR n / INR (L M))%R) <$> seq_lens.

Definition _train (batch : collated) : py (R * Q) :=
  o ← get_optimizer;                      (* self.optimizer.zero_grad() *)
  w ← get;
  let s := self_ w in
  let θ := model_params w in
  let cap_vecs := data (c_packed batch) in
  let batch_sizes := batch_sizes (c_packed batch) in
  let features := batch_norm M θ (c_features batch) in
  let features_proj := project_features M θ features in
  let hc := get_initial_lstm M θ features in
  st ← train_loop θ features features_proj cap_vecs batch_sizes (_null s)
         (seq 0 (length batch_sizes - 1))
         (LoopState 0 hc.1 hc.2 (PyNumber 0%R) (PyNumber 0) []);
  loss ← (if Rlt_dec 0 (alpha_c (cfg s)) then
            padded ← lift (pad_sequence (L M) (alphas st));
            let sum_loc_alphas := sum_dim1 (L M) padded in
            alphas_reg ← lift (mse_sum sum_loc_alphas (alpha_target (c_seq_lens batch)));
            mret (Tensor (value (loss st) + alpha_c (cfg s) * alphas_reg)%R)
          else mret (loss st));
  b0 ← lift (index batch_sizes 0);
  match loss with
  | PyNumber _ => raise RuntimeError      (* backward: nothing requires grad *)
  | Tensor l =>
    _ ← modify (λ w,
          let r := optim_update E o.1 M (_null (self_ w)) (alpha_c (cfg (self_ w)))
                     (model_params w) o.2 batch in
          set_self (set_optimizer (Some (o.1, r.2)) (self_ w)) (set_model_params r.1 w));
    match acc st with
    | PyNumber _ => raise AttributeError  (* a float has no item() *)
    | Tensor n =>
      let total := sum_list (drop 1 batch_sizes) in
      if bool_decide (total = 0) then raise ZeroDivisionError
      else mret ((l / INR b0)%R, Z.of_nat n # Pos.of_nat total)
    end
  end.

End Solver.

(** ** The training step as the specification words it

    A second, independent description of what [_train] computes, over the
    time steps of the packed batch instead of over offsets into the packed
    buffer. Time step [t] of the specification has [activeNow =
    batch_sizes[t]] examples and the packed tokens of step [t]; it is scored
    on its first [activeNext = batch_sizes[t+1]] logits against the packed
    tokens of step [t+1]. *)

(** The packed tokens, one list per time step, with the active counts. *)
Definition packed_steps (p : packed_sequence) : list (nat * list Z) :=
  zip (batch_sizes p) (reshape (batch_sizes p) (data p)).

Record timestep := Timestep {
  ts_tokens : list Z;           (* fed to the model *)
  ts_logits : list (list R);
  ts_alpha : list (list R);
  ts_active_next : nat;
  ts_targets : list Z
}.

Section Spec.
Context (M : model_api).

Fixpoint spec_timesteps (θ : state_dict) (features features_proj : list feature)
    (steps : list (nat * list Z)) (h c : states) : list timestep :=
  match steps with
  | [] => []
  | now :: later =>
    match later with
    | [] => []
    | next :: _ =>
      let out := forward M θ (take now.1 features) (take now.1 features_proj) now.2
                   (take_batch now.1 h) (take_batch now.1 c) in
      Timestep now.2 out.1.1 out.1.2 next.1 next.2
      :: spec_timesteps θ features features_proj later out.2.1 out.2.2
    end
  end.

(** The time steps of a collated batch under the parameters [θ]. *)
Definition timesteps (θ : state_dict) (batch : collated) : list timestep :=
  let features := batch_norm M θ (c_features batch) in
  let hc := get_initial_lstm M θ features in
  spec_timesteps θ features (project_features M θ features)
    (packed_steps (c_packed batch)) hc.1 hc.2.

(** Cross-entropy of one example, [0] for the padding id. *)
Definition ce_example (null : Z) (row : list R) (target : Z) : R :=
  if bool_decide (target = null) then 0%R
  else (ln (sum_R (exp <$> row)) - default 0%R (row !! Z.to_nat target))%R.

(** Cross-entropy of a time step: summed over its first [activeNext]
    examples. *)
Definition ce_timestep (null : Z) (s : timestep) : R :=
  sum_R (zip_with (ce_example null) (take (ts_active_next s) (ts_logits s)) (ts_targets s)).

Definition word_loss (null : Z) (steps : list timestep) : R :=
  sum_R (ce_timestep null <$> steps).

(** The predicted token of an example: the first index of a maximal
    logit. *)
Definition top_token (row : list R) : nat :=
  match row with
  | [] => 0
  | x :: row' => argmax_from 0 x 1 row'
  end.

Definition correct_timestep (s : timestep) : nat :=
  length (filter (λ p, Z.of_nat (top_token p.1) = p.2)
                 (zip (take (ts_active_next s) (ts_logits s)) (ts_targets s))).

Definition correct_count (steps : list timestep) : nat :=
  sum_list (correct_timestep <$> steps).

(** The attention that example [b] gave to location [l], summed over the
    time steps; a step in which the example is no longer active adds
    zero. *)
Definition attention_at (s : timestep) (b l : nat) : R :=
  match ts_alpha s !! b with
  | Some row => default 0%R (row !! l)
  | None => 0%R
  end.

Definition attention_total (steps : list timestep) (b l : nat) : R :=
  sum_R ((λ s, attention_at s b l) <$> steps).

(** The squared deviation from [sequenceLength / L], summed over the
    examples and the locations. *)
Definition attention_penalty (steps : list timestep) (seq_lens : list nat) : R :=
  sum_R (imap (λ b len,
    sum_R ((λ l, sq (attention_total steps b l - INR len / INR (L M))) <$> seq 0 (L M)))
    seq_lens).

End Spec.

(** Every token is the padding id or an index into the vocabulary. *)
Definition valid_token (vocab : nat) (null : Z) (t : Z) : Prop :=
  t = null ∨ (0 ≤ t < Z.of_nat vocab)%Z.

Definition valid_batch (vocab : nat) (null : Z) (batch : list example) : Prop :=
  Forall (λ ex, Forall (valid_token vocab null) ex.1.2) batch.

(** The order [sorted(..., reverse=True)] has to produce on indices: longer
    first, and among equal lengths the smaller index first. *)
Definition longer_first (key : nat → nat) (i j : nat) : Prop :=
  key j < key i ∨ (key i = key j ∧ i < j).

(** ** Auxiliary definitions for the statements *)

(** The order a stable ascending sort by [key] produces from an input that
    is ordered by [before]. *)
Definition asc_stable {A} (key : A → nat) (before : relation A) (a b : A) : Prop :=
  key a < key b ∨ (key a = key b ∧ before a b).

(** [len_sorted_idx] and [len_sorted_cap_vecs] of [pack_collate_fn]. *)
Definition len_sorted_idx (batch : list example) : list nat :=
  let cap_vecs := batch.*1.*2 in
  sorted (seq 0 (length cap_vecs)) (λ x, length (cap_vecs !!! x)) true.

Definition len_sorted (batch : list example) : list (list Z) :=
  (λ i, batch.*1.*2 !!! i) <$> len_sorted_idx batch.

(** The time steps of sorted sequences, up to the length of the first. *)
Definition columns (seqs : list (list Z)) : list (list Z) :=
  time_step seqs <$> seq 0 (length (default [] (head seqs))).

Definition tagged (cols : list (list Z)) : list (nat * list Z) :=
  (λ c, (length c, c)) <$> cols.

(** [x += ...] repeated over a list, starting from the Python variable [s]. *)
Definition accumulate {A} (add : A → A → A) (s : scalar A) (xs : list A) : scalar A :=
  foldl (λ s x, Tensor (add (value s) x)) s xs.

Definition logged (s : timestep) : list Z * list Z := (ts_tokens s, ts_targets s).

Definition with_steps (w : world) (steps : list timestep) : world :=
  World (self_ w) (model_params w) (fs w) (forward_log w ++ (logged <$> steps)).

(** The world after a training step that returned: the calls of the model
    are logged and the optimiser has updated the parameters and its own
    state. *)
Definition trained (M : model_api) (E : externals) (batch : collated)
    (o : optimizer_kind * state_dict) (w : world) (steps : list timestep) : world :=
  let w1 := with_steps w steps in
  let r := optim_update E o.1 M (_null (self_ w1)) (alpha_c (cfg (self_ w1)))
             (model_params w1) o.2 batch in
  set_self (set_optimizer (Some (o.1, r.2)) (self_ w1)) (set_model_params r.1 w1).

(** The attention term that enters the loss. *)
Definition attention_term (M : model_api) (s : solver) (steps : list timestep)
    (seq_lens : list nat) : R :=
  if Rlt_dec 0 (alpha_c (cfg s))
  then (alpha_c (cfg s) * attention_penalty M steps seq_lens)%R
  else 0%R.

(** The exception of [torch.load] on a path where there is no file or a
    file that does not unpickle. *)
Definition load_error (f : option file) : exn :=
  match f with
  | Some (Corrupt e) => e
  | _ => FileNotFoundError
  end.

(** The world after [_save] at an iteration. *)
Definition snapshot (epoch iteration : Z) (output : R * Q) (w : world)
    (o : optimizer_kind * state_dict) : world :=
  set_fs (<[checkpoint_path (checkpoint_dir (cfg (self_ w))) iteration :=
             Pickled (CheckpointFile epoch iteration (model_params w) o.2 output.1)]>
            (fs w)) w.

(** ** A concrete model, solver and batches *)

Definition demo_forward (θ : state_dict) (fs ps : list feature) (toks : list Z)
    (h c : states) : list (list R) * list (list R) * (states * states) :=
  ((λ _, replicate 5 0%R) <$> toks, (λ _, replicate 2 (1 / 2)%R) <$> toks, (h, c)).

Definition demo_model : model_api.
Proof.
  refine (ModelApi 2 5 (λ _ f, f) (λ _ f, f) (λ _ _, ([], [])) demo_forward
            (Nat.lt_0_succ 4) _ _);
    intros θ fs ps toks h c; simpl;
    (split; [apply length_fmap|by apply Forall_fmap, Forall_true]).
Defined.

Definition demo_externals : externals :=
  Externals (λ _ _ _, ∅) (λ _ _ _ _ θ o _, (θ, o)) (λ _ fs, (λ _, [1; 3; 2]%Z) <$> fs)
            (λ caps, (λ _, "a cat"%string) <$> caps) (λ _, []) (λ _, Ok tt) (λ _, Ok tt).

(** The vocabulary [<NULL>:0, <START>:1, <END>:2, cat:3, sat:4]. *)
Definition demo_vocab : gmap string Z :=
  <["<NULL>"%string := 0%Z]> (<["<START>"%string := 1%Z]> (<["<END>"%string := 2%Z]>
    (<["cat"%string := 3%Z]> (<["sat"%string := 4%Z]> ∅)))).

Definition demo_solver (kwargs : config) : solver :=
  Solver kwargs 1 0 2 [] [] (Some (Adam, ∅)) (Some 1%Z) None.

Definition demo_world (kwargs : config) : world :=
  World (demo_solver kwargs) ∅ ∅ [].

Definition no_alpha_config : config :=
  Config 31 100 3 "adam" 0.01%R "CIDEr" 0%R 100 200 "./log/" "./model/" None "cuda:0".

Definition sgd_config : config :=
  Config 31 100 3 "sgd" 0.01%R "CIDEr" 1%R 100 200 "./log/" "./model/" None "cuda:0".

Definition resume_config : config :=
  Config 31 100 3 "adam" 0.01%R "CIDEr" 1%R 100 200 "./log/" "./model/"
         (Some "./model/100.pth"%string) "cuda:0".

(** The state before the constructor has run: an object without
    attributes, an untrained model, no checkpoint files. *)
Definition fresh_world : world :=
  World (Solver default_config 0 0 0 [] [] None None None) ∅ ∅ [].

Definition demo_batch : list example :=
  [([], [1; 3; 2]%Z, "a cat"%string); ([], [1; 3; 4; 2]%Z, "a cat sat"%string)].

Definition demo_collated : collated :=
  Collated [[]; []] (PackedSequence [1; 1; 3; 3; 4; 2; 2]%Z [2; 2; 2; 1])
           ["a cat sat"%string; "a cat"%string] [4; 3].

(** The two examples of the end-to-end scenario, lengths 4 and 3. *)
Definition scenario_batch : list example :=
  [([], [1; 3; 4; 2]%Z, "a cat sat"%string); ([], [1; 3; 2]%Z, "a cat"%string)].

(** ** The rest of the constructor and of the training engine *)

(** [idx_to_word] (line 48): the dictionary comprehension visits the items
    of [word_to_idx] in the order of the dictionary and a later item
    replaces an earlier one with the same index. *)
Definition idx_to_word (items : list (string * Z)) : gmap Z string :=
  foldl (λ d p, <[p.2 := p.1]> d) ∅ items.

(** Python's [a // b] on integers. *)
Definition py_floordiv (a b : Z) : result Z :=
  if bool_decide (b = 0)%Z then Raise ZeroDivisionError else Ok (a `div` b)%Z.

(** [self.start_iter]: an attribute that was never set raises. *)
Definition get_start_iter : py Z := λ w,
  match start_iter (self_ w) with
  | Some i => (Ok i, w)
  | None => (Raise AttributeError, w)
  end.

(** [len(self.train_loader)]: the number of batches of an epoch. *)
Definition train_loader_len (s : solver) : nat :=
  length (chunks (batch_size (cfg s)) (train_dataset s)).

(** The batches of one epoch of the training loader. The loader shuffles:
    [order] is the training set in the order the sampler drew for the
    epoch. A batch is collated when the loop reaches it. *)
Definition train_loader (s : solver) (order : list example) : list (result collated) :=
  pack_collate_fn <$> chunks (batch_size (cfg s)) order.

(** [training_start_handler] (lines 112-114) reads [start_iter] into two
    local variables and drops them. *)
Definition training_start_handler : py unit :=
  iteration ← get_start_iter;
  start ← get_start_iter;
  w ← get;
  epoch ← lift (py_floordiv start (Z.of_nat (train_loader_len (self_ w))));
  mret tt.

(** [training_end_epoch_handler] (lines 133-134); the constructor does not
    register it with the training engine. *)
Definition training_end_epoch_handler (epoch iteration : Z) (output : R * Q) : py unit :=
  _save epoch iteration output.1.

Section Engine.
Context (M : model_api) (E : externals).

(** One epoch of the training engine: for every batch the iteration
    counter goes up by one, [_train] runs, and the handler of
    [ITERATION_COMPLETED] (line 81) fires. Returns the counter. *)
Fixpoint run_once_on_dataset (epoch iteration : Z) (loader : list (result collated))
  : py Z :=
  match loader with
  | [] => mret iteration
  | b :: loader' =>
    batch ← lift b;
    let iteration := (iteration + 1)%Z in
    output ← _train M E batch;
    _ ← training_end_iter_handler E epoch iteration output;
    run_once_on_dataset epoch iteration loader'
  end.

Fixpoint run_epochs (epoch iteration : Z) (orders : list (list example)) : py unit :=
  match orders with
  | [] => mret tt
  | order :: orders' =>
    let epoch := (epoch + 1)%Z in
    w ← get;
    iteration ← run_once_on_dataset epoch iteration (train_loader (self_ w) order);
    run_epochs epoch iteration orders'
  end.

(** [train] (lines 204-205): [Engine.run] starts from epoch 0 and
    iteration 0, fires the handler of [STARTED] (line 82) and runs
    [num_epochs] epochs; [orders] lists the order of the training set in
    each of them. *)
Definition train (orders : list (list example)) : py unit :=
  _ ← training_start_handler;
  run_epochs 0 0 orders.
End Engine.

(** ** Auxiliary definitions for the further properties *)

(** [m] keeps [P] when the world after [m], whether [m] returned or
    raised, is related by [P] to the world before. *)
Definition keeps {A} (P : relation world) (m : py A) : Prop :=
  ∀ w, P w (m w).2.

(** Two solvers with the same attributes, apart from the state of the
    optimiser: the kind of optimiser, if there is one, is the same. *)
Definition same_settings (s s' : solver) : Prop :=
  cfg s' = cfg s ∧ _start s' = _start s ∧ _null s' = _null s ∧ _end s' = _end s
  ∧ train_dataset s' = train_dataset s ∧ val_dataset s' = val_dataset s
  ∧ start_iter s' = start_iter s ∧ test_loader s' = test_loader s
  ∧ fst <$> optimizer s' = fst <$> optimizer s.

(** What a training step can change: the parameters of the model, the
    state of the optimiser, and the log of model calls, which only grows. *)
Definition train_frame (w w' : world) : Prop :=
  fs w' = fs w
  ∧ same_settings (self_ w) (self_ w')
  ∧ forward_log w `prefix_of` forward_log w'.

(** Only the log of model calls grows. *)
Definition log_grows (w w' : world) : Prop :=
  self_ w' = self_ w ∧ model_params w' = model_params w ∧ fs w' = fs w
  ∧ forward_log w `prefix_of` forward_log w'.

(** The optimiser that lines 70-73 of the constructor build: none for a
    name that is neither ["adam"] nor ["rmsprop"]. *)
Definition chosen_optimizer (E : externals) (kwargs : config) (θ : state_dict)
  : option (optimizer_kind * state_dict) :=
  if bool_decide (update_rule kwargs = "adam"%string)
  then Some (Adam, optim_init E Adam (learning_rate kwargs) θ)
  else if bool_decide (update_rule kwargs = "rmsprop"%string)
  then Some (RMSprop, optim_init E RMSprop (learning_rate kwargs) θ)
  else None.

(** The captions that [_test] adds for one validation batch. *)
Definition batch_captions (E : externals) (θ : state_dict) (items : list (feature * Z))
  : list (Z * string) :=
  zip items.*2 (decode_captions E (beam_decode E θ items.*1)).

(** The checkpoints that a run leaves: for every iteration [k] in [saved]
    the file of [k] holds a checkpoint of iteration [k] whose epoch
    satisfies [epoch_of k], and every other path is as before. *)
Definition checkpoints_written (dir : string) (saved : Z → Prop)
    (epoch_of : Z → Z → Prop) (files files' : gmap string file) : Prop :=
  (∀ k, saved k →
     ∃ c, files' !! checkpoint_path dir k = Some (Pickled c)
          ∧ ck_iteration c = k ∧ epoch_of k (ck_epoch c))
  ∧ (∀ p, (∀ k, saved k → p ≠ checkpoint_path dir k) → files' !! p = files !! p).

(** A batch the training step accepts: not empty, and every example has at
    least two tokens, each of them the padding id or a vocabulary id. *)
Definition trainable (vocab : nat) (null : Z) (examples : list example) : Prop :=
  Forall (λ ex, 2 ≤ length ex.1.2 ∧ Forall (valid_token vocab null) ex.1.2) examples.

Definition good_batch (vocab : nat) (null : Z) (c : list example) : Prop :=
  c ≠ [] ∧ trainable vocab null c.

(** ** Further concrete inputs *)

(** A checkpoint of iteration 100 on disk, and a configuration that
    resumes from it with an optimiser name the constructor does not know. *)
Definition saved_checkpoint : checkpoint_file :=
  CheckpointFile 1 100 {["w" := [1%R]]} ∅ 2.3%R.

Definition saved_world : world :=
  World (Solver default_config 0 0 0 [] [] None None None) ∅
        {["./model/100.pth"%string := Pickled saved_checkpoint]} [].

Definition sgd_resume_config : config :=
  Config 31 100 3 "sgd" 0.01%R "CIDEr" 1%R 100 200 "./log/" "./model/"
         (Some "./model/100.pth"%string) "cuda:0".

(** A collated batch of one sequence whose second token, 7, is neither the
    padding id nor below the size of the vocabulary of [demo_model]. *)
Definition unknown_token_collated : collated :=
  Collated [[]] (PackedSequence [1; 7; 2]%Z [1; 1; 1]) ["a dog"%string] [3].

(** A training set of two examples in a solver that takes one example per
    batch, validates after every iteration and saves after every second
    one. *)
Definition small_config : config :=
  Config 31 1 3 "adam" 0.01%R "CIDEr" 1%R 2 1 "./log/" "./model/" None "cuda:0".

Definition train_world : world :=
  World (Solver small_config 1 0 2 scenario_batch [] (Some (Adam, ∅)) (Some 1%Z) None)
        ∅ ∅ [].

(** * Verification *)

(** ** Sorting *)

Section Sorting.
Context {A : Type} (key : A → nat).

Lemma insert_by_perm x l : insert_by key x l ≡ₚ x :: l.
Proof.
  induction l as [|y l IH]; simpl; [done|].
  destruct (key y <? key x); [|done].
  rewrite IH. apply Permutation_swap.
Qed.

Lemma stable_sort_perm l : stable_sort key l ≡ₚ l.
Proof.
  induction l as [|x l IH]; simpl; [done|].
  by rewrite insert_by_perm, IH.
Qed.

Lemma sorted_perm l reverse : sorted l key reverse ≡ₚ l.
Proof.
  unfold sorted. destruct reverse; [|apply stable_sort_perm].
  rewrite <-Permutation_rev, stable_sort_perm. symmetry. apply Permutation_rev.
Qed.

Lemma insert_by_sorted before x l :
  Forall (before x) l →
  StronglySorted (asc_stable key before) l →
  StronglySorted (asc_stable key before) (insert_by key x l).
Proof.
  intros Hx Hl. induction Hl as [|y l Hl IH Hy]; simpl.
  - repeat constructor.
  - apply Forall_cons in Hx as [Hxy Hx].
    destruct (Nat.ltb_spec (key y) (key x)) as [Hlt|Hge].
    + constructor; [by apply IH|].
      rewrite insert_by_perm. constructor; [by left|done].
    + constructor; [by constructor|].
      constructor.
      * unfold asc_stable. destruct (decide (key x = key y)); [by right|left; lia].
      * rewrite Forall_forall in *. intros z Hz.
        specialize (Hx z Hz). specialize (Hy z Hz).
        unfold asc_stable in *. destruct Hy as [?|[? ?]].
        -- left; lia.
        -- destruct (decide (key x = key z)); [by right|left; lia].
Qed.

Lemma stable_sort_sorted before l :
  StronglySorted before l →
  StronglySorted (asc_stable key before) (stable_sort key l).
Proof.
  induction 1 as [|x l Hl IH Hx]; simpl; [constructor|].
  apply insert_by_sorted; [|done].
  by rewrite stable_sort_perm.
Qed.

Lemma StronglySorted_rev (R : relation A) l :
  StronglySorted R l → StronglySorted (flip R) (rev l).
Proof.
  induction 1 as [|x l Hl IH Hx]; simpl; [constructor|].
  apply StronglySorted_app_2; [|done|repeat constructor].
  intros y z Hy Hz. apply list_elem_of_singleton in Hz as ->.
  rewrite Forall_forall in Hx. apply Hx.
  apply list_elem_of_In, in_rev, list_elem_of_In in Hy. done.
Qed.
End Sorting.

Lemma seq_sorted_lt a n : StronglySorted lt (seq a n).
Proof.
  revert a; induction n as [|n IH]; intros a; simpl; constructor; [apply IH|].
  apply Forall_forall. intros x Hx%list_elem_of_In%in_seq. lia.
Qed.

Lemma StronglySorted_weaken {A} (R1 R2 : relation A) l :
  (∀ x y, R1 x y → R2 x y) → StronglySorted R1 l → StronglySorted R2 l.
Proof.
  intros HR. induction 1 as [|x l Hl IH Hx]; constructor; [done|].
  eapply Forall_impl; [exact Hx|]. intros y. apply HR.
Qed.

(** [sorted(range(n), key=key, reverse=True)]: a permutation of the indices,
    longer first, equal lengths in index order. *)
Lemma sorted_range_reverse (key : nat → nat) n :
  let idx := sorted (seq 0 n) key true in
  idx ≡ₚ seq 0 n ∧ StronglySorted (longer_first key) idx.
Proof.
  split; [apply sorted_perm|].
  unfold sorted.
  pose proof (StronglySorted_rev lt _ (seq_sorted_lt 0 n)) as H1.
  apply (stable_sort_sorted key) in H1.
  apply StronglySorted_rev in H1.
  eapply StronglySorted_weaken; [|exact H1].
  unfold flip, asc_stable, longer_first. intros x y [?|[? ?]]; [by left|by right].
Qed.

(** ** Gathering along a permutation *)

Lemma index_Ok {A} (l : list A) i x : index l i = Ok x ↔ l !! i = Some x.
Proof. unfold index. destruct (l !! i); naive_solver. Qed.

Lemma mapM_result_Ok {A B} (f : A → result B) (g : A → B) l :
  Forall (λ x, f x = Ok (g x)) l → mapM f l = Ok (g <$> l).
Proof.
  induction 1 as [|x l Hx Hl IH]; [done|].
  cbn. rewrite Hx. cbn. rewrite IH. done.
Qed.

Lemma gather_in_range {A} `{Inhabited A} (l : list A) idx :
  Forall (λ i, i < length l) idx → gather l idx = Ok ((λ i, l !!! i) <$> idx).
Proof.
  intros Hidx. apply mapM_result_Ok.
  eapply Forall_impl; [exact Hidx|]. intros i Hi; simpl.
  apply index_Ok. by apply list_lookup_lookup_total_lt.
Qed.


(** ** Packing *)

Lemma time_step_length seqs t :
  length (time_step seqs t) = active_count (length <$> seqs) t.
Proof.
  unfold time_step, active_count.
  induction seqs as [|s seqs IH]; [done|].
  cbn [omap list_omap fmap list_fmap]. rewrite filter_cons.
  destruct (s !! t) as [x|] eqn:Hs.
  - apply lookup_lt_Some in Hs. rewrite decide_True by done. simpl. by rewrite IH.
  - apply lookup_ge_None in Hs. rewrite decide_False by lia. done.
Qed.

Lemma active_count_anti lengths t t' :
  t ≤ t' → active_count lengths t' ≤ active_count lengths t.
Proof.
  intros Ht. unfold active_count.
  induction lengths as [|n lengths IH]; [done|].
  rewrite !filter_cons. repeat case_decide; simpl; lia.
Qed.

Lemma active_count_all lengths t :
  Forall (λ n, t < n) lengths → active_count lengths t = length lengths.
Proof.
  unfold active_count. induction 1 as [|n lengths Hn Hl IH]; [done|].
  rewrite filter_cons, decide_True by done. simpl. by rewrite IH.
Qed.

Lemma time_step_elem_of seqs t x :
  x ∈ time_step seqs t → ∃ s, s ∈ seqs ∧ x ∈ s.
Proof.
  unfold time_step. intros (s & Hs & Hx)%list_elem_of_omap.
  exists s. split; [done|]. by eapply list_elem_of_lookup_2.
Qed.

Lemma is_decreasing_sorted l :
  StronglySorted (λ a b, b ≤ a) l → is_decreasing l = true.
Proof.
  induction 1 as [|a l Hl IH Ha]; [done|].
  destruct l as [|b l]; [done|].
  change (is_decreasing (a :: b :: l)) with ((b <=? a) && is_decreasing (b :: l)).
  rewrite IH, andb_true_r.
  apply Nat.leb_le. by apply Forall_cons in Ha as [? _].
Qed.

Lemma reshape_join {A} (ls : list (list A)) :
  reshape (length <$> ls) (mjoin ls) = ls.
Proof.
  induction ls as [|l ls IH]; [done|].
  change (reshape (length <$> l :: ls) (mjoin (l :: ls)))
    with (take (length l) (l ++ mjoin ls)
          :: reshape (length <$> ls) (drop (length l) (l ++ mjoin ls))).
  by rewrite take_app_length, drop_app_length, IH.
Qed.

(** The batch sizes of a packed sequence never grow. *)
Lemma batch_sizes_non_increasing lengths n :
  StronglySorted (λ a b, b ≤ a) (active_count lengths <$> seq 0 n).
Proof.
  eapply (StronglySorted_fmap _ lt); [|apply seq_sorted_lt].
  intros t t' Ht. apply active_count_anti. lia.
Qed.

(** ** What [pack_collate_fn] returns *)

Lemma len_sorted_idx_range batch :
  Forall (λ i, i < length batch) (len_sorted_idx batch).
Proof.
  unfold len_sorted_idx. rewrite sorted_perm.
  apply Forall_forall. intros i Hi%list_elem_of_In%in_seq.
  rewrite !length_fmap in Hi. lia.
Qed.

Lemma fmap_lookup_total_seq {A} `{Inhabited A} (l : list A) :
  (λ i, l !!! i) <$> seq 0 (length l) = l.
Proof.
  apply list_eq; intros i. rewrite list_lookup_fmap.
  destruct (decide (i < length l)).
  - rewrite lookup_seq_lt by done. simpl. symmetry.
    by apply list_lookup_lookup_total_lt.
  - rewrite lookup_seq_ge, lookup_ge_None_2 by lia. done.
Qed.

Lemma len_sorted_perm batch : len_sorted batch ≡ₚ batch.*1.*2.
Proof.
  unfold len_sorted, len_sorted_idx. rewrite sorted_perm.
  by rewrite fmap_lookup_total_seq.
Qed.

Lemma len_sorted_Forall (P : list Z → Prop) batch :
  Forall (λ ex, P ex.1.2) batch → Forall P (len_sorted batch).
Proof.
  intros Hall. rewrite len_sorted_perm. apply Forall_fmap, Forall_fmap.
  eapply Forall_impl; [exact Hall|]. by intros [[??]?].
Qed.

Lemma len_sorted_decreasing batch :
  StronglySorted (λ a b, b ≤ a) (length <$> len_sorted batch).
Proof.
  unfold len_sorted, len_sorted_idx. rewrite <-list_fmap_compose.
  eapply StronglySorted_fmap; [|apply sorted_range_reverse].
  unfold longer_first. simpl. lia.
Qed.

Lemma len_sorted_nonempty batch : batch ≠ [] → len_sorted batch ≠ [].
Proof.
  intros Hne Hs. apply (f_equal length) in Hs.
  rewrite (Permutation_length (len_sorted_perm batch)), !length_fmap in Hs.
  by destruct batch.
Qed.

Lemma pack_sequence_Ok seqs :
  seqs ≠ [] →
  StronglySorted (λ a b, b ≤ a) (length <$> seqs) →
  Forall (λ s, 0 < length s) seqs →
  pack_sequence seqs =
    Ok (PackedSequence (mjoin (columns seqs)) (length <$> columns seqs)).
Proof.
  intros Hne Hdec Hpos. unfold pack_sequence, columns.
  assert (forallb (λ n, 0 <? n) (length <$> seqs) = true) as Hall.
  { apply forallb_forall. intros n Hn%list_elem_of_In%list_elem_of_fmap.
    destruct Hn as (s & -> & Hs). rewrite Forall_forall in Hpos.
    apply Nat.ltb_lt. by apply Hpos. }
  apply is_decreasing_sorted in Hdec.
  destruct seqs as [|s seqs]; [done|].
  cbn [fmap list_fmap head default] in *. rewrite Hdec, Hall. cbn [negb].
  repeat f_equal. rewrite <-list_fmap_compose.
  apply list_fmap_ext. intros t u _. symmetry. apply (time_step_length (s :: seqs)).
Qed.

Lemma pack_collate_fn_Ok batch :
  batch ≠ [] →
  Forall (λ ex, 0 < length ex.1.2) batch →
  pack_collate_fn batch =
    Ok (Collated ((λ i, batch.*1.*1 !!! i) <$> len_sorted_idx batch)
          (PackedSequence (mjoin (columns (len_sorted batch)))
                          (length <$> columns (len_sorted batch)))
          ((λ i, batch.*2 !!! i) <$> len_sorted_idx batch)
          (length <$> len_sorted batch)).
Proof.
  intros Hne Hpos.
  pose proof (len_sorted_Forall (λ s, 0 < length s) _ Hpos) as Hpos'.
  pose proof (len_sorted_idx_range batch) as Hidx.
  pose proof (pack_sequence_Ok _ (len_sorted_nonempty _ Hne)
                (len_sorted_decreasing batch) Hpos') as Hpack.
  unfold pack_collate_fn. destruct batch as [|ex batch']; [done|].
  fold (len_sorted_idx (ex :: batch')).
  rewrite !gather_in_range by (by rewrite !length_fmap).
  cbn [mbind result_bind]. fold (len_sorted (ex :: batch')).
  by rewrite Hpack.
Qed.


(** ** The monad *)

Lemma bind_lift_Ok {A B} (r : result A) (k : A → py B) a w :
  r = Ok a → (lift r ≫= k) w = k a w.
Proof. by intros ->. Qed.

Lemma bind_modify {B} (f : world → world) (k : unit → py B) w :
  (modify f ≫= k) w = k tt (f w).
Proof. done. Qed.

Lemma bind_get {B} (k : world → py B) w : (get ≫= k) w = k w w.
Proof. done. Qed.

Lemma bind_Ok {A B} (m : py A) (k : A → py B) a w w' :
  m w = (Ok a, w') → (m ≫= k) w = k a w'.
Proof. unfold mbind, py_bind. by intros ->. Qed.

Lemma bind_Raise {A B} (m : py A) (k : A → py B) e w w' :
  m w = (Raise e, w') → (m ≫= k) w = (Raise e, w').
Proof. unfold mbind, py_bind. by intros ->. Qed.

(** ** The primitives on well-shaped arguments *)

Lemma nll_row_Ok vocab null row t :
  length row = vocab → valid_token vocab null t →
  nll_row null row t = Ok (ce_example null row t).
Proof.
  intros Hrow Ht. unfold nll_row, ce_example, nll.
  case_bool_decide; [done|].
  destruct Ht as [?|[? ?]]; [done|].
  rewrite bool_decide_true by done.
  destruct (lookup_lt_is_Some_2 row (Z.to_nat t)) as [x Hx]; [lia|].
  by rewrite Hx.
Qed.

Lemma zip_with_fmap_zip {A B C} (f : A → B → C) (l : list A) (k : list B) :
  zip_with f l k = (λ p, f p.1 p.2) <$> zip l k.
Proof.
  revert k; induction l as [|x l IH]; intros [|y k]; simpl; [done..|].
  by rewrite IH.
Qed.

Lemma cross_entropy_Ok vocab null input target :
  length input = length target →
  Forall (λ row, length row = vocab) input →
  Forall (valid_token vocab null) target →
  cross_entropy null input target
  = Ok (sum_R (zip_with (ce_example null) input target)).
Proof.
  intros Hlen Hin Htg. unfold cross_entropy.
  rewrite bool_decide_true by done.
  rewrite (mapM_result_Ok _ (λ p, ce_example null p.1 p.2)).
  - by rewrite (zip_with_fmap_zip (ce_example null)).
  - apply Forall_forall. intros [row t] Hp. simpl.
    apply elem_of_zip_l in Hp as Hrow. apply elem_of_zip_r in Hp as Ht.
    eapply nll_row_Ok; [by eapply Forall_forall in Hin|by eapply Forall_forall in Htg].
Qed.

Lemma argmax_rows_Ok vocab (logits : list (list R)) :
  0 < vocab → Forall (λ row, length row = vocab) logits →
  mapM argmax logits = Ok (top_token <$> logits).
Proof.
  intros Hv Hl. apply mapM_result_Ok.
  eapply Forall_impl; [exact Hl|]. intros [|x row] Hrow; simpl in *; [lia|done].
Qed.

Lemma count_equal_Ok (f : list R → nat) (rows : list (list R)) (target : list Z) :
  length rows = length target →
  count_equal (f <$> rows) target
  = Ok (length (filter (λ p, Z.of_nat (f p.1) = p.2) (zip rows target))).
Proof.
  intros Hlen. unfold count_equal.
  rewrite bool_decide_true by (by rewrite length_fmap).
  f_equal. clear Hlen. revert target.
  induction rows as [|r rows IH]; intros [|t target]; [done..|].
  cbn [fmap list_fmap zip zip_with]. rewrite !filter_cons. simpl.
  case_decide; simpl; by rewrite IH.
Qed.

(** ** The loop of [_train] against the time steps of the specification *)

Section Loop.
Context (M : model_api) (θ : state_dict) (F P : list feature) (null : Z).

Lemma train_loop_steps cols : ∀ pre pre_bs st w,
  length pre = sum_list pre_bs →
  start_idx st = length pre →
  StronglySorted (λ a b, length b ≤ length a) cols →
  Forall (Forall (valid_token (V M) null)) cols →
  let steps := spec_timesteps M θ F P (tagged cols)
                 (hidden_states st) (cell_states st) in
  ∃ st',
    train_loop M θ F P (pre ++ mjoin cols) (pre_bs ++ (length <$> cols)) null
      (seq (length pre_bs) (length cols - 1)) st w
    = (Ok st', with_steps w steps)
    ∧ loss st' = accumulate Rplus (loss st) (ce_timestep null <$> steps)
    ∧ acc st' = accumulate Nat.add (acc st) (correct_timestep <$> steps)
    ∧ alphas st' = alphas st ++ (ts_alpha <$> steps).
Proof.
  induction cols as [|col cols IH]; intros pre pre_bs st w Hpre Hst Hsorted Hvalid.
  { simpl. exists st. destruct w. unfold with_steps. simpl. by rewrite !app_nil_r. }
  destruct cols as [|col' cols].
  { simpl. exists st. destruct w. unfold with_steps. simpl. by rewrite !app_nil_r. }
  apply StronglySorted_inv in Hsorted as [Hsorted Hhd].
  apply Forall_cons in Hhd as [Hle _].
  apply Forall_cons in Hvalid as [_ Hvalid].
  pose proof Hvalid as Hvalid'. apply Forall_cons in Hvalid' as [Hv' _].
  set (out := forward M θ (take (length col) F) (take (length col) P) col
                (take_batch (length col) (hidden_states st))
                (take_batch (length col) (cell_states st))).
  destruct (forward_logits_shape M θ (take (length col) F) (take (length col) P) col
                (take_batch (length col) (hidden_states st))
                (take_batch (length col) (cell_states st))) as [Hrows Hwidth].
  fold out in Hrows, Hwidth.
  set (st1 := LoopState (start_idx st + length col) out.2.1 out.2.2
                (Tensor (value (loss st)
                   + sum_R (zip_with (ce_example null) (take (length col') out.1.1) col'))%R)
                (Tensor (value (acc st)
                   + length (filter (λ p, Z.of_nat (top_token p.1) = p.2)
                              (zip (take (length col') out.1.1) col'))))
                (alphas st ++ [out.1.2])).
  destruct (IH (pre ++ col) (pre_bs ++ [length col]) st1 (log_forward (col, col') w))
    as (st' & Hloop & Hloss & Hacc & Halphas).
  { rewrite length_app, sum_list_with_app. simpl. lia. }
  { simpl. rewrite length_app. lia. }
  { done. }
  { done. }
  exists st'. split; [|split; [|split]].
  - replace (length (col :: col' :: cols) - 1) with (S (length (col' :: cols) - 1))
      by (simpl; lia).
    cbn [seq train_loop].
    assert (train_step M θ F P (pre ++ mjoin (col :: col' :: cols))
              (pre_bs ++ (length <$> col :: col' :: cols)) null (length pre_bs) st w
            = (Ok st1, log_forward (col, col') w)) as Hstep.
    { unfold train_step.
      rewrite (bind_lift_Ok _ _ (length col)).
      2:{ apply index_Ok. by rewrite lookup_app_r, Nat.sub_diag by lia. }
      rewrite (bind_lift_Ok _ _ (length col')).
      2:{ apply index_Ok. rewrite lookup_app_r by lia.
          by replace (length pre_bs + 1 - length pre_bs) with 1 by lia. }
      rewrite bind_modify.
      assert (slice (pre ++ mjoin (col :: col' :: cols)) (start_idx st)
                (start_idx st + length col) = col) as ->.
      { unfold slice. rewrite Hst.
        replace (length pre + length col - length pre) with (length col) by lia.
        rewrite drop_app_length. simpl. by rewrite take_app_length. }
      assert (slice (pre ++ mjoin (col :: col' :: cols)) (start_idx st + length col)
                (start_idx st + length col + length col') = col') as ->.
      { unfold slice. rewrite Hst.
        replace (length pre + length col + length col' - (length pre + length col))
          with (length col') by lia.
        simpl. rewrite (app_assoc pre col), <-length_app, drop_app_length.
        by rewrite take_app_length. }
      fold out.
      assert (length (take (length col') out.1.1) = length col') as Hlen
        by (rewrite length_take; lia).
      rewrite (bind_lift_Ok _ _ _ _
                 (cross_entropy_Ok (V M) null _ _ Hlen (Forall_take _ _ _ Hwidth) Hv')).
      rewrite (bind_lift_Ok _ _ _ _ (argmax_rows_Ok (V M) _ (V_pos M) Hwidth)).
      rewrite <-fmap_take.
      rewrite (bind_lift_Ok _ _ _ _ (count_equal_Ok top_token _ col' Hlen)).
      done. }
    rewrite (bind_Ok _ _ _ _ _ Hstep).
    replace (S (length pre_bs)) with (length (pre_bs ++ [length col]))
      by (rewrite length_app; simpl; lia).
    replace (pre ++ mjoin (col :: col' :: cols)) with ((pre ++ col) ++ mjoin (col' :: cols))
      by (simpl; by rewrite <-app_assoc).
    replace (pre_bs ++ (length <$> col :: col' :: cols))
      with ((pre_bs ++ [length col]) ++ (length <$> col' :: cols))
      by (simpl; by rewrite <-app_assoc).
    rewrite Hloop. f_equal.
    unfold with_steps, log_forward. simpl. f_equal.
    by rewrite <-app_assoc.
  - rewrite Hloss. done.
  - rewrite Hacc. done.
  - rewrite Halphas. simpl. by rewrite <-app_assoc.
Qed.
End Loop.


(** ** The attention regulariser *)

Lemma zip_with_fmap_seq {A B C} (d : A) (f : A → B → C) (g : nat → B) r n :
  length r = n →
  zip_with f r (g <$> seq 0 n) = (λ i, f (default d (r !! i)) (g i)) <$> seq 0 n.
Proof.
  intros Hr. apply list_eq. intros i.
  rewrite lookup_zip_with, !list_lookup_fmap.
  destruct (decide (i < n)) as [Hi|Hi].
  - rewrite lookup_seq_lt by done.
    destruct (lookup_lt_is_Some_2 r i) as [x Hx]; [lia|]. rewrite Hx. simpl.
    by rewrite Hx.
  - rewrite lookup_seq_ge by lia. by destruct (r !! i).
Qed.

Lemma replicate_fmap_seq {A} (x : A) n : replicate n x = (λ _, x) <$> seq 0 n.
Proof.
  apply list_eq. intros i. rewrite list_lookup_fmap.
  destruct (decide (i < n)).
  - by rewrite lookup_replicate_2, lookup_seq_lt.
  - rewrite lookup_seq_ge by lia. apply lookup_replicate_None. lia.
Qed.

Lemma foldr_add_rows width (rows : list (list R)) :
  Forall (λ row, length row = width) rows →
  foldr add_rows (zero_row width) rows
  = (λ l, sum_R ((λ row, default 0%R (row !! l)) <$> rows)) <$> seq 0 width.
Proof.
  induction 1 as [|row rows Hrow Hrows IH]; simpl.
  - apply replicate_fmap_seq.
  - rewrite IH. unfold add_rows. by rewrite (zip_with_fmap_seq 0%R).
Qed.

Lemma mse_row_replicate (r : list R) n c :
  length r = n →
  mse_row r (replicate n c)
  = sum_R ((λ l, sq (default 0%R (r !! l) - c)) <$> seq 0 n).
Proof.
  intros Hr. unfold mse_row.
  by rewrite replicate_fmap_seq, (zip_with_fmap_seq 0%R).
Qed.

Lemma zip_with_seq_imap {A B C D} (f : A → B → C) (g : nat → A) (h : D → B)
    (l : list D) :
  zip_with f (g <$> seq 0 (length l)) (h <$> l) = imap (λ i x, f (g i) (h x)) l.
Proof.
  apply list_eq. intros i.
  rewrite lookup_zip_with, !list_lookup_fmap, list_lookup_imap.
  destruct (l !! i) as [x|] eqn:Hx.
  - rewrite lookup_seq_lt by (by eapply lookup_lt_Some). done.
  - by destruct (seq 0 (length l) !! i).
Qed.

Lemma pad_sequence_Ok width sequences :
  sequences ≠ [] →
  pad_sequence width sequences
  = Ok ((λ b, (λ s, default (zero_row width) (s !! b)) <$> sequences)
          <$> seq 0 (max_list (length <$> sequences))).
Proof. by destruct sequences. Qed.

Section Attention.
Context (M : model_api).

Lemma padded_row_attention (steps : list timestep) b l :
  sum_R ((λ row, default 0%R (row !! l)) <$>
           ((λ a, default (zero_row (L M)) (a !! b)) <$> (ts_alpha <$> steps)))
  = attention_total steps b l.
Proof.
  unfold attention_total. rewrite <-!list_fmap_compose. f_equal.
  apply list_fmap_ext. intros i s _. unfold attention_at. simpl.
  destruct (ts_alpha s !! b) as [row|]; simpl; [done|].
  unfold zero_row. destruct (replicate (L M) 0%R !! l) as [x|] eqn:Hx; [|done].
  by apply lookup_replicate_1 in Hx as [-> _].
Qed.

Lemma mse_padded_Ok (steps : list timestep) (seq_lens : list nat) :
  Forall (λ s, Forall (λ row, length row = L M) (ts_alpha s)) steps →
  mse_sum
    (sum_dim1 (L M)
       ((λ b, (λ a, default (zero_row (L M)) (a !! b)) <$> (ts_alpha <$> steps))
          <$> seq 0 (length seq_lens)))
    (alpha_target M seq_lens)
  = Ok (attention_penalty M steps seq_lens).
Proof.
  intros Hwidth. unfold mse_sum, sum_dim1, alpha_target.
  rewrite bool_decide_true by (by rewrite !length_fmap, length_seq).
  f_equal. unfold attention_penalty.
  rewrite <-list_fmap_compose, zip_with_seq_imap. f_equal.
  apply imap_ext. intros b len _. simpl.
  rewrite foldr_add_rows.
  2:{ apply Forall_fmap, Forall_fmap. eapply Forall_impl; [exact Hwidth|].
      intros s Hs. simpl. destruct (ts_alpha s !! b) as [row|] eqn:Hrow; simpl.
      - rewrite Forall_forall in Hs. eapply Hs, list_elem_of_lookup_2, Hrow.
      - apply length_replicate. }
  rewrite mse_row_replicate by (by rewrite length_fmap, length_seq).
  f_equal. apply list_fmap_ext. intros i l Hl. apply lookup_seq in Hl as [-> Hl].
  simpl. rewrite list_lookup_fmap, lookup_seq_lt by done. simpl.
  by rewrite padded_row_attention.
Qed.
End Attention.


(** ** Accumulating into a Python variable *)

Lemma accumulate_is_tensor {A} (add : A → A → A) xs : ∀ s,
  xs ≠ [] → accumulate add s xs = Tensor (value (accumulate add s xs)).
Proof.
  induction xs as [|x xs IH]; intros s Hne; [done|].
  destruct xs as [|y xs]; [done|].
  change (accumulate add s (x :: y :: xs))
    with (accumulate add (Tensor (add (value s) x)) (y :: xs)).
  by apply IH.
Qed.

Lemma accumulate_value_R xs : ∀ s,
  value (accumulate Rplus s xs) = (value s + sum_R xs)%R.
Proof.
  induction xs as [|x xs IH]; intros s; [simpl; lra|].
  change (accumulate Rplus s (x :: xs)) with (accumulate Rplus (Tensor (value s + x)%R) xs).
  rewrite IH. simpl. lra.
Qed.

Lemma accumulate_value_nat xs : ∀ s,
  value (accumulate Nat.add s xs) = value s + sum_list xs.
Proof.
  induction xs as [|x xs IH]; intros s; [simpl; lia|].
  change (accumulate Nat.add s (x :: xs)) with (accumulate Nat.add (Tensor (value s + x)) xs).
  rewrite IH. simpl. lia.
Qed.

(** ** The shape of the time steps *)

Lemma max_list_decreasing x l :
  StronglySorted (λ a b, b ≤ a) (x :: l) → max_list (x :: l) = x.
Proof.
  intros [_ Hx]%StronglySorted_inv. simpl.
  assert (max_list l ≤ x); [|lia].
  induction Hx as [|y l Hy Hl IH]; simpl; lia.
Qed.

Section Shape.
Context (M : model_api) (θ : state_dict) (F P : list feature).

Lemma spec_timesteps_shape cols : ∀ h c,
  let steps := spec_timesteps M θ F P (tagged cols) h c in
  ts_tokens <$> steps = take (length cols - 1) cols
  ∧ ts_targets <$> steps = drop 1 cols
  ∧ Forall (λ s, ts_active_next s = length (ts_targets s)
                 ∧ length (ts_logits s) = length (ts_tokens s)
                 ∧ Forall (λ row, length row = V M) (ts_logits s)
                 ∧ length (ts_alpha s) = length (ts_tokens s)
                 ∧ Forall (λ row, length row = L M) (ts_alpha s)) steps.
Proof.
  induction cols as [|col cols IH]; intros h c; [done|].
  destruct cols as [|col' cols]; [done|].
  set (out := forward M θ (take (length col) F) (take (length col) P) col
                (take_batch (length col) h) (take_batch (length col) c)).
  destruct (IH out.2.1 out.2.2) as (Htok & Htg & Hall).
  destruct (forward_logits_shape M θ (take (length col) F) (take (length col) P) col
              (take_batch (length col) h) (take_batch (length col) c)) as [Hrows Hwidth].
  destruct (forward_alpha_shape M θ (take (length col) F) (take (length col) P) col
              (take_batch (length col) h) (take_batch (length col) c)) as [Harows Hawidth].
  change (spec_timesteps M θ F P (tagged (col :: col' :: cols)) h c)
    with (Timestep col out.1.1 out.1.2 (length col') col'
          :: spec_timesteps M θ F P (tagged (col' :: cols)) out.2.1 out.2.2).
  cbv zeta. rewrite !fmap_cons, Htok, Htg. cbn [ts_tokens ts_targets].
  split; [|split].
  - replace (length (col :: col' :: cols) - 1) with (S (length (col' :: cols) - 1))
      by (simpl; lia). done.
  - done.
  - constructor; [|done]. simpl. by repeat split.
Qed.

Lemma spec_timesteps_length cols h c :
  length (spec_timesteps M θ F P (tagged cols) h c) = length cols - 1.
Proof.
  destruct (spec_timesteps_shape cols h c) as (Htok & _).
  apply (f_equal length) in Htok. by rewrite length_fmap, length_take_le in Htok by lia.
Qed.

Lemma correct_timestep_le (s : timestep) : correct_timestep s ≤ length (ts_targets s).
Proof.
  unfold correct_timestep. etrans; [apply length_filter|].
  rewrite length_zip_with. lia.
Qed.

Lemma correct_count_le steps :
  correct_count steps ≤ sum_list (length <$> (ts_targets <$> steps)).
Proof.
  unfold correct_count. induction steps as [|s steps IH]; [done|].
  pose proof (correct_timestep_le s). rewrite !fmap_cons.
  cbn [sum_list sum_list_with id] in *. apply Nat.add_le_mono; done.
Qed.
End Shape.

(** ** The packed batch of [pack_collate_fn] *)

Lemma tagged_packed_steps cols :
  packed_steps (PackedSequence (mjoin cols) (length <$> cols)) = tagged cols.
Proof.
  unfold packed_steps, tagged. cbn [batch_sizes data]. rewrite reshape_join.
  induction cols as [|c cols IH]; [done|].
  rewrite !fmap_cons, <-IH. done.
Qed.

Lemma columns_length seqs : length (columns seqs) = length (default [] (head seqs)).
Proof. unfold columns. by rewrite length_fmap, length_seq. Qed.

Lemma columns_sorted seqs :
  StronglySorted (λ a b, length b ≤ length a) (columns seqs).
Proof.
  unfold columns. eapply (StronglySorted_fmap _ lt); [|apply seq_sorted_lt].
  intros t t' Ht. rewrite !time_step_length. apply active_count_anti. lia.
Qed.

Lemma columns_valid vocab null seqs :
  Forall (Forall (valid_token vocab null)) seqs →
  Forall (Forall (valid_token vocab null)) (columns seqs).
Proof.
  intros Hv. unfold columns. apply Forall_fmap, Forall_forall. intros t _. simpl.
  apply Forall_forall. intros x (s & Hs & Hx)%time_step_elem_of.
  rewrite Forall_forall in Hv. specialize (Hv s Hs).
  rewrite Forall_forall in Hv. by apply Hv.
Qed.

Lemma len_sorted_valid vocab null batch :
  valid_batch vocab null batch →
  Forall (Forall (valid_token vocab null)) (len_sorted batch).
Proof.
  apply (len_sorted_Forall (Forall (valid_token vocab null))).
Qed.

Lemma len_sorted_length batch : length (len_sorted batch) = length batch.
Proof. by rewrite (Permutation_length (len_sorted_perm batch)), !length_fmap. Qed.

(** A batch that [pack_collate_fn] accepts is not empty and has no empty
    token sequence. *)
Lemma pack_collate_fn_inv batch out :
  pack_collate_fn batch = Ok out →
  batch ≠ [] ∧ Forall (λ ex, 0 < length ex.1.2) batch.
Proof.
  intros Hok. split; [by destruct batch|].
  assert (Forall (λ s, 0 < length s) (len_sorted batch)) as Hpos.
  { unfold pack_collate_fn in Hok. destruct batch as [|ex batch']; [done|].
    pose proof (len_sorted_idx_range (ex :: batch')) as Hidx.
    fold (len_sorted_idx (ex :: batch')) in Hok.
    rewrite !gather_in_range in Hok by (by rewrite !length_fmap).
    cbn [mbind result_bind] in Hok. fold (len_sorted (ex :: batch')) in Hok.
    destruct (pack_sequence (len_sorted (ex :: batch'))) as [p|] eqn:Hp; [|done].
    unfold pack_sequence in Hp.
    destruct (length <$> len_sorted (ex :: batch')) as [|n ns] eqn:Hl; [done|].
    destruct (is_decreasing (n :: ns)); [|done]. cbn [negb] in Hp.
    destruct (forallb (λ n, 0 <? n) (n :: ns)) eqn:Hall; [|done].
    rewrite <-Hl in Hall. rewrite forallb_forall in Hall.
    apply Forall_forall. intros s Hs. apply Nat.ltb_lt, Hall.
    apply list_elem_of_In, list_elem_of_fmap. eauto. }
  apply Forall_forall. intros ex Hex.
  rewrite Forall_forall in Hpos. apply Hpos. rewrite len_sorted_perm.
  apply list_elem_of_fmap. exists ex.1. split; [done|].
  apply list_elem_of_fmap. by exists ex.
Qed.


(** ** [_train] on a batch of [pack_collate_fn] *)

Lemma bind_ret {A B} (a : A) (k : A → py B) w : (mret a ≫= k) w = k a w.
Proof. done. Qed.

Lemma bind_get_optimizer {B} (k : optimizer_kind * state_dict → py B) o w :
  optimizer (self_ w) = Some o → (get_optimizer ≫= k) w = k o w.
Proof. intros Ho. unfold mbind, py_bind, get_optimizer. by rewrite Ho. Qed.

Lemma head_longest (seqs : list (list Z)) s :
  StronglySorted (λ a b, b ≤ a) (length <$> seqs) → s ∈ seqs →
  length s ≤ length (default [] (head seqs)).
Proof.
  destruct seqs as [|s0 seqs]; [by intros _ ?%elem_of_nil|].
  rewrite fmap_cons. intros [_ Hhd]%StronglySorted_inv [->|Hs]%elem_of_cons; [done|].
  simpl. rewrite Forall_fmap, Forall_forall in Hhd. by apply Hhd.
Qed.

Lemma longest_columns batch n :
  Exists (λ ex, n ≤ length ex.1.2) batch → n ≤ length (columns (len_sorted batch)).
Proof.
  intros (ex & Hex & Hn)%Exists_exists. rewrite columns_length.
  etrans; [exact Hn|]. apply head_longest; [apply len_sorted_decreasing|].
  rewrite len_sorted_perm. apply list_elem_of_fmap. exists ex.1. split; [done|].
  apply list_elem_of_fmap. by exists ex.
Qed.

Lemma first_column_length seqs :
  seqs ≠ [] → Forall (λ s, 0 < length s) seqs →
  ∃ col cols, columns seqs = col :: cols ∧ length col = length seqs.
Proof.
  intros Hne Hpos. destruct seqs as [|s seqs]; [done|].
  pose proof Hpos as [Hs _]%Forall_cons.
  change (columns (s :: seqs)) with (time_step (s :: seqs) <$> seq 0 (length s)).
  destruct (length s) as [|n] eqn:Hlen; [lia|].
  rewrite <-cons_seq, fmap_cons. eexists _, _. split; [done|].
  rewrite time_step_length, active_count_all, length_fmap; [done|].
  by apply Forall_fmap.
Qed.

Lemma second_column_length seqs :
  2 ≤ length (columns seqs) →
  ∃ col col' cols, columns seqs = col :: col' :: cols ∧ 0 < length col'.
Proof.
  rewrite columns_length. intros HT.
  destruct seqs as [|s seqs]; [simpl in HT; lia|].
  change (columns (s :: seqs)) with (time_step (s :: seqs) <$> seq 0 (length s)).
  change (2 ≤ length s) in HT.
  destruct (length s) as [|[|n]] eqn:Hlen; [lia..|].
  rewrite <-!cons_seq, !fmap_cons. eexists _, _, _. split; [done|].
  rewrite time_step_length, fmap_cons. unfold active_count.
  rewrite filter_cons, decide_True by lia. simpl. lia.
Qed.

Section Train.
Context (M : model_api) (E : externals).

Lemma _train_cases batch b w o :
  pack_collate_fn batch = Ok b →
  valid_batch (V M) (_null (self_ w)) batch →
  optimizer (self_ w) = Some o →
  let steps := timesteps M (model_params w) b in
  length steps = length (batch_sizes (c_packed b)) - 1
  ∧ forward_log (_train M E b w).2 = forward_log w ++ (logged <$> steps)
  ∧ (steps = [] → ∃ e, (_train M E b w).1 = Raise e)
  ∧ (steps ≠ [] →
     _train M E b w
     = (Ok (((word_loss (_null (self_ w)) steps
              + attention_term M (self_ w) steps (c_seq_lens b)) / INR (length batch))%R,
            Z.of_nat (correct_count steps)
            # Pos.of_nat (sum_list (drop 1 (batch_sizes (c_packed b))))),
        trained M E b o w steps)).
Proof.
  intros Hb Hvalid Hopt.
  destruct (pack_collate_fn_inv _ _ Hb) as [Hne Hpos].
  pose proof (pack_collate_fn_Ok _ Hne Hpos) as Hb'.
  rewrite Hb in Hb'. injection Hb' as ->. clear Hb.
  set (seqs := len_sorted batch) in *. set (cols := columns seqs) in *.
  set (b := Collated _ _ _ _).
  pose proof (len_sorted_Forall (λ s, 0 < length s) _ Hpos) as Hpos'.
  fold seqs in Hpos'.
  destruct (first_column_length seqs (len_sorted_nonempty _ Hne) Hpos')
    as (col & cols' & Hcols & Hcol).
  fold cols in Hcols. unfold seqs in Hcol. rewrite len_sorted_length in Hcol.
  set (θ := model_params w). set (null := _null (self_ w)) in *.
  set (F := batch_norm M θ (c_features b)).
  set (P := project_features M θ F).
  set (hc := get_initial_lstm M θ F).
  intros steps.
  assert (steps = spec_timesteps M θ F P (tagged cols) hc.1 hc.2) as Hsteps.
  { unfold steps, timesteps. fold θ F P hc. unfold b at 1. cbn [c_packed].
    by rewrite tagged_packed_steps. }
  pose proof (columns_sorted seqs) as Hsorted. fold cols in Hsorted.
  pose proof (columns_valid _ _ _ (len_sorted_valid _ _ _ Hvalid)) as Hcv.
  fold seqs cols in Hcv.
  destruct (spec_timesteps_shape M θ F P cols hc.1 hc.2) as (Htok & Htg & Hshape).
  rewrite <-Hsteps in Htok, Htg, Hshape.
  destruct (train_loop_steps M θ F P null cols [] [] (LoopState 0 hc.1 hc.2
              (PyNumber 0%R) (PyNumber 0) []) w eq_refl eq_refl Hsorted Hcv)
    as (st' & Hloop & Hloss & Hacc & Halphas).
  cbn [app length hidden_states cell_states loss acc alphas] in Hloop, Hloss, Hacc, Halphas.
  rewrite <-Hsteps in Hloop, Hloss, Hacc, Halphas.
  assert (length steps = length cols - 1) as Hlen.
  { rewrite Hsteps. apply spec_timesteps_length. }
  assert (Hrun : _train M E b w =
    (loss ← (if Rlt_dec 0 (alpha_c (cfg (self_ w))) then
               padded ← lift (pad_sequence (L M) (alphas st'));
               alphas_reg ← lift (mse_sum (sum_dim1 (L M) padded)
                                    (alpha_target M (c_seq_lens b)));
               mret (Tensor (value (loss st') + alpha_c (cfg (self_ w)) * alphas_reg)%R)
             else mret (loss st'));
     b0 ← lift (index (length <$> cols) 0);
     match loss with
     | PyNumber _ => raise RuntimeError
     | Tensor l =>
       _ ← modify (λ w,
             let r := optim_update E o.1 M (_null (self_ w)) (alpha_c (cfg (self_ w)))
                        (model_params w) o.2 b in
             set_self (set_optimizer (Some (o.1, r.2)) (self_ w)) (set_model_params r.1 w));
       match acc st' with
       | PyNumber _ => raise AttributeError
       | Tensor n =>
         let total := sum_list (drop 1 (length <$> cols)) in
         if bool_decide (total = 0) then raise ZeroDivisionError
         else mret ((l / INR b0)%R, Z.of_nat n # Pos.of_nat total)
       end
     end) (with_steps w steps)).
  { unfold _train. rewrite (bind_get_optimizer _ o) by done. rewrite bind_get.
    cbv zeta. fold θ null F P hc. cbn [b c_packed data batch_sizes].
    rewrite length_fmap. by rewrite (bind_Ok _ _ _ _ _ Hloop). }
  cbn [b c_packed batch_sizes c_seq_lens]. rewrite length_fmap.
  split; [done|].
  assert (index (length <$> cols) 0 = Ok (length batch)) as Hb0.
  { rewrite Hcols. simpl. by rewrite Hcol. }
  destruct (decide (steps = [])) as [Hnil|Hnil].
  - (* no time step: the loss is still the Python number 0 *)
    rewrite Hnil in *. simpl in Hloss, Hacc, Halphas.
    assert (∃ e, _train M E b w = (Raise e, with_steps w [])) as [e He].
    { rewrite Hrun, Halphas, Hloss, Hb0. unfold attention_term.
      destruct (Rlt_dec 0 (alpha_c (cfg (self_ w)))); by eexists. }
    split; [by rewrite He|]. split; [|done]. intros _. exists e. by rewrite He.
  - assert (_train M E b w
      = (Ok (((word_loss null steps
               + attention_term M (self_ w) steps (length <$> seqs)) / INR (length batch))%R,
             Z.of_nat (correct_count steps)
             # Pos.of_nat (sum_list (drop 1 (length <$> cols)))),
         trained M E b o w steps)) as Hret.
    { rewrite Hrun.
      assert (loss st' = Tensor (word_loss null steps)) as Hl.
      { rewrite Hloss, accumulate_is_tensor by (by intros ?%fmap_nil_inv).
        rewrite accumulate_value_R. simpl. f_equal. unfold word_loss. lra. }
      assert (acc st' = Tensor (correct_count steps)) as Ha.
      { rewrite Hacc, accumulate_is_tensor by (by intros ?%fmap_nil_inv).
        by rewrite accumulate_value_nat. }
      assert (sum_list (drop 1 (length <$> cols)) ≠ 0) as Htotal.
      { destruct (second_column_length seqs) as (c0 & c1 & cs & Hc & Hc1).
        - fold cols. destruct steps; [done|]. simpl in Hlen. lia.
        - fold cols in Hc. rewrite Hc. simpl. lia. }
      rewrite Halphas, Hl, Ha, Hb0. unfold attention_term.
      destruct (Rlt_dec 0 (alpha_c (cfg (self_ w)))) as [Hα|Hα].
      + rewrite pad_sequence_Ok by (by intros ?%fmap_nil_inv).
        assert (max_list (length <$> (ts_alpha <$> steps)) = length (c_seq_lens b))
          as ->.
        { cbn [b c_seq_lens]. rewrite length_fmap.
          unfold seqs. rewrite len_sorted_length, <-Hcol.
          assert (length <$> (ts_alpha <$> steps) = length <$> (ts_tokens <$> steps))
            as ->.
          { rewrite <-!list_fmap_compose. apply Forall_fmap_ext_1.
            eapply Forall_impl; [exact Hshape|]. by intros s (_ & _ & _ & ? & _). }
          rewrite Htok, Hcols.
          destruct steps as [|s0 steps']; [done|]. rewrite Hcols in Hlen.
          replace (length (col :: cols') - 1) with (S (length cols' - 1))
            by (simpl in *; lia).
          rewrite firstn_cons, fmap_cons. apply max_list_decreasing.
          rewrite <-fmap_cons, <-firstn_cons.
          eapply StronglySorted_fmap; [|eapply StronglySorted_app_1_l].
          2:{ rewrite take_drop. rewrite <-Hcols. exact Hsorted. }
          done. }
        cbn [b c_seq_lens].
        assert (Forall (λ s, Forall (λ row, length row = L M) (ts_alpha s)) steps)
          as Hwidth.
        { eapply Forall_impl; [exact Hshape|]. by intros s (_ & _ & _ & _ & ?). }
        erewrite (bind_Ok _ _ (Tensor _)).
        2:{ erewrite (bind_lift_Ok _ _ _ _ eq_refl).
            erewrite (bind_lift_Ok _ _ _ _ (mse_padded_Ok M steps (length <$> seqs) Hwidth)).
            reflexivity. }
        erewrite (bind_lift_Ok _ _ _ _ eq_refl).
        rewrite bind_modify. by rewrite bool_decide_false.
      + rewrite bind_ret. erewrite (bind_lift_Ok _ _ _ _ eq_refl).
        rewrite bind_modify. rewrite bool_decide_false by done.
        unfold mret, py_ret, trained. repeat f_equal. lra. }
    split; [by rewrite Hret|]. split; [done|]. by intros _.
Qed.
End Train.


(** ** Cross-entropy is not negative *)

Lemma sum_R_nonneg l : Forall (λ x, 0 <= x)%R l → (0 <= sum_R l)%R.
Proof. induction 1 as [|x l Hx Hl IH]; simpl; lra. Qed.

Lemma sum_R_elem_le l x : Forall (λ y, 0 <= y)%R l → x ∈ l → (x <= sum_R l)%R.
Proof.
  induction 1 as [|y l Hy Hl IH]; [by intros ?%elem_of_nil|].
  pose proof (sum_R_nonneg l Hl).
  intros [->|Hx]%elem_of_cons; simpl; [lra|]. specialize (IH Hx). lra.
Qed.

Lemma log_sum_exp_ge (row : list R) x : x ∈ row → (x <= ln (sum_R (exp <$> row)))%R.
Proof.
  intros Hx. rewrite <-(ln_exp x) at 1.
  assert (exp x <= sum_R (exp <$> row))%R as [Hlt|Heq].
  { apply sum_R_elem_le; [|by apply list_elem_of_fmap_2].
    apply Forall_fmap, Forall_forall. intros y _. simpl. left. apply exp_pos. }
  - left. apply ln_increasing; [apply exp_pos|done].
  - rewrite <-Heq. lra.
Qed.

Lemma ce_example_nonneg vocab null row t :
  length row = vocab → valid_token vocab null t → (0 <= ce_example null row t)%R.
Proof.
  intros Hrow Ht. unfold ce_example. case_bool_decide; [lra|].
  destruct Ht as [?|[? ?]]; [done|].
  destruct (lookup_lt_is_Some_2 row (Z.to_nat t)) as [x Hx]; [lia|].
  rewrite Hx. simpl. apply list_elem_of_lookup_2 in Hx.
  pose proof (log_sum_exp_ge row x Hx). lra.
Qed.

Lemma ce_timestep_nonneg vocab null (s : timestep) :
  Forall (λ row, length row = vocab) (ts_logits s) →
  Forall (valid_token vocab null) (ts_targets s) →
  (0 <= ce_timestep null s)%R.
Proof.
  intros Hl Ht. unfold ce_timestep. apply sum_R_nonneg.
  rewrite zip_with_fmap_zip. apply Forall_fmap, Forall_forall.
  intros [row t] Hp. simpl.
  apply elem_of_zip_l in Hp as Hrow. apply elem_of_zip_r in Hp as Htg.
  apply elem_of_take in Hrow as (i & Hrow & _). apply list_elem_of_lookup_2 in Hrow.
  eapply ce_example_nonneg; [by eapply Forall_forall in Hl|by eapply Forall_forall in Ht].
Qed.

Lemma word_loss_nonneg vocab null steps :
  Forall (λ s, Forall (λ row, length row = vocab) (ts_logits s)
               ∧ Forall (valid_token vocab null) (ts_targets s)) steps →
  (0 <= word_loss null steps)%R.
Proof.
  intros Hs. unfold word_loss. apply sum_R_nonneg, Forall_fmap.
  eapply Forall_impl; [exact Hs|]. intros s [? ?]. by eapply ce_timestep_nonneg.
Qed.


(** ** Facts about the time steps of a collated batch *)

Lemma pack_collate_fn_eq batch b :
  pack_collate_fn batch = Ok b →
  b = Collated ((λ i, batch.*1.*1 !!! i) <$> len_sorted_idx batch)
        (PackedSequence (mjoin (columns (len_sorted batch)))
                        (length <$> columns (len_sorted batch)))
        ((λ i, batch.*2 !!! i) <$> len_sorted_idx batch)
        (length <$> len_sorted batch).
Proof.
  intros Hb. destruct (pack_collate_fn_inv _ _ Hb) as [Hne Hpos].
  rewrite (pack_collate_fn_Ok _ Hne Hpos) in Hb. by injection Hb.
Qed.

Lemma first_batch_size batch b :
  pack_collate_fn batch = Ok b → head (batch_sizes (c_packed b)) = Some (length batch).
Proof.
  intros Hb. destruct (pack_collate_fn_inv _ _ Hb) as [Hne Hpos].
  rewrite (pack_collate_fn_eq _ _ Hb). cbn [c_packed batch_sizes].
  destruct (first_column_length (len_sorted batch)) as (col & cols & Hc & Hl).
  - by apply len_sorted_nonempty.
  - by apply (len_sorted_Forall (λ s, 0 < length s)).
  - rewrite Hc, fmap_cons. simpl. by rewrite Hl, len_sorted_length.
Qed.

Lemma predicted_tokens_positive batch b :
  pack_collate_fn batch = Ok b → Exists (λ ex, 2 ≤ length ex.1.2) batch →
  2 ≤ length (batch_sizes (c_packed b))
  ∧ 0 < sum_list (drop 1 (batch_sizes (c_packed b))).
Proof.
  intros Hb Hlong. rewrite (pack_collate_fn_eq _ _ Hb). cbn [c_packed batch_sizes].
  pose proof (longest_columns _ _ Hlong) as HT.
  split; [by rewrite length_fmap|].
  destruct (second_column_length _ HT) as (c0 & c1 & cs & -> & Hc1). simpl. lia.
Qed.

Section Facts.
Context (M : model_api).

Lemma timesteps_facts batch b θ null :
  pack_collate_fn batch = Ok b →
  valid_batch (V M) null batch →
  let steps := timesteps M θ b in
  length steps = length (batch_sizes (c_packed b)) - 1
  ∧ length <$> (ts_targets <$> steps) = drop 1 (batch_sizes (c_packed b))
  ∧ ts_active_next <$> steps = drop 1 (batch_sizes (c_packed b))
  ∧ Forall (λ s, Forall (λ row, length row = V M) (ts_logits s)
                 ∧ Forall (valid_token (V M) null) (ts_targets s)) steps.
Proof.
  intros Hb Hvalid steps. unfold steps, timesteps.
  rewrite (pack_collate_fn_eq _ _ Hb). cbn [c_packed c_features batch_sizes].
  rewrite tagged_packed_steps.
  set (F := batch_norm M θ _). set (cols := columns (len_sorted batch)).
  destruct (spec_timesteps_shape M θ F (project_features M θ F) cols
              (get_initial_lstm M θ F).1 (get_initial_lstm M θ F).2)
    as (Htok & Htg & Hshape).
  pose proof (columns_valid _ _ _ (len_sorted_valid _ _ _ Hvalid)) as Hcv.
  fold cols in Hcv.
  split; [by rewrite spec_timesteps_length, length_fmap|].
  split; [by rewrite Htg, fmap_drop|].
  split.
  - rewrite <-fmap_drop, <-Htg, <-list_fmap_compose. apply Forall_fmap_ext_1.
    eapply Forall_impl; [exact Hshape|]. by intros s (? & _).
  - apply Forall_forall. intros s Hs. split.
    + rewrite Forall_forall in Hshape. by destruct (Hshape s Hs) as (_ & _ & ? & _).
    + assert (ts_targets s ∈ drop 1 cols) as Hin.
      { rewrite <-Htg. by apply list_elem_of_fmap_2. }
      apply (subseteq_drop 1 cols) in Hin.
      rewrite Forall_forall in Hcv. by apply Hcv.
Qed.

Lemma correct_count_bound batch b θ null :
  pack_collate_fn batch = Ok b →
  valid_batch (V M) null batch →
  correct_count (timesteps M θ b) ≤ sum_list (drop 1 (batch_sizes (c_packed b))).
Proof.
  intros Hb Hvalid.
  destruct (timesteps_facts batch b θ null Hb Hvalid) as (_ & <- & _).
  apply correct_count_le.
Qed.
End Facts.

Lemma accuracy_in_unit_interval (c total : nat) :
  c ≤ total → 0 < total →
  (0 <= Z.of_nat c # Pos.of_nat total)%Q ∧ (Z.of_nat c # Pos.of_nat total <= 1)%Q.
Proof.
  intros Hc Ht. unfold Qle. simpl.
  assert (Z.pos (Pos.of_nat total) = Z.of_nat total) as ->.
  { rewrite <-positive_nat_Z, Nat2Pos.id by lia. done. }
  lia.
Qed.

(** Equal lengths: every time step has the whole batch. *)
Lemma equal_length_batch_sizes batch b len :
  pack_collate_fn batch = Ok b →
  Forall (λ ex, length ex.1.2 = len) batch →
  batch_sizes (c_packed b) = replicate len (length batch).
Proof.
  intros Hb Heq. destruct (pack_collate_fn_inv _ _ Hb) as [Hne Hpos].
  rewrite (pack_collate_fn_eq _ _ Hb). cbn [c_packed batch_sizes].
  pose proof (len_sorted_Forall (λ s, length s = len) _ Heq) as Hall.
  pose proof (len_sorted_nonempty _ Hne) as Hne'.
  rewrite <-(len_sorted_length batch).
  destruct (len_sorted batch) as [|s seqs]; [done|].
  change (columns (s :: seqs)) with (time_step (s :: seqs) <$> seq 0 (length s)).
  pose proof Hall as [Hs _]%Forall_cons. rewrite Hs.
  rewrite replicate_fmap_seq, <-list_fmap_compose.
  apply list_fmap_ext. intros i t Ht. apply lookup_seq in Ht as [-> Ht].
  change (length (time_step (s :: seqs) (0 + i)) = length (s :: seqs)).
  rewrite time_step_length, active_count_all, length_fmap; [done|].
  apply Forall_fmap. eapply Forall_impl; [exact Hall|]. simpl. lia.
Qed.


(** ** The definitions on concrete inputs *)

Example sorted_ties_keep_order :
  sorted (seq 0 4) (λ i, [3; 4; 3; 4] !!! i) true = [1; 3; 0; 2].
Proof. reflexivity. Qed.

Example pack_sequence_4_3 :
  pack_sequence [[1; 3; 4; 2]; [1; 3; 2]]%Z
  = Ok (PackedSequence [1; 1; 3; 3; 4; 2; 2]%Z [2; 2; 2; 1]).
Proof. reflexivity. Qed.

Example pack_sequence_unsorted :
  pack_sequence [[1; 3; 2]; [1; 3; 4; 2]]%Z = Raise RuntimeError.
Proof. reflexivity. Qed.

Example checkpoint_path_100 : checkpoint_path "./model/" 100 = "./model/100.pth"%string.
Proof. reflexivity. Qed.

Example os_path_join_adds_sep : os_path_join "model" "7.pth" = "model/7.pth"%string.
Proof. reflexivity. Qed.

Example chunks_3_by_2 : chunks 2 [1; 2; 3] = [[1; 2]; [3]].
Proof. reflexivity. Qed.

Example py_mod_150 : py_mod 150 100 = Ok 50%Z ∧ py_mod 200 100 = Ok 0%Z.
Proof. split; reflexivity. Qed.

Lemma demo_batch_collated : pack_collate_fn demo_batch = Ok demo_collated.
Proof. reflexivity. Qed.

Lemma demo_batch_valid : valid_batch 5 0 demo_batch.
Proof. repeat constructor; unfold valid_token; lia. Qed.


(** ** Paths *)

Lemma string_length_app s t :
  String.length (s +:+ t) = String.length s + String.length t.
Proof. induction s as [|c s IH]; simpl; [done|by rewrite IH]. Qed.

Lemma string_app_inj_r t : ∀ s1 s2, s1 +:+ t = s2 +:+ t → s1 = s2.
Proof.
  induction s1 as [|c1 s1 IH]; intros [|c2 s2] Heq.
  - done.
  - apply (f_equal String.length) in Heq.
    rewrite !string_length_app in Heq. simpl in Heq. lia.
  - apply (f_equal String.length) in Heq.
    rewrite !string_length_app in Heq. simpl in Heq. lia.
  - simpl in Heq. injection Heq as -> Heq. f_equal. by apply IH.
Qed.

(** A decimal numeral does not start with the path separator. *)
Lemma pretty_N_go_no_sep x : ∀ s s', s ≠ String "/" s' → pretty_N_go x s ≠ String "/" s'.
Proof.
  induction (N.lt_wf_0 x) as [x _ IH]. intros s s' Hs.
  destruct (decide (x = 0)%N) as [->|Hx]; [by rewrite pretty_N_go_0|].
  rewrite pretty_N_go_step by lia.
  apply IH; [apply N.div_lt; lia|].
  unfold pretty_N_char. intros Heq. injection Heq as Hc _.
  repeat case_match; discriminate Hc.
Qed.

Lemma str_no_sep i : startswith_sep (str i +:+ ".pth") = false.
Proof.
  unfold str. destruct (pretty i) as [|c s] eqn:Hp; [done|].
  simpl. apply bool_decide_eq_false. intros ->.
  unfold pretty, pretty_Z in Hp. destruct i as [|p|p].
  - discriminate Hp.
  - unfold pretty, pretty_positive, pretty, pretty_N in Hp.
    rewrite decide_False in Hp by done.
    by eapply (pretty_N_go_no_sep (N.pos p) "").
  - discriminate Hp.
Qed.

Lemma checkpoint_path_inj dir i j :
  checkpoint_path dir i = checkpoint_path dir j → i = j.
Proof.
  unfold checkpoint_path, os_path_join. rewrite !str_no_sep.
  intros Heq. apply (inj pretty). apply (string_app_inj_r ".pth").
  destruct (bool_decide (dir = EmptyString) || endswith_sep dir).
  - by apply (inj (String.app dir)) in Heq.
  - apply (inj (String.app dir)) in Heq. simpl in Heq. by injection Heq.
Qed.

(** ** Checkpoints and the constructor *)

Lemma _save_Ok epoch iteration l w o :
  optimizer (self_ w) = Some o →
  _save epoch iteration l w
  = (Ok tt, set_fs (<[checkpoint_path (checkpoint_dir (cfg (self_ w))) iteration :=
                       Pickled (CheckpointFile epoch iteration (model_params w) o.2 l)]>
                      (fs w)) w).
Proof.
  intros Ho. unfold _save. rewrite bind_get.
  by rewrite (bind_get_optimizer _ o).
Qed.

Lemma _load_Ok path w c o :
  fs w !! path = Some (Pickled c) →
  optimizer (self_ w) = Some o →
  ∃ w', _load path w = (Ok tt, w')
        ∧ model_params w' = ck_model_state_dict c
        ∧ optimizer (self_ w') = Some (o.1, ck_optimizer_state_dict c)
        ∧ start_iter (self_ w') = Some (ck_iteration c + 1)%Z
        ∧ fs w' = fs w ∧ cfg (self_ w') = cfg (self_ w).
Proof.
  intros Hf Ho. unfold _load.
  erewrite (bind_Ok _ _ c); [|unfold torch_load; by rewrite Hf].
  rewrite bind_modify. erewrite (bind_get_optimizer _ o) by done.
  rewrite bind_modify. by eexists.
Qed.

Lemma _load_fails path w :
  fs w !! path = None ∨ (∃ e, fs w !! path = Some (Corrupt e)) →
  _load path w = (Raise (load_error (fs w !! path)), w).
Proof.
  intros Hf. unfold _load.
  erewrite bind_Raise; [done|]. unfold torch_load. by destruct Hf as [->|[e ->]].
Qed.

(** ** Evaluation *)

Section Evaluation.
Context (E : externals).

Lemma run_batches_pairs loader : ∀ st w,
  Forall (λ b, ∃ fs ids, b = Ok (PairBatch fs ids)) loader →
  ∃ st', run_batches E loader st w = (Ok st', w).
Proof.
  induction loader as [|b loader IH]; intros st w Hall; [by eexists|].
  apply Forall_cons in Hall as [(fs & ids & ->) Hall].
  cbn [run_batches]. erewrite (bind_lift_Ok _ _ _ _ eq_refl).
  erewrite (bind_Ok _ _ _ w w); [|reflexivity]. by apply IH.
Qed.

Lemma val_loader_pairs s :
  Forall (λ b, ∃ fs ids, b = Ok (PairBatch fs ids)) (val_loader s).
Proof.
  unfold val_loader. apply Forall_fmap, Forall_forall. intros items _.
  by eexists _, _.
Qed.

(** On the validation branch [test] does not look at its argument: it
    runs the internal validation loader and returns its scores. *)
Lemma test_validation arg w :
  ∃ s, test E arg true w = (Ok (Some s), w)
       ∧ ∀ arg', test E arg' true w = (Ok (Some s), w).
Proof.
  destruct (run_batches_pairs (val_loader (self_ w))
              (testing_start_epoch_handler (EngineState [] None)) w
              (val_loader_pairs (self_ w))) as [st' Hrun].
  exists (evaluate E (es_captions st')).
  assert (∀ a, test E a true w = (Ok (Some (evaluate E (es_captions st'))), w)) as H.
  { intros a. unfold test. rewrite bind_get. unfold test_engine_run.
    erewrite (bind_Ok _ _ (testing_end_epoch_handler E st' true) w w).
    - done.
    - by erewrite (bind_Ok _ _ _ _ _ Hrun). }
  split; [apply H|apply H].
Qed.

(** With [is_validation=False] every non-empty dataset makes the test
    engine raise: the loader collates with [pack_collate_fn], whose
    4-tuple [_test] cannot unpack. *)
Lemma test_dataset_raises d w :
  (match d with PairData items => items ≠ [] | TripleData items => items ≠ [] end) →
  ∃ e w', test E (ArgDataset d) false w = (Raise e, w').
Proof.
  intros Hne. unfold test. rewrite bind_modify, bind_get.
  set (w1 := set_self _ w).
  assert (∃ e b loader, pack_collate d (batch_size (cfg (self_ w1))) = b :: loader
                        ∧ (b = Raise e ∨ ∃ c, b = Ok (PackedBatch c))) as
    (e & b & loader & -> & Hb).
  { unfold pack_collate. destruct d as [items|items].
    - destruct items as [|x items]; [done|]. unfold chunks. simpl.
      exists ValueError. eexists _, _. split; [done|by left].
    - destruct items as [|x items]; [done|]. unfold chunks. simpl.
      destruct (pack_collate_fn (take (batch_size (cfg (self_ w))) (x :: items)))
        as [c|e] eqn:Hc.
      + exists ValueError. eexists _, _. split; [done|]. right. by eexists.
      + exists e. eexists _, _. split; [done|]. by left. }
  assert (∃ e', test_engine_run E (b :: loader) w1 = (Raise e', w1)) as [e' Hrun].
  { unfold test_engine_run. destruct Hb as [->|[c ->]].
    - exists e. by erewrite bind_Raise.
    - exists ValueError. by erewrite bind_Raise. }
  exists e', w1. by erewrite bind_Raise.
Qed.
End Evaluation.


(** ** The iteration handler *)

Section Handler.
Context (E : externals).

Lemma handler_effect epoch iteration output w o :
  optimizer (self_ w) = Some o →
  eval_every (cfg (self_ w)) ≠ 0%Z →
  snapshot_steps (cfg (self_ w)) ≠ 0%Z →
  training_end_iter_handler E epoch iteration output w
  = (Ok tt, if bool_decide (iteration `mod` snapshot_steps (cfg (self_ w)) = 0)%Z
            then snapshot epoch iteration output w o else w).
Proof.
  intros Ho He Hs. unfold training_end_iter_handler. rewrite bind_get.
  unfold py_mod. rewrite !bool_decide_false by done.
  erewrite (bind_lift_Ok _ _ _ _ eq_refl).
  erewrite (bind_Ok _ _ tt w w).
  2:{ case_bool_decide; [|done].
      destruct (test_validation E (ArgLoader (val_loader (self_ w))) w) as (s & Ht & _).
      by erewrite (bind_Ok _ _ _ _ _ Ht). }
  erewrite (bind_lift_Ok _ _ _ _ eq_refl).
  case_bool_decide; [|done]. by apply _save_Ok.
Qed.

Lemma iterations_completed_files its : ∀ first w o,
  optimizer (self_ w) = Some o →
  eval_every (cfg (self_ w)) ≠ 0%Z →
  snapshot_steps (cfg (self_ w)) ≠ 0%Z →
  let path := checkpoint_path (checkpoint_dir (cfg (self_ w))) in
  let saved k := (first ≤ k < first + Z.of_nat (length its))%Z
                 ∧ (k `mod` snapshot_steps (cfg (self_ w)) = 0)%Z in
  ∃ w', iterations_completed E first its w = (Ok tt, w')
        ∧ ∀ k, (saved k → ∃ c, fs w' !! path k = Some (Pickled c) ∧ ck_iteration c = k)
               ∧ (¬ saved k → fs w' !! path k = fs w !! path k).
Proof.
  induction its as [|i its IH]; intros first w o Ho He Hs path saved.
  { exists w. split; [done|]. intros k. split; [|done].
    intros [Hk _]. simpl in Hk. lia. }
  set (w1 := after_step i w).
  assert (optimizer (self_ w1) = Some (o.1, it_opt_state i)) as Ho1
    by (unfold w1, after_step; simpl; by rewrite Ho).
  set (w2 := if bool_decide (first `mod` snapshot_steps (cfg (self_ w1)) = 0)%Z
             then snapshot (it_epoch i) first (it_output i) w1 (o.1, it_opt_state i)
             else w1).
  assert (cfg (self_ w2) = cfg (self_ w) ∧ optimizer (self_ w2) = optimizer (self_ w1))
    as [Hcfg Ho2] by (unfold w2; by case_bool_decide).
  destruct (IH (first + 1)%Z w2 (o.1, it_opt_state i)) as (w' & Hrun & Hfiles).
  { by rewrite Ho2. }
  { by rewrite Hcfg. }
  { by rewrite Hcfg. }
  exists w'. split.
  { cbn [iterations_completed]. rewrite bind_modify. fold w1.
    erewrite (bind_Ok _ _ tt w1 w2); [exact Hrun|].
    by apply handler_effect. }
  rewrite Hcfg in Hfiles. fold path in Hfiles.
  intros k. destruct (Hfiles k) as [Hin Hout]. unfold saved.
  rewrite length_cons, Nat2Z.inj_succ.
  destruct (decide (k = first)) as [->|Hk].
  - assert (fs w' !! path first = fs w2 !! path first) as -> by (apply Hout; lia).
    unfold w2. change (cfg (self_ w1)) with (cfg (self_ w)).
    case_bool_decide as Hdiv; split.
    + intros _. eexists. unfold snapshot. simpl. by rewrite lookup_insert_eq.
    + intros Hn. exfalso. apply Hn. split; [lia|done].
    + intros [_ ?]. done.
    + done.
  - split.
    + intros [? ?]. apply Hin. split; [lia|done].
    + intros Hn. rewrite Hout by (intros [? ?]; apply Hn; split; [lia|done]).
      unfold w2. case_bool_decide; [|done].
      unfold snapshot. simpl. apply lookup_insert_ne.
      intros Heq. by apply checkpoint_path_inj in Heq.
Qed.
End Handler.


(** * The claims *)

Ltac valid_tokens := repeat constructor; unfold valid_token; simpl; lia.

(** C1, as amended. For every non-empty batch whose token sequences all
    have at least one token, [pack_collate_fn] returns; its features are
    the input features along a permutation [idx] of the indices that puts
    longer sequences first and keeps equal lengths in their original order;
    and the batch sizes of the packed sequence never increase and start
    with the size of the batch. *)
Theorem pack_collate_fn_sorted_counts (batch : list example) :
  batch ≠ [] →
  Forall (λ ex, 1 ≤ length ex.1.2) batch →
  ∃ out idx,
    pack_collate_fn batch = Ok out
    ∧ idx ≡ₚ seq 0 (length batch)
    ∧ StronglySorted (longer_first (λ i, length (batch.*1.*2 !!! i))) idx
    ∧ c_features out = (λ i, batch.*1.*1 !!! i) <$> idx
    ∧ StronglySorted (λ a b, b ≤ a) (batch_sizes (c_packed out))
    ∧ head (batch_sizes (c_packed out)) = Some (length batch).
Proof.
  intros Hne Hpos.
  pose proof (pack_collate_fn_Ok batch Hne Hpos) as Hb.
  eexists _, (len_sorted_idx batch). split; [exact Hb|].
  destruct (sorted_range_reverse (λ i, length (batch.*1.*2 !!! i)) (length batch.*1.*2))
    as [Hperm Hsorted].
  split; [|split; [|split; [|split]]].
  - unfold len_sorted_idx. rewrite Hperm. by rewrite !length_fmap.
  - exact Hsorted.
  - done.
  - cbn [c_packed batch_sizes]. unfold columns.
    rewrite <-list_fmap_compose.
    eapply (StronglySorted_fmap _ lt); [|apply seq_sorted_lt].
    intros t t' Ht. simpl. rewrite !time_step_length. apply active_count_anti. lia.
  - by apply first_batch_size.
Qed.

Lemma pack_collate_fn_sorted_counts_witness :
  ∃ out idx,
    pack_collate_fn demo_batch = Ok out
    ∧ idx ≡ₚ seq 0 (length demo_batch)
    ∧ StronglySorted (longer_first (λ i, length (demo_batch.*1.*2 !!! i))) idx
    ∧ c_features out = (λ i, demo_batch.*1.*1 !!! i) <$> idx
    ∧ StronglySorted (λ a b, b ≤ a) (batch_sizes (c_packed out))
    ∧ head (batch_sizes (c_packed out)) = Some (length demo_batch).
Proof.
  apply pack_collate_fn_sorted_counts; [discriminate|].
  repeat constructor; simpl; lia.
Defined.

(** C1 as stated fails: a non-empty batch with an empty token sequence is
    refused by [pack_sequence], so nothing is returned. *)
Lemma pack_collate_fn_empty_sequence :
  let batch : list example :=
    [([], [1; 3; 2]%Z, "a cat"%string); ([], [], EmptyString)] in
  batch ≠ []
  ∧ pack_collate_fn batch = Raise RuntimeError
  ∧ ¬ ∃ out, pack_collate_fn batch = Ok out
             ∧ head (batch_sizes (c_packed out)) = Some (length batch).
Proof.
  split; [discriminate|]. split; [reflexivity|].
  intros (out & Hout & _). discriminate Hout.
Qed.

Section TrainClaims.
Context (M : model_api) (E : externals).

(** C3, as amended. On a batch of [pack_collate_fn], [_train] calls the
    model exactly [len(batch_sizes) - 1] times; when all sequences have
    one length [len], every batch size is the size of the batch and there
    are [len - 1] calls; and for two sequences of lengths 4 and 3 the
    batch sizes are [2,2,2,1], there are 3 calls, and the last one is
    scored against a single target. *)
Theorem train_timestep_count (batch : list example) (b : collated) (w : world)
    (o : optimizer_kind * state_dict) :
  pack_collate_fn batch = Ok b →
  valid_batch (V M) (_null (self_ w)) batch →
  optimizer (self_ w) = Some o →
  ∃ calls,
    forward_log (_train M E b w).2 = forward_log w ++ calls
    ∧ length calls = length (batch_sizes (c_packed b)) - 1
    ∧ (∀ len, Forall (λ ex, length ex.1.2 = len) batch →
         batch_sizes (c_packed b) = replicate len (length batch)
         ∧ length calls = len - 1)
    ∧ (∀ f1 f2 c1 c2,
         batch = [(f1, [1; 3; 4; 2]%Z, c1); (f2, [1; 3; 2]%Z, c2)] →
         batch_sizes (c_packed b) = [2; 2; 2; 1]
         ∧ calls = [([1; 1], [3; 3]); ([3; 3], [4; 2]); ([4; 2], [2])]%Z).
Proof.
  intros Hb Hvalid Hopt.
  destruct (_train_cases M E batch b w o Hb Hvalid Hopt) as (Hlen & Hlog & _).
  exists (logged <$> timesteps M (model_params w) b).
  split; [done|]. split; [by rewrite length_fmap|]. split.
  - intros len Heq. pose proof (equal_length_batch_sizes _ _ _ Hb Heq) as Hbs.
    split; [done|]. by rewrite length_fmap, Hlen, Hbs, length_replicate.
  - intros f1 f2 c1 c2 ->. vm_compute in Hb. injection Hb as <-.
    split; reflexivity.
Qed.

(** C4. For a non-empty batch whose sequences all have at least two
    tokens, [_train] returns, its accuracy is the number of correct
    predictions over the time steps divided by the sum of
    [batch_sizes[1:]], and it lies between 0 and 1. *)
Theorem train_accuracy (batch : list example) (w : world)
    (o : optimizer_kind * state_dict) :
  batch ≠ [] →
  Forall (λ ex, 2 ≤ length ex.1.2) batch →
  valid_batch (V M) (_null (self_ w)) batch →
  optimizer (self_ w) = Some o →
  ∃ b loss accuracy w',
    pack_collate_fn batch = Ok b
    ∧ _train M E b w = (Ok (loss, accuracy), w')
    ∧ accuracy = (Z.of_nat (correct_count (timesteps M (model_params w) b))
                  # Pos.of_nat (sum_list (drop 1 (batch_sizes (c_packed b)))))
    ∧ 0 < sum_list (drop 1 (batch_sizes (c_packed b)))
    ∧ (0 <= accuracy)%Q ∧ (accuracy <= 1)%Q.
Proof.
  intros Hne Hlen Hvalid Hopt.
  assert (Forall (λ ex : example, 0 < length ex.1.2) batch) as Hpos.
  { eapply Forall_impl; [exact Hlen|]. simpl. lia. }
  pose proof (pack_collate_fn_Ok batch Hne Hpos) as Hb.
  assert (Exists (λ ex : example, 2 ≤ length ex.1.2) batch) as Hlong.
  { destruct batch as [|ex batch]; [done|]. apply Forall_cons in Hlen as [? _].
    by left. }
  destruct (predicted_tokens_positive _ _ Hb Hlong) as [HT Htotal].
  destruct (_train_cases M E batch _ w o Hb Hvalid Hopt) as (Hsteps & _ & _ & Hret).
  eexists _, _, _, _. split; [exact Hb|]. split.
  { apply Hret. intros Hnil. rewrite Hnil in Hsteps.
    change (length []) with 0 in Hsteps. lia. }
  split; [done|]. split; [done|].
  apply accuracy_in_unit_interval; [|done].
  by eapply correct_count_bound.
Qed.

(** C5, as amended. With the coefficient [alpha_c] equal to 0, for a
    batch of [pack_collate_fn] whose longest sequence has at least two
    tokens, [_train] returns the cross-entropy summed over the time steps
    and divided by the first batch size, which is the size of the batch;
    this loss is not negative. *)
Theorem train_loss_without_alpha (batch : list example) (b : collated) (w : world)
    (o : optimizer_kind * state_dict) :
  alpha_c (cfg (self_ w)) = 0%R →
  pack_collate_fn batch = Ok b →
  Exists (λ ex, 2 ≤ length ex.1.2) batch →
  valid_batch (V M) (_null (self_ w)) batch →
  optimizer (self_ w) = Some o →
  ∃ loss accuracy w',
    _train M E b w = (Ok (loss, accuracy), w')
    ∧ head (batch_sizes (c_packed b)) = Some (length batch)
    ∧ loss = (word_loss (_null (self_ w)) (timesteps M (model_params w) b)
              / INR (length batch))%R
    ∧ (0 <= loss)%R.
Proof.
  intros Hα Hb Hlong Hvalid Hopt.
  destruct (predicted_tokens_positive _ _ Hb Hlong) as [HT _].
  destruct (_train_cases M E batch b w o Hb Hvalid Hopt) as (Hsteps & _ & _ & Hret).
  destruct (timesteps_facts M batch b (model_params w) _ Hb Hvalid) as (_ & _ & _ & Hcols).
  assert (∀ steps lens, attention_term M (self_ w) steps lens = 0%R) as Hterm.
  { intros steps lens. unfold attention_term. rewrite Hα.
    destruct (Rlt_dec 0 0); [lra|done]. }
  eexists _, _, _. split.
  { rewrite Hret;
      [|intros Hnil; rewrite Hnil in Hsteps; change (length []) with 0 in Hsteps; lia].
    rewrite Hterm, Rplus_0_r. reflexivity. }
  split; [by apply first_batch_size|]. split; [done|].
  apply Rmult_le_pos; [by eapply word_loss_nonneg|].
  left. apply Rinv_0_lt_compat, lt_0_INR.
  destruct (pack_collate_fn_inv _ _ Hb) as [Hne _]. destruct batch; [done|simpl; lia].
Qed.

(** C6. With a positive coefficient [alpha_c], on a batch of
    [pack_collate_fn] whose longest sequence has at least two tokens, the
    loss that [_train] returns is, before the division by the size of the
    batch, the word loss plus [alpha_c] times the attention penalty: the
    sum over the examples and the locations of the squared difference
    between the attention summed over the time steps (zero once the
    example is no longer active) and the length of the example's sequence
    divided by [L]. *)
Theorem train_loss_attention_term (batch : list example) (b : collated) (w : world)
    (o : optimizer_kind * state_dict) :
  (0 < alpha_c (cfg (self_ w)))%R →
  pack_collate_fn batch = Ok b →
  Exists (λ ex, 2 ≤ length ex.1.2) batch →
  valid_batch (V M) (_null (self_ w)) batch →
  optimizer (self_ w) = Some o →
  ∃ loss accuracy w',
    _train M E b w = (Ok (loss, accuracy), w')
    ∧ c_seq_lens b = length <$> len_sorted batch
    ∧ loss = ((word_loss (_null (self_ w)) (timesteps M (model_params w) b)
               + alpha_c (cfg (self_ w))
                 * attention_penalty M (timesteps M (model_params w) b) (c_seq_lens b))
              / INR (length batch))%R.
Proof.
  intros Hα Hb Hlong Hvalid Hopt.
  destruct (predicted_tokens_positive _ _ Hb Hlong) as [HT _].
  destruct (_train_cases M E batch b w o Hb Hvalid Hopt) as (Hsteps & _ & _ & Hret).
  assert (∀ steps lens, attention_term M (self_ w) steps lens
            = (alpha_c (cfg (self_ w)) * attention_penalty M steps lens)%R) as Hterm.
  { intros steps lens. unfold attention_term.
    by destruct (Rlt_dec 0 (alpha_c (cfg (self_ w)))). }
  eexists _, _, _. split.
  { rewrite Hret;
      [|intros Hnil; rewrite Hnil in Hsteps; change (length []) with 0 in Hsteps; lia].
    rewrite Hterm. reflexivity. }
  split; [|done]. by rewrite (pack_collate_fn_eq _ _ Hb).
Qed.
End TrainClaims.

Lemma train_timestep_count_witness :
  ∃ calls,
    forward_log (_train demo_model demo_externals demo_collated
                   (demo_world default_config)).2
    = forward_log (demo_world default_config) ++ calls
    ∧ length calls = length (batch_sizes (c_packed demo_collated)) - 1
    ∧ (∀ len, Forall (λ ex, length ex.1.2 = len) scenario_batch →
         batch_sizes (c_packed demo_collated) = replicate len (length scenario_batch)
         ∧ length calls = len - 1)
    ∧ (∀ f1 f2 c1 c2,
         scenario_batch = [(f1, [1; 3; 4; 2]%Z, c1); (f2, [1; 3; 2]%Z, c2)] →
         batch_sizes (c_packed demo_collated) = [2; 2; 2; 1]
         ∧ calls = [([1; 1], [3; 3]); ([3; 3], [4; 2]); ([4; 2], [2])]%Z).
Proof.
  apply (train_timestep_count demo_model demo_externals scenario_batch demo_collated
           (demo_world default_config) (Adam, ∅)).
  - reflexivity.
  - valid_tokens.
  - reflexivity.
Defined.

(** C3 as stated fails on its own example: sequences of lengths 4 and 3
    pack into the batch sizes [2,2,2,1], not [2,2,1], and [_train] calls
    the model three times, not twice. *)
Lemma lengths_4_3_batch_sizes :
  ∃ b, pack_collate_fn scenario_batch = Ok b
       ∧ batch_sizes (c_packed b) = [2; 2; 2; 1]
       ∧ batch_sizes (c_packed b) ≠ [2; 2; 1]
       ∧ length (forward_log (_train demo_model demo_externals b
                                (demo_world default_config)).2) = 3.
Proof.
  exists demo_collated. split; [reflexivity|]. split; [reflexivity|].
  split; [discriminate|].
  destruct (_train_cases demo_model demo_externals scenario_batch demo_collated
              (demo_world default_config) (Adam, ∅) eq_refl) as (_ & -> & _).
  - valid_tokens.
  - reflexivity.
  - reflexivity.
Qed.

Lemma train_accuracy_witness :
  ∃ b loss accuracy w',
    pack_collate_fn demo_batch = Ok b
    ∧ _train demo_model demo_externals b (demo_world default_config)
      = (Ok (loss, accuracy), w')
    ∧ accuracy = (Z.of_nat (correct_count (timesteps demo_model ∅ b))
                  # Pos.of_nat (sum_list (drop 1 (batch_sizes (c_packed b)))))
    ∧ 0 < sum_list (drop 1 (batch_sizes (c_packed b)))
    ∧ (0 <= accuracy)%Q ∧ (accuracy <= 1)%Q.
Proof.
  apply (train_accuracy demo_model demo_externals demo_batch
           (demo_world default_config) (Adam, ∅)).
  - discriminate.
  - repeat constructor; simpl; lia.
  - valid_tokens.
  - reflexivity.
Defined.

Lemma train_loss_without_alpha_witness :
  ∃ loss accuracy w',
    _train demo_model demo_externals demo_collated (demo_world no_alpha_config)
    = (Ok (loss, accuracy), w')
    ∧ head (batch_sizes (c_packed demo_collated)) = Some (length demo_batch)
    ∧ loss = (word_loss 0 (timesteps demo_model ∅ demo_collated)
              / INR (length demo_batch))%R
    ∧ (0 <= loss)%R.
Proof.
  apply (train_loss_without_alpha demo_model demo_externals demo_batch demo_collated
           (demo_world no_alpha_config) (Adam, ∅)).
  - reflexivity.
  - reflexivity.
  - left. simpl. lia.
  - valid_tokens.
  - reflexivity.
Defined.

(** C5 as stated fails: on a non-empty batch whose sequences have a single
    token the loop does not run, the loss is still the Python number [0],
    and [_train] raises instead of returning a loss. *)
Lemma train_single_token_raises :
  let batch : list example := [([], [1]%Z, "a"%string)] in
  ∃ b, batch ≠ []
       ∧ alpha_c (cfg (self_ (demo_world no_alpha_config))) = 0%R
       ∧ pack_collate_fn batch = Ok b
       ∧ (_train demo_model demo_externals b (demo_world no_alpha_config)).1
         = Raise RuntimeError.
Proof.
  eexists. split; [discriminate|]. split; [reflexivity|]. split; [reflexivity|].
  unfold _train. rewrite (bind_get_optimizer _ (Adam, ∅)) by reflexivity.
  rewrite bind_get. simpl. destruct (Rlt_dec 0 0) as [?|_]; [lra|]. reflexivity.
Qed.

Lemma train_loss_attention_term_witness :
  ∃ loss accuracy w',
    _train demo_model demo_externals demo_collated (demo_world default_config)
    = (Ok (loss, accuracy), w')
    ∧ c_seq_lens demo_collated = length <$> len_sorted demo_batch
    ∧ loss = ((word_loss 0 (timesteps demo_model ∅ demo_collated)
               + 1 * attention_penalty demo_model (timesteps demo_model ∅ demo_collated)
                       (c_seq_lens demo_collated))
              / INR (length demo_batch))%R.
Proof.
  apply (train_loss_attention_term demo_model demo_externals demo_batch demo_collated
           (demo_world default_config) (Adam, ∅)).
  - simpl. lra.
  - reflexivity.
  - left. simpl. lia.
  - valid_tokens.
  - reflexivity.
Defined.


(** C2. [_save] followed by [_load] of the file it wrote: whatever the
    model and the optimiser hold when the file is loaded, the load puts back
    the model state and the optimiser state of the moment of the save, and
    sets [start_iter] to the saved iteration plus one. *)
Theorem checkpoint_roundtrip (epoch iteration : Z) (l : R) (w : world)
    (o : optimizer_kind * state_dict) :
  optimizer (self_ w) = Some o →
  let path := checkpoint_path (checkpoint_dir (cfg (self_ w))) iteration in
  ∃ w1,
    _save epoch iteration l w = (Ok tt, w1)
    ∧ model_params w1 = model_params w
    ∧ ∀ w2 o2,
        fs w2 !! path = fs w1 !! path →
        optimizer (self_ w2) = Some o2 →
        ∃ w3,
          _load path w2 = (Ok tt, w3)
          ∧ model_params w3 = model_params w
          ∧ snd <$> optimizer (self_ w3) = Some o.2
          ∧ start_iter (self_ w3) = Some (iteration + 1)%Z.
Proof.
  intros Ho path. eexists. split; [by apply _save_Ok|]. split; [done|].
  intros w2 o2 Hfile Ho2. simpl in Hfile. rewrite lookup_insert_eq in Hfile.
  destruct (_load_Ok path w2 _ o2 Hfile Ho2) as (w3 & Hload & Hθ & Hopt & Hstart & _).
  exists w3. split; [done|]. split; [done|]. split; [by rewrite Hopt|done].
Qed.

Lemma checkpoint_roundtrip_witness :
  let w := demo_world default_config in
  let path := checkpoint_path (checkpoint_dir (cfg (self_ w))) 100 in
  ∃ w1,
    _save 5 100 2.3%R w = (Ok tt, w1)
    ∧ model_params w1 = model_params w
    ∧ ∀ w2 o2,
        fs w2 !! path = fs w1 !! path →
        optimizer (self_ w2) = Some o2 →
        ∃ w3,
          _load path w2 = (Ok tt, w3)
          ∧ model_params w3 = model_params w
          ∧ snd <$> optimizer (self_ w3) = Some (∅ : state_dict)
          ∧ start_iter (self_ w3) = Some 101%Z.
Proof.
  apply (checkpoint_roundtrip 5 100 2.3%R (demo_world default_config) (Adam, ∅)).
  reflexivity.
Defined.

(** The optimiser is chosen by an [if]/[elif] without [else]: any other
    name leaves the attribute unset and the constructor goes on. *)
Lemma init_without_optimizer (E : externals) (word_to_idx : gmap string Z)
    (train : list example) (val : list (feature * Z)) (kwargs : config) (w : world)
    (start null end_ : Z) :
  word_to_idx !! "<START>"%string = Some start →
  word_to_idx !! "<NULL>"%string = Some null →
  word_to_idx !! "<END>"%string = Some end_ →
  train ≠ [] →
  batch_size kwargs ≠ 0 →
  update_rule kwargs ≠ "adam"%string →
  update_rule kwargs ≠ "rmsprop"%string →
  makedirs E (checkpoint_dir kwargs) = Ok tt →
  makedirs E (log_path kwargs) = Ok tt →
  summary_writer E (log_path kwargs) = Ok tt →
  checkpoint kwargs = None →
  __init__ E word_to_idx train val kwargs w
  = (Ok tt, set_self (Solver kwargs start null end_ train val None (Some 1%Z) None) w).
Proof.
  intros H1 H2 H3 Htrain Hbs Hadam Hrms Hd1 Hd2 Hsw Hck. unfold __init__, lookup_word.
  rewrite H1, H2, H3, Hck, Hd1, Hd2, Hsw. rewrite !(bind_lift_Ok _ _ _ _ eq_refl).
  rewrite !bool_decide_false by (by destruct train).
  by rewrite bind_modify, bind_ret, !(bind_lift_Ok _ _ _ _ eq_refl), bind_modify.
Qed.

(** C7. The constructor accepts an optimiser name that is neither ["adam"]
    nor ["rmsprop"]. For every training set that is not empty, with a
    complete vocabulary, a positive batch size, directories that are
    there, a summary writer that opens and no checkpoint, it returns a solver without an optimiser and
    with [start_iter = 1]. So it does on the two examples of the scenario
    with the name ["sgd"], and the first training step on that solver, on
    the batch of these two examples, raises. *)
Theorem init_unsupported_optimizer :
  (∀ (E : externals) (word_to_idx : gmap string Z) (train : list example)
     (val : list (feature * Z)) (kwargs : config) (w : world),
     is_Some (word_to_idx !! "<START>"%string) →
     is_Some (word_to_idx !! "<NULL>"%string) →
     is_Some (word_to_idx !! "<END>"%string) →
     train ≠ [] →
     batch_size kwargs ≠ 0 →
     update_rule kwargs ≠ "adam"%string →
     update_rule kwargs ≠ "rmsprop"%string →
     makedirs E (checkpoint_dir kwargs) = Ok tt →
     makedirs E (log_path kwargs) = Ok tt →
     summary_writer E (log_path kwargs) = Ok tt →
     checkpoint kwargs = None →
     let r := __init__ E word_to_idx train val kwargs w in
     r.1 = Ok tt
     ∧ train_dataset (self_ r.2) = train
     ∧ optimizer (self_ r.2) = None
     ∧ start_iter (self_ r.2) = Some 1%Z)
  ∧ let r := __init__ demo_externals demo_vocab scenario_batch [] sgd_config fresh_world in
    r.1 = Ok tt
    ∧ train_dataset (self_ r.2) = scenario_batch
    ∧ optimizer (self_ r.2) = None
    ∧ start_iter (self_ r.2) = Some 1%Z
    ∧ pack_collate_fn (train_dataset (self_ r.2)) = Ok demo_collated
    ∧ (_train demo_model demo_externals demo_collated r.2).1 = Raise AttributeError.
Proof.
  split.
  - intros E word_to_idx train val kwargs w [start H1] [null H2] [end_ H3]
      Htrain Hbs Hadam Hrms Hd1 Hd2 Hsw Hck r. unfold r.
    by rewrite (init_without_optimizer E word_to_idx train val kwargs w start null end_).
  - repeat split; reflexivity.
Qed.

(** C8. When a checkpoint path is given and the file is missing or does
    not unpickle, the constructor raises: the parameters of the model and
    the files are as before, and [start_iter] is still unset. When the
    constructor gets as far as the load (a complete vocabulary, a training
    set that is not empty, a positive batch size, directories that are
    there), the exception is the one [torch.load] raises on that path. *)
Theorem init_checkpoint_load_error (E : externals) (word_to_idx : gmap string Z)
    (train : list example) (val : list (feature * Z))
    (kwargs : config) (path : string) (w : world) :
  checkpoint kwargs = Some path →
  fs w !! path = None ∨ (∃ e, fs w !! path = Some (Corrupt e)) →
  start_iter (self_ w) = None →
  ∃ e w',
    __init__ E word_to_idx train val kwargs w = (Raise e, w')
    ∧ model_params w' = model_params w
    ∧ fs w' = fs w
    ∧ start_iter (self_ w') = None
    ∧ (is_Some (word_to_idx !! "<START>"%string) →
       is_Some (word_to_idx !! "<NULL>"%string) →
       is_Some (word_to_idx !! "<END>"%string) →
       train ≠ [] →
       batch_size kwargs ≠ 0 →
       makedirs E (checkpoint_dir kwargs) = Ok tt →
       makedirs E (log_path kwargs) = Ok tt →
       e = load_error (fs w !! path)).
Proof.
  intros Hck Hfile Hstart. unfold __init__, lookup_word.
  destruct (word_to_idx !! "<START>"%string) as [start|] eqn:H1.
  2:{ exists KeyError, w. repeat split; done. }
  destruct (word_to_idx !! "<NULL>"%string) as [null|] eqn:H2.
  2:{ exists KeyError, w. repeat split; done. }
  destruct (word_to_idx !! "<END>"%string) as [end_|] eqn:H3.
  2:{ exists KeyError, w. repeat split; done. }
  rewrite !(bind_lift_Ok _ _ _ _ eq_refl).
  destruct (bool_decide_reflect (length train = 0)) as [Htrain|Htrain].
  { exists ValueError, w. repeat split; try done.
    intros _ _ _ Hne. by destruct train. }
  destruct (bool_decide_reflect (batch_size kwargs = 0)) as [Hbs|Hbs].
  { exists ValueError, w. repeat split; done. }
  rewrite bind_modify, Hck.
  set (w1 := set_self _ w).
  assert (∃ w2, ∀ k : unit → py unit,
            ((if bool_decide (update_rule kwargs = "adam"%string)
              then modify (λ w, set_self (set_optimizer
                     (Some (Adam, optim_init E Adam (learning_rate kwargs) (model_params w)))
                     (self_ w)) w)
              else if bool_decide (update_rule kwargs = "rmsprop"%string)
              then modify (λ w, set_self (set_optimizer
                     (Some (RMSprop, optim_init E RMSprop (learning_rate kwargs)
                                       (model_params w)))
                     (self_ w)) w)
              else mret tt) ≫= k) w1 = k tt w2
            ∧ model_params w2 = model_params w ∧ fs w2 = fs w
            ∧ start_iter (self_ w2) = None) as (w2 & Hw2).
  { repeat case_bool_decide; eexists; intros k; (split; [reflexivity|done]). }
  destruct (Hw2 (λ _, _ ← lift (makedirs E (checkpoint_dir kwargs));
                      _ ← lift (makedirs E (log_path kwargs));
                      _ ← _load path;
                      lift (summary_writer E (log_path kwargs))))
    as (-> & Hθ & Hfs & Hsi).
  destruct (makedirs E (checkpoint_dir kwargs)) as [[]|e1] eqn:Hd1.
  2:{ exists e1, w2. repeat split; done. }
  rewrite (bind_lift_Ok _ _ _ _ eq_refl).
  destruct (makedirs E (log_path kwargs)) as [[]|e2] eqn:Hd2.
  2:{ exists e2, w2. repeat split; done. }
  rewrite (bind_lift_Ok _ _ _ _ eq_refl).
  erewrite bind_Raise; [|apply _load_fails; by rewrite Hfs].
  eexists _, w2. split; [done|]. rewrite Hfs. repeat split; done.
Qed.

Lemma init_checkpoint_load_error_witness :
  ∃ e w',
    __init__ demo_externals demo_vocab scenario_batch [] resume_config fresh_world
    = (Raise e, w')
    ∧ model_params w' = model_params fresh_world
    ∧ fs w' = fs fresh_world
    ∧ start_iter (self_ w') = None
    ∧ (is_Some (demo_vocab !! "<START>"%string) →
       is_Some (demo_vocab !! "<NULL>"%string) →
       is_Some (demo_vocab !! "<END>"%string) →
       scenario_batch ≠ [] →
       batch_size resume_config ≠ 0 →
       makedirs demo_externals (checkpoint_dir resume_config) = Ok tt →
       makedirs demo_externals (log_path resume_config) = Ok tt →
       e = load_error (fs fresh_world !! "./model/100.pth"%string)).
Proof.
  apply (init_checkpoint_load_error demo_externals demo_vocab scenario_batch []
           resume_config "./model/100.pth"%string fresh_world).
  - reflexivity.
  - left. reflexivity.
  - reflexivity.
Defined.

(** C9. With [snapshot_steps = 100] the iteration handler saves exactly at
    the iterations divisible by 100, into the file named by the iteration;
    different iterations have different files, so a save leaves the
    checkpoints of the other iterations alone; and after the iterations
    1 to 200 the files of iterations 100 and 200 exist while nothing has
    been written for iteration 150. *)
Theorem snapshot_schedule (E : externals) (w : world) (o : optimizer_kind * state_dict) :
  snapshot_steps (cfg (self_ w)) = 100%Z →
  eval_every (cfg (self_ w)) ≠ 0%Z →
  optimizer (self_ w) = Some o →
  let path := checkpoint_path (checkpoint_dir (cfg (self_ w))) in
  (∀ epoch iteration output,
     ∃ w', training_end_iter_handler E epoch iteration output w = (Ok tt, w')
           ∧ ((iteration `mod` 100 = 0)%Z →
              fs w' = <[path iteration :=
                         Pickled (CheckpointFile epoch iteration (model_params w)
                                    o.2 output.1)]> (fs w))
           ∧ ((iteration `mod` 100 ≠ 0)%Z → fs w' = fs w)
           ∧ ∀ other, other ≠ iteration → fs w' !! path other = fs w !! path other)
  ∧ (∀ i j, i ≠ j → path i ≠ path j)
  ∧ (∀ its, length its = 200 →
       ∃ w', iterations_completed E 1 its w = (Ok tt, w')
             ∧ (∃ c, fs w' !! path 100%Z = Some (Pickled c) ∧ ck_iteration c = 100%Z)
             ∧ (∃ c, fs w' !! path 200%Z = Some (Pickled c) ∧ ck_iteration c = 200%Z)
             ∧ fs w' !! path 150%Z = fs w !! path 150%Z).
Proof.
  intros Hsnap Heval Ho path.
  assert (snapshot_steps (cfg (self_ w)) ≠ 0%Z) as Hs by (rewrite Hsnap; lia).
  split; [|split].
  - intros epoch iteration output. eexists. split; [by eapply handler_effect|].
    rewrite Hsnap. case_bool_decide; (split; [|split]); try done.
    + intros other Hother. unfold snapshot. simpl. apply lookup_insert_ne.
      intros Heq. by apply checkpoint_path_inj in Heq.
  - intros i j Hij Heq. by apply checkpoint_path_inj in Heq.
  - intros its Hlen.
    destruct (iterations_completed_files E its 1%Z w o Ho Heval Hs) as (w' & Hrun & Hfiles).
    rewrite Hsnap, Hlen in Hfiles.
    exists w'. split; [done|]. split; [|split].
    + apply (Hfiles 100%Z). split; [lia|done].
    + apply (Hfiles 200%Z). split; [lia|done].
    + apply (Hfiles 150%Z). intros [_ Hmod]. discriminate Hmod.
Qed.

Lemma snapshot_schedule_witness :
  let w := demo_world default_config in
  let path := checkpoint_path (checkpoint_dir (cfg (self_ w))) in
  (∀ epoch iteration output,
     ∃ w', training_end_iter_handler demo_externals epoch iteration output w = (Ok tt, w')
           ∧ ((iteration `mod` 100 = 0)%Z →
              fs w' = <[path iteration :=
                         Pickled (CheckpointFile epoch iteration (model_params w)
                                    ∅ output.1)]> (fs w))
           ∧ ((iteration `mod` 100 ≠ 0)%Z → fs w' = fs w)
           ∧ ∀ other, other ≠ iteration → fs w' !! path other = fs w !! path other)
  ∧ (∀ i j, i ≠ j → path i ≠ path j)
  ∧ (∀ its, length its = 200 →
       ∃ w', iterations_completed demo_externals 1 its w = (Ok tt, w')
             ∧ (∃ c, fs w' !! path 100%Z = Some (Pickled c) ∧ ck_iteration c = 100%Z)
             ∧ (∃ c, fs w' !! path 200%Z = Some (Pickled c) ∧ ck_iteration c = 200%Z)
             ∧ fs w' !! path 150%Z = fs w !! path 150%Z).
Proof.
  apply (snapshot_schedule demo_externals (demo_world default_config) (Adam, ∅)).
  - reflexivity.
  - simpl. lia.
  - reflexivity.
Defined.

(** C10. On the validation branch [test] ignores its argument, runs the
    validation loader and returns the scores. With [is_validation=False]
    it does not return [None] on a dataset that has an example: the batch
    that [pack_collate_fn] builds has four components and [_test] raises
    on unpacking it into two. *)
Theorem test_on_dataset_raises (E : externals) (w : world) :
  (∀ arg arg', test E arg true w = test E arg' true w
               ∧ ∃ s, test E arg true w = (Ok (Some s), w))
  ∧ (∀ ex items, ∃ e w',
       test E (ArgDataset (TripleData (ex :: items))) false w = (Raise e, w'))
  ∧ (test demo_externals (ArgDataset (TripleData demo_batch)) false
       (demo_world default_config)).1 = Raise ValueError.
Proof.
  split; [|split].
  - intros arg arg'. destruct (test_validation E arg w) as (s & Hs & Hall).
    split; [by rewrite Hs, Hall|by exists s].
  - intros ex items. by apply test_dataset_raises.
  - reflexivity.
Qed.


(** * Beyond the claims *)

(** * More about the collate function *)

Lemma pack_collate_fn_raises batch e :
  pack_collate_fn batch = Raise e →
  e = match batch with [] => ValueError | _ => RuntimeError end.
Proof.
  intros H. destruct batch as [|ex batch']; [by injection H|].
  unfold pack_collate_fn in H.
  pose proof (len_sorted_idx_range (ex :: batch')) as Hidx.
  fold (len_sorted_idx (ex :: batch')) in H.
  rewrite !gather_in_range in H by (by rewrite !length_fmap).
  cbn [mbind result_bind] in H. fold (len_sorted (ex :: batch')) in H.
  destruct (pack_sequence (len_sorted (ex :: batch'))) as [p|e'] eqn:Hp; [done|].
  injection H as <-. unfold pack_sequence in Hp.
  destruct (length <$> len_sorted (ex :: batch')) as [|n ns] eqn:Hl.
  { apply fmap_nil_inv in Hl. by apply len_sorted_nonempty in Hl. }
  pose proof (is_decreasing_sorted _ (len_sorted_decreasing (ex :: batch'))) as Hdec.
  rewrite Hl in Hdec. rewrite Hdec in Hp. cbn [negb] in Hp.
  destruct (negb (forallb (λ n, 0 <? n) (n :: ns))); congruence.
Qed.

(** X1. [pack_collate_fn] returns exactly on the batches that are not
    empty and have no empty token sequence. On the empty batch the
    unpacking on line 16 raises a [ValueError]; on a batch with an empty
    token sequence [pack_sequence] raises a [RuntimeError]. *)
Theorem pack_collate_fn_returns_iff (batch : list example) :
  (returns (pack_collate_fn batch)
   ↔ batch ≠ [] ∧ Forall (λ ex, 1 ≤ length ex.1.2) batch)
  ∧ (batch = [] → pack_collate_fn batch = Raise ValueError)
  ∧ (batch ≠ [] → Exists (λ ex, ex.1.2 = []) batch →
     pack_collate_fn batch = Raise RuntimeError).
Proof.
  split; [split|split].
  - intros [out Hout]. by apply pack_collate_fn_inv in Hout.
  - intros [Hne Hpos]. eexists. by apply pack_collate_fn_Ok.
  - by intros ->.
  - intros Hne Hex. destruct (pack_collate_fn batch) as [out|e] eqn:Hb.
    + apply pack_collate_fn_inv in Hb as [_ Hpos].
      apply Exists_exists in Hex as (ex & Hin & Hnil).
      rewrite Forall_forall in Hpos. specialize (Hpos ex Hin).
      rewrite Hnil in Hpos. simpl in Hpos. lia.
    + apply pack_collate_fn_raises in Hb as ->. by destruct batch.
Qed.

Lemma fmap_lookup_total_seq_map {A B} `{Inhabited A} (g : A → B) (l : list A) :
  (λ i, g (l !!! i)) <$> seq 0 (length l) = g <$> l.
Proof.
  transitivity (g <$> ((λ i, l !!! i) <$> seq 0 (length l))).
  - by rewrite <-list_fmap_compose.
  - by rewrite fmap_lookup_total_seq.
Qed.

Lemma len_sorted_idx_perm batch : len_sorted_idx batch ≡ₚ seq 0 (length batch).
Proof. unfold len_sorted_idx. rewrite sorted_perm. by rewrite !length_fmap. Qed.

Lemma zip3_fmap {A B C D} (f : A → B) (g : A → C) (h : A → D) (l : list A) :
  zip (zip (f <$> l) (g <$> l)) (h <$> l) = (λ x, (f x, g x, h x)) <$> l.
Proof. induction l as [|x l IH]; [done|]. rewrite !fmap_cons. simpl. by rewrite IH. Qed.

Lemma eq_reflexive_perm {A} (l k : list A) : l = k → l ≡ₚ k.
Proof. by intros ->. Qed.

(** X2. The three per-example outputs of [pack_collate_fn] stay aligned:
    position by position, the feature, the sequence length and the caption
    belong to one input example, and together they are the input examples
    in another order. The size of the batch is kept and the sequence
    lengths never increase. *)
Theorem pack_collate_fn_keeps_examples_aligned (batch : list example) (out : collated) :
  pack_collate_fn batch = Ok out →
  zip (zip (c_features out) (c_seq_lens out)) (c_captions out)
    ≡ₚ (λ ex, (ex.1.1, length ex.1.2, ex.2)) <$> batch
  ∧ length (c_features out) = length batch
  ∧ StronglySorted (λ a b, b ≤ a) (c_seq_lens out).
Proof.
  intros Hb. rewrite (pack_collate_fn_eq _ _ Hb). cbn [c_features c_seq_lens c_captions].
  split; [|split].
  - unfold len_sorted.
    rewrite <-(list_fmap_compose (λ i, batch.*1.*2 !!! i) length).
    rewrite zip3_fmap, len_sorted_idx_perm.
    rewrite <-(fmap_lookup_total_seq_map (λ ex, (ex.1.1, length ex.1.2, ex.2)) batch).
    apply eq_reflexive_perm, list_fmap_ext.
    intros k i [-> Hi]%lookup_seq. unfold compose.
    rewrite (list_lookup_total_fmap fst (fst <$> batch)) by (by rewrite length_fmap).
    rewrite (list_lookup_total_fmap snd (fst <$> batch)) by (by rewrite length_fmap).
    by rewrite !(list_lookup_total_fmap fst batch), (list_lookup_total_fmap snd batch).
  - by rewrite length_fmap, (Permutation_length (len_sorted_idx_perm batch)), length_seq.
  - apply len_sorted_decreasing.
Qed.

Lemma pack_collate_fn_keeps_examples_aligned_witness :
  zip (zip (c_features demo_collated) (c_seq_lens demo_collated)) (c_captions demo_collated)
    ≡ₚ (λ ex, (ex.1.1, length ex.1.2, ex.2)) <$> demo_batch
  ∧ length (c_features demo_collated) = length demo_batch
  ∧ StronglySorted (λ a b, b ≤ a) (c_seq_lens demo_collated).
Proof. apply (pack_collate_fn_keeps_examples_aligned demo_batch). reflexivity. Defined.

(** ** Packing keeps every token *)

Lemma time_step_cons s seqs t :
  time_step (s :: seqs) t = option_list (s !! t) ++ time_step seqs t.
Proof. unfold time_step. simpl. by destruct (s !! t). Qed.

Lemma mjoin_cons {A} (x : list A) (ls : list (list A)) :
  mjoin (x :: ls) = x ++ mjoin ls.
Proof. done. Qed.

Lemma join_option_list_seq {A} (s : list A) n :
  length s ≤ n → mjoin ((λ t, option_list (s !! t)) <$> seq 0 n) = s.
Proof.
  revert s. induction n as [|n IH]; intros s Hs.
  - destruct s; [done|simpl in Hs; lia].
  - destruct (decide (length s ≤ n)) as [Hle|Hgt].
    + rewrite seq_S, fmap_app, join_app, IH by done. simpl.
      rewrite lookup_ge_None_2 by lia. simpl. by rewrite app_nil_r.
    + assert (length s = S n) as Hlen by lia.
      destruct s as [|x s _] using rev_ind; [done|].
      rewrite length_app in Hlen. simpl in Hlen.
      rewrite seq_S, fmap_app, join_app. simpl.
      rewrite lookup_app_r by lia. replace (n - length s) with 0 by lia. simpl.
      f_equal. etrans; [|apply (IH s); lia]. f_equal.
      apply list_fmap_ext. intros i t Ht. apply lookup_seq in Ht as [-> Ht].
      simpl. by rewrite lookup_app_l by lia.
Qed.

Lemma join_columns_perm (seqs : list (list Z)) n :
  Forall (λ s, length s ≤ n) seqs →
  mjoin (time_step seqs <$> seq 0 n) ≡ₚ mjoin seqs.
Proof.
  induction 1 as [|s seqs Hs Hall IH].
  - induction (seq 0 n) as [|t ts IHt]; [reflexivity|].
    rewrite fmap_cons, mjoin_cons. exact IHt.
  - assert (∀ l, mjoin (time_step (s :: seqs) <$> l)
                 ≡ₚ mjoin ((λ t, option_list (s !! t)) <$> l)
                    ++ mjoin (time_step seqs <$> l)) as Hsplit.
    { induction l as [|t ts IHt]; [reflexivity|].
      rewrite !fmap_cons, !mjoin_cons, time_step_cons, IHt.
      rewrite <-!app_assoc. f_equiv. rewrite !app_assoc. f_equiv.
      apply Permutation_app_comm. }
    by rewrite Hsplit, join_option_list_seq, IH, mjoin_cons.
Qed.

Lemma sum_list_fmap_length_join {A} (ls : list (list A)) :
  sum_list (length <$> ls) = length (mjoin ls).
Proof. by rewrite length_join. Qed.

(** X3. Packing keeps every token: the packed data is a rearrangement
    of the tokens of all sequences. There are as many batch sizes as the
    longest sequence has tokens, they add up to the number of packed
    tokens, and without the first one to that number minus the size of the
    batch, which is the number of predictions [_train] scores. *)
Theorem pack_collate_fn_keeps_tokens (batch : list example) (out : collated) :
  pack_collate_fn batch = Ok out →
  data (c_packed out) ≡ₚ mjoin batch.*1.*2
  ∧ length (batch_sizes (c_packed out)) = max_list (length <$> batch.*1.*2)
  ∧ sum_list (batch_sizes (c_packed out)) = length (data (c_packed out))
  ∧ sum_list (drop 1 (batch_sizes (c_packed out)))
    = length (data (c_packed out)) - length batch.
Proof.
  intros Hb. pose proof (first_batch_size _ _ Hb) as Hhd.
  destruct (pack_collate_fn_inv _ _ Hb) as [Hne Hpos].
  rewrite (pack_collate_fn_eq _ _ Hb) in *. cbn [c_packed data batch_sizes] in *.
  pose proof (len_sorted_decreasing batch) as Hdec.
  pose proof (len_sorted_perm batch) as Hperm.
  pose proof (len_sorted_nonempty _ Hne) as Hne'.
  assert (Hsum : sum_list (length <$> columns (len_sorted batch))
                 = length (mjoin (columns (len_sorted batch))))
    by apply sum_list_fmap_length_join.
  split; [|split; [|split]].
  - rewrite <-Hperm. unfold columns. apply join_columns_perm.
    apply Forall_forall. intros s Hs. by apply head_longest.
  - rewrite length_fmap, columns_length, <-Hperm.
    destruct (len_sorted batch) as [|s seqs]; [done|].
    rewrite fmap_cons in *. by rewrite max_list_decreasing.
  - done.
  - rewrite <-Hsum. revert Hhd.
    generalize (length <$> columns (len_sorted batch)). intros [|n ns]; [done|].
    intros [= ->]. simpl. rewrite drop_0. lia.
Qed.

Lemma pack_collate_fn_keeps_tokens_witness :
  data (c_packed demo_collated) ≡ₚ mjoin demo_batch.*1.*2
  ∧ length (batch_sizes (c_packed demo_collated)) = max_list (length <$> demo_batch.*1.*2)
  ∧ sum_list (batch_sizes (c_packed demo_collated)) = length (data (c_packed demo_collated))
  ∧ sum_list (drop 1 (batch_sizes (c_packed demo_collated)))
    = length (data (c_packed demo_collated)) - length demo_batch.
Proof. apply (pack_collate_fn_keeps_tokens demo_batch). reflexivity. Defined.

Lemma time_step_lookup (seqs : list (list Z)) : ∀ b s t x,
  StronglySorted (λ a b, b ≤ a) (length <$> seqs) →
  seqs !! b = Some s → s !! t = Some x → time_step seqs t !! b = Some x.
Proof.
  induction seqs as [|s0 seqs IH]; intros b s t x Hdec Hs Hx; [done|].
  rewrite fmap_cons in Hdec. apply StronglySorted_inv in Hdec as [Hdec Hhd].
  rewrite time_step_cons. destruct b as [|b]; simpl in Hs.
  - injection Hs as ->. by rewrite Hx.
  - destruct (lookup_lt_is_Some_2 s0 t) as [y Hy].
    { apply lookup_lt_Some in Hx. rewrite Forall_fmap, Forall_forall in Hhd.
      apply list_elem_of_lookup_2 in Hs. specialize (Hhd s Hs). simpl in Hhd. lia. }
    rewrite Hy. simpl. by eapply IH.
Qed.

(** X4. Where a token ends up: token [t] of the sequence at position [b]
    of the sorted batch is the packed token at offset
    [sum(batch_sizes[:t]) + b], and [seq_lens[b]] is the length of that
    sequence. *)
Theorem packed_token_position (batch : list example) (out : collated)
    (b t : nat) (s : list Z) (x : Z) :
  pack_collate_fn batch = Ok out →
  len_sorted batch !! b = Some s →
  s !! t = Some x →
  c_seq_lens out !! b = Some (length s)
  ∧ data (c_packed out) !! (sum_list (take t (batch_sizes (c_packed out))) + b) = Some x.
Proof.
  intros Hb Hs Hx. rewrite (pack_collate_fn_eq _ _ Hb).
  cbn [c_packed data batch_sizes c_seq_lens].
  split; [by rewrite list_lookup_fmap, Hs|].
  apply join_lookup_Some. exists t, (time_step (len_sorted batch) t), b.
  split; [|split].
  - unfold columns. rewrite list_lookup_fmap, lookup_seq_lt; [done|].
    apply lookup_lt_Some in Hx. apply list_elem_of_lookup_2 in Hs.
    pose proof (head_longest _ _ (len_sorted_decreasing batch) Hs). lia.
  - by eapply time_step_lookup; [apply len_sorted_decreasing|..].
  - by rewrite fmap_take.
Qed.

Lemma packed_token_position_witness :
  c_seq_lens demo_collated !! 1 = Some (length [1; 3; 2]%Z)
  ∧ data (c_packed demo_collated)
      !! (sum_list (take 2 (batch_sizes (c_packed demo_collated))) + 1) = Some 2%Z.
Proof.
  apply (packed_token_position demo_batch demo_collated 1 2 [1; 3; 2]%Z 2%Z);
    reflexivity.
Defined.


(** * What the methods leave alone *)

Section Keeps.
Context (P : relation world) `{!PreOrder P}.

Lemma keeps_ret {A} (a : A) : keeps P (mret a).
Proof. intros w. simpl. reflexivity. Qed.

Lemma keeps_lift {A} (r : result A) : keeps P (lift r).
Proof. intros w. simpl. reflexivity. Qed.

Lemma keeps_raise {A} e : keeps P (raise (A:=A) e).
Proof. intros w. simpl. reflexivity. Qed.

Lemma keeps_get : keeps P get.
Proof. intros w. simpl. reflexivity. Qed.

Lemma keeps_get_optimizer : keeps P get_optimizer.
Proof. intros w. unfold get_optimizer. destruct (optimizer (self_ w)); simpl; reflexivity. Qed.

Lemma keeps_modify (f : world → world) : (∀ w, P w (f w)) → keeps P (modify f).
Proof. intros Hf w. apply Hf. Qed.

Lemma keeps_bind {A B} (m : py A) (k : A → py B) :
  keeps P m → (∀ a, keeps P (k a)) → keeps P (m ≫= k).
Proof.
  intros Hm Hk w. unfold mbind, py_bind. specialize (Hm w).
  destruct (m w) as [[a|e] w1]; simpl in *; [|done].
  etrans; [exact Hm|apply Hk].
Qed.
End Keeps.

Ltac keeps_pure :=
  repeat first [ assumption | apply _ | apply keeps_lift | apply keeps_ret
               | apply keeps_raise | apply keeps_get
               | apply keeps_bind; [| |intros ?] ].

Lemma bind_Ok_inv {A B} (m : py A) (k : A → py B) w b w' :
  (m ≫= k) w = (Ok b, w') → ∃ a w1, m w = (Ok a, w1) ∧ k a w1 = (Ok b, w').
Proof.
  unfold mbind, py_bind. destruct (m w) as [[a|e] w1]; [|done]. by eexists _, _.
Qed.

Lemma lift_Ok_inv {A} (r : result A) w a w' :
  lift r w = (Ok a, w') → r = Ok a ∧ w' = w.
Proof. unfold lift. by intros [= -> ->]. Qed.

#[local] Instance log_grows_preorder : PreOrder log_grows.
Proof.
  split.
  - by intros w.
  - intros w1 w2 w3 (? & ? & ? & ?) (? & ? & ? & ?).
    repeat split; try congruence. by etrans.
Qed.

#[local] Instance same_settings_preorder : PreOrder same_settings.
Proof.
  split.
  - by intros s.
  - intros s1 s2 s3 (?&?&?&?&?&?&?&?&?) (?&?&?&?&?&?&?&?&?).
    repeat split; congruence.
Qed.

#[local] Instance train_frame_preorder : PreOrder train_frame.
Proof.
  split.
  - by intros w.
  - intros w1 w2 w3 (? & ? & ?) (? & ? & ?).
    split; [congruence|]. split; by etrans.
Qed.

Lemma log_grows_train_frame w w' : log_grows w w' → train_frame w w'.
Proof. intros (Hs & _ & ? & ?). split; [done|]. split; [|done]. by rewrite Hs. Qed.

Section TrainFrame.
Context (M : model_api) (E : externals).

Lemma train_step_log_grows θ F P cap bs null i st :
  keeps log_grows (train_step M θ F P cap bs null i st).
Proof.
  unfold train_step. keeps_pure.
  apply keeps_modify. intros w. repeat split; simpl.
  by apply prefix_app_r.
Qed.

Lemma train_loop_log_grows θ F P cap bs null range : ∀ st,
  keeps log_grows (train_loop M θ F P cap bs null range st).
Proof.
  induction range as [|i range IH]; intros st; [keeps_pure|].
  apply keeps_bind; [apply _|apply train_step_log_grows|]. intros st'. apply IH.
Qed.

Lemma train_step_tensor θ F P cap bs null i st w st' w' :
  train_step M θ F P cap bs null i st w = (Ok st', w') →
  (∃ l, loss st' = Tensor l) ∧ (∃ n, acc st' = Tensor n) ∧ alphas st' ≠ [].
Proof.
  unfold train_step. intros H.
  repeat (apply bind_Ok_inv in H as (? & ? & _ & H)).
  injection H as <- _. simpl. split; [by eexists|]. split; [by eexists|].
  by intros [_ ?]%app_nil.
Qed.

Lemma train_loop_tensor θ F P cap bs null range : ∀ st w st' w',
  train_loop M θ F P cap bs null range st w = (Ok st', w') →
  (range = [] ∧ st' = st)
  ∨ (range ≠ [] ∧ (∃ l, loss st' = Tensor l) ∧ (∃ n, acc st' = Tensor n)).
Proof.
  induction range as [|i range IH]; intros st w st' w' H.
  { left. by injection H as ->. }
  right. split; [done|]. cbn [train_loop] in H.
  apply bind_Ok_inv in H as (st1 & w1 & Hstep & Hloop).
  apply train_step_tensor in Hstep as (Hl & Ha & _).
  apply IH in Hloop as [[_ ->]|(_ & ? & ?)]; done.
Qed.

(** X5. Whatever the batch and whether it returns or raises, [_train]
    leaves the checkpoint files, the configuration, the reserved token
    ids, the data sets, [start_iter] and the test loader as they are and
    keeps the kind of optimiser; the log of model calls only grows. *)
Theorem train_leaves_files_and_settings (b : collated) (w : world) :
  train_frame w (_train M E b w).2.
Proof.
  unfold _train. destruct (optimizer (self_ w)) as [o|] eqn:Ho.
  2:{ unfold mbind, py_bind, get_optimizer. by rewrite Ho. }
  rewrite (bind_get_optimizer _ o), bind_get by done.
  set (R := λ w1 w2 : world,
         fs w2 = fs w1
         ∧ cfg (self_ w2) = cfg (self_ w1) ∧ _start (self_ w2) = _start (self_ w1)
         ∧ _null (self_ w2) = _null (self_ w1) ∧ _end (self_ w2) = _end (self_ w1)
         ∧ train_dataset (self_ w2) = train_dataset (self_ w1)
         ∧ val_dataset (self_ w2) = val_dataset (self_ w1)
         ∧ start_iter (self_ w2) = start_iter (self_ w1)
         ∧ test_loader (self_ w2) = test_loader (self_ w1)
         ∧ (optimizer (self_ w2) = optimizer (self_ w1)
            ∨ ∃ st, optimizer (self_ w2) = Some (o.1, st))
         ∧ forward_log w1 `prefix_of` forward_log w2).
  assert (PreOrder R) as HR.
  { split.
    - intros w1. unfold R. repeat split; try done. by left.
    - intros w1 w2 w3 (?&?&?&?&?&?&?&?&?&Ho12&?) (?&?&?&?&?&?&?&?&?&Ho23&?).
      unfold R. repeat split; try congruence; [|by etrans].
      destruct Ho23 as [->|?]; [done|by right]. }
  assert (∀ w1 w2, log_grows w1 w2 → R w1 w2) as Hlg.
  { intros w1 w2 (Hs & _ & ? & ?). unfold R. rewrite Hs. repeat split; try done.
    by left. }
  cbv zeta. match goal with |- train_frame _ (?x w).2 => set (m := x) end.
  assert (keeps R m) as Hm.
  { unfold m.
    apply keeps_bind; [done|intros w1; apply Hlg, train_loop_log_grows|]. intros st.
    apply keeps_bind; [done| |intros l].
    { destruct (Rlt_dec 0 (alpha_c (cfg (self_ w)))).
      - keeps_pure.
      - keeps_pure. }
    apply keeps_bind; [done|by apply keeps_lift|]. intros b0.
    destruct l as [l|l]; [by apply keeps_raise|].
    apply keeps_bind; [done| |intros _].
    { apply keeps_modify. intros w1. unfold R. simpl.
      repeat split; try done. right. by eexists. }
    destruct (acc st); [by apply keeps_raise|].
    case_bool_decide; [by apply keeps_raise|by apply keeps_ret]. }
  destruct (Hm w) as (?&?&?&?&?&?&?&?&?&Hopt&?).
  split; [done|]. split; [|done]. repeat split; try done.
  rewrite Ho. destruct Hopt as [->|[st ->]]; [by rewrite Ho|done].
Qed.

Lemma train_returns_or_unchanged (b : collated) (w : world) :
  Forall (λ n, 0 < n) (batch_sizes (c_packed b)) →
  returns (_train M E b w).1
  ∨ (model_params (_train M E b w).2 = model_params w
     ∧ self_ (_train M E b w).2 = self_ w).
Proof.
  intros Hpos. unfold _train. destruct (optimizer (self_ w)) as [o|] eqn:Ho.
  2:{ right. unfold mbind, py_bind, get_optimizer. by rewrite Ho. }
  rewrite (bind_get_optimizer _ o), bind_get by done. cbv zeta.
  set (bs := batch_sizes (c_packed b)) in *.
  set (loop := train_loop _ _ _ _ _ _ _ _ _).
  destruct (loop w) as [[st|e] w1] eqn:Hloop.
  2:{ right. erewrite bind_Raise by done. simpl.
      assert (log_grows w (loop w).2) as Hg by apply train_loop_log_grows.
      rewrite Hloop in Hg. by destruct Hg as (? & ? & _). }
  erewrite bind_Ok by done.
  assert (log_grows w (loop w).2) as Hg by apply train_loop_log_grows.
  rewrite Hloop in Hg. destruct Hg as (Hself & Hparams & _). simpl in Hself, Hparams.
  set (reg := if Rlt_dec 0 (alpha_c (cfg (self_ w))) then _ else _).
  assert (keeps eq reg) as Hreg.
  { unfold reg. destruct (Rlt_dec 0 (alpha_c (cfg (self_ w)))).
    - keeps_pure.
    - keeps_pure. }
  specialize (Hreg w1).
  destruct (reg w1) as [[l|e] w2] eqn:Hl; simpl in Hreg; subst w2.
  2:{ right. by erewrite bind_Raise by done. }
  erewrite bind_Ok by done.
  destruct (index bs 0) as [b0|e] eqn:Hb0; [|by right].
  erewrite (bind_lift_Ok _ _ _ _ eq_refl).
  apply train_loop_tensor in Hloop as Hcases.
  destruct l as [l|l]; [by right|]. rewrite bind_modify.
  destruct Hcases as [[Hrange ->]|(Hrange & _ & n & Hacc)].
  - (* the loop did not run: the loss cannot be a tensor *)
    exfalso. unfold reg in Hl. cbn [loss alphas] in Hl.
    destruct (Rlt_dec 0 (alpha_c (cfg (self_ w)))); discriminate Hl.
  - rewrite Hacc. left.
    assert (sum_list (drop 1 bs) ≠ 0) as Htotal.
    { destruct bs as [|n0 [|n1 bs']]; [done..|].
      apply Forall_cons in Hpos as [_ [? _]%Forall_cons]. simpl. lia. }
    rewrite bool_decide_false by done. by eexists.
Qed.

(** X6. A training step that fails, on a batch whose batch sizes are all
    positive, has failed before [optimizer.step()]: after the exception
    the parameters of the model and the solver, with the state of its
    optimiser, are what they were. (The methods of the model are functions
    of its parameters, as [model_api] has them.) *)
Theorem train_failure_keeps_parameters (b : collated) (w : world) (e : exn) :
  Forall (λ n, 0 < n) (batch_sizes (c_packed b)) →
  (_train M E b w).1 = Raise e →
  model_params (_train M E b w).2 = model_params w
  ∧ self_ (_train M E b w).2 = self_ w.
Proof.
  intros Hpos Hraise.
  destruct (train_returns_or_unchanged b w Hpos) as [[out Hout]|Hsame]; [|done].
  rewrite Hout in Hraise. discriminate Hraise.
Qed.
End TrainFrame.

Lemma train_failure_keeps_parameters_witness :
  model_params (_train demo_model demo_externals unknown_token_collated
                  (demo_world default_config)).2
  = model_params (demo_world default_config)
  ∧ self_ (_train demo_model demo_externals unknown_token_collated
             (demo_world default_config)).2
    = self_ (demo_world default_config).
Proof.
  apply (train_failure_keeps_parameters demo_model demo_externals unknown_token_collated
           (demo_world default_config) IndexError).
  - repeat constructor.
  - reflexivity.
Defined.

(** * More about the training step *)

Lemma attention_penalty_nonneg M steps seq_lens :
  (0 <= attention_penalty M steps seq_lens)%R.
Proof.
  unfold attention_penalty. apply sum_R_nonneg, Forall_forall.
  intros x (i & len & -> & _)%elem_of_lookup_imap.
  apply sum_R_nonneg, Forall_fmap, Forall_forall. intros l _. simpl.
  apply Rle_0_sqr.
Qed.

Lemma zip_fmap_logged steps :
  logged <$> steps = zip (ts_tokens <$> steps) (ts_targets <$> steps).
Proof. induction steps as [|s steps IH]; [done|]. rewrite !fmap_cons, IH. done. Qed.

Section TrainMore.
Context (M : model_api) (E : externals).

(** X7. Teacher forcing. Cut the packed data into columns by the batch
    sizes: column [t] holds token [t] of every sequence that has one, in
    sorted order. The model call of step [t] is fed column [t] and is
    scored against column [t + 1], so the targets of one call are the
    input of the next. *)
Theorem train_feeds_packed_columns (batch : list example) (b : collated) (w : world)
    (o : optimizer_kind * state_dict) :
  pack_collate_fn batch = Ok b →
  valid_batch (V M) (_null (self_ w)) batch →
  optimizer (self_ w) = Some o →
  let cols := reshape (batch_sizes (c_packed b)) (data (c_packed b)) in
  forward_log (_train M E b w).2
  = forward_log w ++ zip (take (length cols - 1) cols) (drop 1 cols)
  ∧ ∀ t, t < length cols → cols !! t = Some (time_step (len_sorted batch) t).
Proof.
  intros Hb Hvalid Hopt cols.
  destruct (_train_cases M E batch b w o Hb Hvalid Hopt) as (_ & Hlog & _).
  assert (cols = columns (len_sorted batch)) as Hcols.
  { unfold cols. rewrite (pack_collate_fn_eq _ _ Hb). cbn [c_packed batch_sizes data].
    apply reshape_join. }
  split.
  - assert (packed_steps (c_packed b) = tagged cols) as Hp.
    { rewrite Hcols, (pack_collate_fn_eq _ _ Hb). cbn [c_packed].
      apply tagged_packed_steps. }
    rewrite Hlog, zip_fmap_logged. f_equal. unfold timesteps. rewrite Hp.
    set (F := batch_norm M _ _).
    by destruct (spec_timesteps_shape M (model_params w) F
                   (project_features M (model_params w) F) cols
                   (get_initial_lstm M (model_params w) F).1
                   (get_initial_lstm M (model_params w) F).2) as (-> & -> & _).
  - intros t Ht. rewrite Hcols in *. unfold columns in *.
    rewrite length_fmap, length_seq in Ht.
    by rewrite list_lookup_fmap, lookup_seq_lt.
Qed.

(** X9. For every value of [alpha_c] the loss that [_train] returns is
    at least the word loss divided by the size of the batch, which is not
    negative; for [alpha_c <= 0] it is equal to it: the test on line 171
    keeps a negative coefficient from subtracting the penalty. *)
Theorem train_loss_nonneg (batch : list example) (b : collated) (w : world)
    (o : optimizer_kind * state_dict) :
  pack_collate_fn batch = Ok b →
  Exists (λ ex, 2 ≤ length ex.1.2) batch →
  valid_batch (V M) (_null (self_ w)) batch →
  optimizer (self_ w) = Some o →
  ∃ loss accuracy w',
    _train M E b w = (Ok (loss, accuracy), w')
    ∧ (0 <= word_loss (_null (self_ w)) (timesteps M (model_params w) b)
            / INR (length batch) <= loss)%R
    ∧ ((alpha_c (cfg (self_ w)) <= 0)%R →
       loss = (word_loss (_null (self_ w)) (timesteps M (model_params w) b)
               / INR (length batch))%R).
Proof.
  intros Hb Hlong Hvalid Hopt.
  destruct (predicted_tokens_positive _ _ Hb Hlong) as [HT _].
  destruct (_train_cases M E batch b w o Hb Hvalid Hopt) as (Hsteps & _ & _ & Hret).
  destruct (timesteps_facts M batch b (model_params w) _ Hb Hvalid) as (_ & _ & _ & Hcols).
  pose proof (word_loss_nonneg _ _ _ Hcols) as Hword.
  set (steps := timesteps M (model_params w) b) in *.
  assert (0 < / INR (length batch))%R as Hinv.
  { apply Rinv_0_lt_compat, lt_0_INR.
    destruct (pack_collate_fn_inv _ _ Hb) as [Hne _]. destruct batch; [done|simpl; lia]. }
  assert (0 <= attention_term M (self_ w) steps (c_seq_lens b))%R as Hterm.
  { unfold attention_term. destruct (Rlt_dec 0 (alpha_c (cfg (self_ w)))); [|lra].
    apply Rmult_le_pos; [lra|apply attention_penalty_nonneg]. }
  eexists _, _, _. split.
  { apply Hret. intros Hnil. rewrite Hnil in Hsteps.
    change (length []) with 0 in Hsteps. lia. }
  split; [split|].
  - apply Rmult_le_pos; lra.
  - unfold Rdiv. apply Rmult_le_compat_r; lra.
  - intros Hα. unfold attention_term.
    destruct (Rlt_dec 0 (alpha_c (cfg (self_ w)))); [lra|]. by rewrite Rplus_0_r.
Qed.
End TrainMore.

Lemma train_feeds_packed_columns_witness :
  let cols := reshape (batch_sizes (c_packed demo_collated)) (data (c_packed demo_collated)) in
  forward_log (_train demo_model demo_externals demo_collated (demo_world default_config)).2
  = forward_log (demo_world default_config) ++ zip (take (length cols - 1) cols) (drop 1 cols)
  ∧ ∀ t, t < length cols → cols !! t = Some (time_step (len_sorted demo_batch) t).
Proof.
  apply (train_feeds_packed_columns demo_model demo_externals demo_batch demo_collated
           (demo_world default_config) (Adam, ∅)).
  - reflexivity.
  - valid_tokens.
  - reflexivity.
Defined.

Lemma train_loss_nonneg_witness :
  ∃ loss accuracy w',
    _train demo_model demo_externals demo_collated (demo_world default_config)
    = (Ok (loss, accuracy), w')
    ∧ (0 <= word_loss 0 (timesteps demo_model ∅ demo_collated) / INR (length demo_batch)
       <= loss)%R
    ∧ ((alpha_c default_config <= 0)%R →
       loss = (word_loss 0 (timesteps demo_model ∅ demo_collated)
               / INR (length demo_batch))%R).
Proof.
  apply (train_loss_nonneg demo_model demo_externals demo_batch demo_collated
           (demo_world default_config) (Adam, ∅)).
  - reflexivity.
  - left. simpl. lia.
  - valid_tokens.
  - reflexivity.
Defined.


(** * More about the constructor *)

Section Constructor.
Context (E : externals).

(** The constructor up to the two directories: with the three reserved
    tokens, a training set that is not empty and a positive batch size,
    what is left runs on a solver that has its optimiser, if the name is
    known. *)
Lemma init_steps word_to_idx train val kwargs w start null end_ :
  word_to_idx !! "<START>"%string = Some start →
  word_to_idx !! "<NULL>"%string = Some null →
  word_to_idx !! "<END>"%string = Some end_ →
  train ≠ [] →
  batch_size kwargs ≠ 0 →
  __init__ E word_to_idx train val kwargs w
  = (_ ← lift (makedirs E (checkpoint_dir kwargs));
     _ ← lift (makedirs E (log_path kwargs));
     _ ← match checkpoint kwargs with
         | Some path => _load path
         | None => modify (λ w, set_self (set_start_iter 1 (self_ w)) w)
         end;
     lift (summary_writer E (log_path kwargs)))
      (set_self (Solver kwargs start null end_ train val
                   (chosen_optimizer E kwargs (model_params w)) None None) w).
Proof.
  intros H1 H2 H3 Htrain Hbs. unfold __init__, lookup_word, chosen_optimizer.
  rewrite H1, H2, H3. rewrite !(bind_lift_Ok _ _ _ _ eq_refl).
  rewrite !bool_decide_false by (by destruct train). rewrite bind_modify.
  repeat case_bool_decide; by rewrite ?bind_modify, ?bind_ret.
Qed.

Lemma init_prefix word_to_idx train val kwargs w start null end_ :
  word_to_idx !! "<START>"%string = Some start →
  word_to_idx !! "<NULL>"%string = Some null →
  word_to_idx !! "<END>"%string = Some end_ →
  train ≠ [] →
  batch_size kwargs ≠ 0 →
  makedirs E (checkpoint_dir kwargs) = Ok tt →
  makedirs E (log_path kwargs) = Ok tt →
  __init__ E word_to_idx train val kwargs w
  = (_ ← match checkpoint kwargs with
         | Some path => _load path
         | None => modify (λ w, set_self (set_start_iter 1 (self_ w)) w)
         end;
     lift (summary_writer E (log_path kwargs)))
      (set_self (Solver kwargs start null end_ train val
                   (chosen_optimizer E kwargs (model_params w)) None None) w).
Proof.
  intros H1 H2 H3 Htrain Hbs Hd1 Hd2.
  rewrite (init_steps _ _ _ _ _ _ _ _ H1 H2 H3 Htrain Hbs), Hd1, Hd2.
  by rewrite !(bind_lift_Ok _ _ _ _ eq_refl).
Qed.

Lemma init_early_error word_to_idx train val kwargs w :
  word_to_idx !! "<START>"%string = None ∨ word_to_idx !! "<NULL>"%string = None
  ∨ word_to_idx !! "<END>"%string = None ∨ train = [] ∨ batch_size kwargs = 0 →
  ∃ e, __init__ E word_to_idx train val kwargs w = (Raise e, w)
       ∧ (e = KeyError
          ↔ word_to_idx !! "<START>"%string = None
            ∨ word_to_idx !! "<NULL>"%string = None
            ∨ word_to_idx !! "<END>"%string = None).
Proof.
  intros H. unfold __init__, lookup_word.
  destruct (word_to_idx !! "<START>"%string) as [start|] eqn:H1.
  2:{ exists KeyError. split; [done|]. split; [by left|done]. }
  destruct (word_to_idx !! "<NULL>"%string) as [null|] eqn:H2.
  2:{ exists KeyError. split; [done|]. split; [by right; left|done]. }
  destruct (word_to_idx !! "<END>"%string) as [end_|] eqn:H3.
  2:{ exists KeyError. split; [done|]. split; [by right; right|done]. }
  rewrite !(bind_lift_Ok _ _ _ _ eq_refl).
  exists ValueError. split; [|split; [done|by intros [?|[?|?]]]].
  destruct H as [?|[?|[?|[->|Hbs]]]]; [done..| |].
  - done.
  - rewrite (bool_decide_true _ Hbs). by case_bool_decide.
Qed.

Lemma init_makedirs_error word_to_idx train val kwargs w e :
  is_Some (word_to_idx !! "<START>"%string) →
  is_Some (word_to_idx !! "<NULL>"%string) →
  is_Some (word_to_idx !! "<END>"%string) →
  train ≠ [] →
  batch_size kwargs ≠ 0 →
  makedirs E (checkpoint_dir kwargs) = Raise e
  ∨ (makedirs E (checkpoint_dir kwargs) = Ok tt ∧ makedirs E (log_path kwargs) = Raise e) →
  (__init__ E word_to_idx train val kwargs w).1 = Raise e.
Proof.
  intros [start H1] [null H2] [end_ H3] Htrain Hbs Hd.
  rewrite (init_steps _ _ _ _ _ _ _ _ H1 H2 H3 Htrain Hbs).
  destruct Hd as [Hd|[Hd1 Hd2]].
  - by rewrite Hd.
  - rewrite Hd1, (bind_lift_Ok _ _ _ _ eq_refl). by rewrite Hd2.
Qed.

Lemma _load_without_optimizer path w c :
  fs w !! path = Some (Pickled c) →
  optimizer (self_ w) = None →
  _load path w = (Raise AttributeError, set_model_params (ck_model_state_dict c) w).
Proof.
  intros Hf Ho. unfold _load.
  erewrite (bind_Ok _ _ c); [|unfold torch_load; by rewrite Hf].
  rewrite bind_modify. erewrite bind_Raise; [done|].
  unfold get_optimizer. simpl. by rewrite Ho.
Qed.

Lemma chosen_optimizer_Some kwargs θ :
  update_rule kwargs = "adam"%string ∨ update_rule kwargs = "rmsprop"%string →
  ∃ kind,
    chosen_optimizer E kwargs θ = Some (kind, optim_init E kind (learning_rate kwargs) θ)
    ∧ (kind = Adam ↔ update_rule kwargs = "adam"%string).
Proof.
  intros Hrule. unfold chosen_optimizer.
  destruct (bool_decide_reflect (update_rule kwargs = "adam"%string)) as [Ha|Ha].
  - exists Adam. by split.
  - destruct Hrule as [?|Hr]; [done|]. rewrite (bool_decide_true _ Hr).
    exists RMSprop. split; [done|]. split; [done|]. intros ?. done.
Qed.

(** X8. What a constructor that returned has found: the three reserved
    tokens in the vocabulary, a training set that is not empty, a batch
    size that is not zero, the two directories there or made, a summary
    writer that opened, and, if a checkpoint path was given, a file that
    unpickles and an optimiser name that is ["adam"] or ["rmsprop"]. *)
Theorem init_returns_only_if (word_to_idx : gmap string Z) (train : list example)
    (val : list (feature * Z)) (kwargs : config) (w : world) :
  returns (__init__ E word_to_idx train val kwargs w).1 →
  is_Some (word_to_idx !! "<START>"%string)
  ∧ is_Some (word_to_idx !! "<NULL>"%string)
  ∧ is_Some (word_to_idx !! "<END>"%string)
  ∧ train ≠ []
  ∧ batch_size kwargs ≠ 0
  ∧ makedirs E (checkpoint_dir kwargs) = Ok tt
  ∧ makedirs E (log_path kwargs) = Ok tt
  ∧ summary_writer E (log_path kwargs) = Ok tt
  ∧ match checkpoint kwargs with
    | None => True
    | Some path =>
      (∃ c, fs w !! path = Some (Pickled c))
      ∧ (update_rule kwargs = "adam"%string ∨ update_rule kwargs = "rmsprop"%string)
    end.
Proof.
  intros [u Hret].
  assert (∀ e, (__init__ E word_to_idx train val kwargs w).1 ≠ Raise e) as Hok
    by (intros e; by rewrite Hret).
  assert (∀ e, __init__ E word_to_idx train val kwargs w ≠ (Raise e, w)) as Hok'.
  { intros e He. apply (Hok e). by rewrite He. }
  destruct (word_to_idx !! "<START>"%string) as [start|] eqn:H1.
  2:{ destruct (init_early_error word_to_idx train val kwargs w) as (e & He & _);
        [by left|by apply Hok' in He]. }
  destruct (word_to_idx !! "<NULL>"%string) as [null|] eqn:H2.
  2:{ destruct (init_early_error word_to_idx train val kwargs w) as (e & He & _);
        [by right; left|by apply Hok' in He]. }
  destruct (word_to_idx !! "<END>"%string) as [end_|] eqn:H3.
  2:{ destruct (init_early_error word_to_idx train val kwargs w) as (e & He & _);
        [by right; right; left|by apply Hok' in He]. }
  assert (train ≠ []) as Htrain.
  { intros ->. destruct (init_early_error word_to_idx [] val kwargs w) as (e & He & _);
      [by right; right; right; left|by apply Hok' in He]. }
  destruct (decide (batch_size kwargs = 0)) as [Hbs|Hbs].
  { destruct (init_early_error word_to_idx train val kwargs w) as (e & He & _);
      [by right; right; right; right|by apply Hok' in He]. }
  destruct (makedirs E (checkpoint_dir kwargs)) as [[]|e1] eqn:Hd1.
  2:{ exfalso. apply (Hok e1). apply init_makedirs_error; rewrite ?H1, ?H2, ?H3; eauto. }
  destruct (makedirs E (log_path kwargs)) as [[]|e2] eqn:Hd2.
  2:{ exfalso. apply (Hok e2). apply init_makedirs_error; rewrite ?H1, ?H2, ?H3; eauto. }
  do 7 (split; [by eauto|]).
  rewrite (init_prefix _ _ _ _ _ _ _ _ H1 H2 H3 Htrain Hbs Hd1 Hd2) in Hret.
  set (w1 := set_self _ w) in Hret.
  apply (f_equal (λ r, ∃ x, r = Ok x)) in Hret.
  assert (∃ x, (Ok u : result unit) = Ok x) as Hu by (by eexists).
  rewrite <-Hret in Hu. clear Hret. destruct Hu as [x Hx].
  unfold mbind, py_bind in Hx.
  destruct (checkpoint kwargs) as [path|].
  - destruct (fs w !! path) as [[c|e]|] eqn:Hf.
    + destruct (chosen_optimizer E kwargs (model_params w)) as [o|] eqn:Ho.
      * destruct (_load_Ok path w1 c o Hf eq_refl) as (w' & Hload & _).
        rewrite Hload in Hx. simpl in Hx.
        split; [by destruct (summary_writer E (log_path kwargs)) as [[]|]|].
        split; [by eexists|].
        unfold chosen_optimizer in Ho. repeat case_bool_decide; auto. done.
      * by rewrite (_load_without_optimizer path w1 c Hf eq_refl) in Hx.
    + rewrite (_load_fails path w1) in Hx by (right; by eexists). done.
    + rewrite (_load_fails path w1) in Hx by (by left). done.
  - simpl in Hx. split; [|done].
    by destruct (summary_writer E (log_path kwargs)) as [[]|].
Qed.

(** X10. A fresh start. With the three reserved tokens in the
    vocabulary, a training set that is not empty, a batch size that is not
    zero, the two directories there or made, a summary writer that opens
    and no checkpoint, the constructor returns, whatever the optimiser
    name is. The solver holds
    the ids of the vocabulary, the configuration and the data sets as
    passed, the optimiser that the name selects (none for an unknown name)
    and [start_iter = 1]; the parameters of the model, the files and the
    log are untouched. *)
Theorem init_fresh (word_to_idx : gmap string Z) (train : list example)
    (val : list (feature * Z)) (kwargs : config) (w : world) :
  is_Some (word_to_idx !! "<START>"%string) →
  is_Some (word_to_idx !! "<NULL>"%string) →
  is_Some (word_to_idx !! "<END>"%string) →
  train ≠ [] →
  batch_size kwargs ≠ 0 →
  makedirs E (checkpoint_dir kwargs) = Ok tt →
  makedirs E (log_path kwargs) = Ok tt →
  summary_writer E (log_path kwargs) = Ok tt →
  checkpoint kwargs = None →
  ∃ w',
    __init__ E word_to_idx train val kwargs w = (Ok tt, w')
    ∧ self_ w'
      = Solver kwargs (word_to_idx !!! "<START>"%string)
          (word_to_idx !!! "<NULL>"%string) (word_to_idx !!! "<END>"%string) train val
          (chosen_optimizer E kwargs (model_params w)) (Some 1%Z) None
    ∧ model_params w' = model_params w
    ∧ fs w' = fs w
    ∧ forward_log w' = forward_log w.
Proof.
  intros [start H1] [null H2] [end_ H3] Htrain Hbs Hd1 Hd2 Hsw Hck.
  rewrite (init_prefix _ _ _ _ _ _ _ _ H1 H2 H3 Htrain Hbs Hd1 Hd2), Hck, Hsw.
  rewrite !(lookup_total_correct _ _ _ H1), !(lookup_total_correct _ _ _ H2),
    !(lookup_total_correct _ _ _ H3).
  rewrite bind_modify. eexists. split; [reflexivity|]. done.
Qed.

(** X11. A resumed start. With, in addition, a checkpoint path whose file
    holds a checkpoint as [_save] writes it and an optimiser name that is
    ["adam"] or ["rmsprop"], the constructor returns; the model holds the
    parameters of the checkpoint, the optimiser is of the kind the name
    selects and holds the optimiser state of the checkpoint, and
    [start_iter] is the iteration of the checkpoint plus one. The files
    and the log are untouched. *)
Theorem init_resume (word_to_idx : gmap string Z) (train : list example)
    (val : list (feature * Z)) (kwargs : config) (path : string)
    (c : checkpoint_file) (w : world) :
  is_Some (word_to_idx !! "<START>"%string) →
  is_Some (word_to_idx !! "<NULL>"%string) →
  is_Some (word_to_idx !! "<END>"%string) →
  train ≠ [] →
  batch_size kwargs ≠ 0 →
  makedirs E (checkpoint_dir kwargs) = Ok tt →
  makedirs E (log_path kwargs) = Ok tt →
  summary_writer E (log_path kwargs) = Ok tt →
  update_rule kwargs = "adam"%string ∨ update_rule kwargs = "rmsprop"%string →
  checkpoint kwargs = Some path →
  fs w !! path = Some (Pickled c) →
  ∃ w' kind,
    __init__ E word_to_idx train val kwargs w = (Ok tt, w')
    ∧ (kind = Adam ↔ update_rule kwargs = "adam"%string)
    ∧ self_ w'
      = Solver kwargs (word_to_idx !!! "<START>"%string)
          (word_to_idx !!! "<NULL>"%string) (word_to_idx !!! "<END>"%string) train val
          (Some (kind, ck_optimizer_state_dict c)) (Some (ck_iteration c + 1)%Z) None
    ∧ model_params w' = ck_model_state_dict c
    ∧ fs w' = fs w
    ∧ forward_log w' = forward_log w.
Proof.
  intros [start H1] [null H2] [end_ H3] Htrain Hbs Hd1 Hd2 Hsw Hrule Hck Hf.
  rewrite (init_prefix _ _ _ _ _ _ _ _ H1 H2 H3 Htrain Hbs Hd1 Hd2), Hck, Hsw.
  rewrite !(lookup_total_correct _ _ _ H1), !(lookup_total_correct _ _ _ H2),
    !(lookup_total_correct _ _ _ H3).
  destruct (chosen_optimizer_Some kwargs (model_params w) Hrule) as (kind & -> & Hkind).
  set (w1 := set_self _ w).
  assert (_load path w1
          = (Ok tt, set_self (Solver kwargs start null end_ train val
                                (Some (kind, ck_optimizer_state_dict c))
                                (Some (ck_iteration c + 1)%Z) None)
                      (set_model_params (ck_model_state_dict c) w))) as Hload.
  { unfold _load.
    erewrite (bind_Ok _ _ c);
      [|unfold torch_load; change (fs w1) with (fs w); by rewrite Hf].
    rewrite bind_modify. erewrite (bind_get_optimizer _ _) by reflexivity.
    by rewrite bind_modify. }
  rewrite (bind_Ok _ _ _ _ _ Hload). eexists _, kind. split; [reflexivity|]. done.
Qed.

(** X12. A checkpoint together with an unknown optimiser name: when the
    constructor gets as far as the load and the file holds a checkpoint,
    it raises an [AttributeError] out of [_load], after line 108 has
    already put the parameters of the checkpoint into the model;
    [start_iter] is not set. *)
Theorem init_unknown_optimizer_with_checkpoint (word_to_idx : gmap string Z)
    (train : list example) (val : list (feature * Z)) (kwargs : config)
    (path : string) (c : checkpoint_file) (w : world) :
  is_Some (word_to_idx !! "<START>"%string) →
  is_Some (word_to_idx !! "<NULL>"%string) →
  is_Some (word_to_idx !! "<END>"%string) →
  train ≠ [] →
  batch_size kwargs ≠ 0 →
  makedirs E (checkpoint_dir kwargs) = Ok tt →
  makedirs E (log_path kwargs) = Ok tt →
  update_rule kwargs ≠ "adam"%string →
  update_rule kwargs ≠ "rmsprop"%string →
  checkpoint kwargs = Some path →
  fs w !! path = Some (Pickled c) →
  ∃ w', __init__ E word_to_idx train val kwargs w = (Raise AttributeError, w')
        ∧ model_params w' = ck_model_state_dict c
        ∧ optimizer (self_ w') = None
        ∧ start_iter (self_ w') = None.
Proof.
  intros [start H1] [null H2] [end_ H3] Htrain Hbs Hd1 Hd2 Hadam Hrms Hck Hf.
  rewrite (init_prefix _ _ _ _ _ _ _ _ H1 H2 H3 Htrain Hbs Hd1 Hd2), Hck.
  assert (chosen_optimizer E kwargs (model_params w) = None) as Ho.
  { unfold chosen_optimizer. by rewrite !bool_decide_false. }
  rewrite Ho. eexists. split.
  - erewrite bind_Raise; [reflexivity|]. by apply _load_without_optimizer.
  - done.
Qed.

(** X13. Without one of the reserved tokens the constructor raises a
    [KeyError], whatever the other arguments are, before it has touched
    the model, the files, the optimiser or [start_iter]. *)
Theorem init_missing_token (word_to_idx : gmap string Z) (train : list example)
    (val : list (feature * Z)) (kwargs : config) (w : world) :
  word_to_idx !! "<START>"%string = None ∨ word_to_idx !! "<NULL>"%string = None
  ∨ word_to_idx !! "<END>"%string = None →
  ∃ w', __init__ E word_to_idx train val kwargs w = (Raise KeyError, w')
        ∧ model_params w' = model_params w
        ∧ fs w' = fs w
        ∧ optimizer (self_ w') = optimizer (self_ w)
        ∧ start_iter (self_ w') = start_iter (self_ w).
Proof.
  intros H.
  destruct (init_early_error word_to_idx train val kwargs w) as (e & He & Hkey).
  { destruct H as [?|[?|?]]; auto. }
  apply Hkey in H as ->. by exists w.
Qed.
End Constructor.

Lemma init_returns_only_if_witness :
  is_Some (demo_vocab !! "<START>"%string)
  ∧ is_Some (demo_vocab !! "<NULL>"%string)
  ∧ is_Some (demo_vocab !! "<END>"%string)
  ∧ scenario_batch ≠ []
  ∧ batch_size resume_config ≠ 0
  ∧ makedirs demo_externals (checkpoint_dir resume_config) = Ok tt
  ∧ makedirs demo_externals (log_path resume_config) = Ok tt
  ∧ summary_writer demo_externals (log_path resume_config) = Ok tt
  ∧ match checkpoint resume_config with
    | None => True
    | Some path =>
      (∃ c, fs saved_world !! path = Some (Pickled c))
      ∧ (update_rule resume_config = "adam"%string
         ∨ update_rule resume_config = "rmsprop"%string)
    end.
Proof.
  apply (init_returns_only_if demo_externals demo_vocab scenario_batch [] resume_config
           saved_world).
  eexists. reflexivity.
Defined.

Lemma init_fresh_witness :
  ∃ w',
    __init__ demo_externals demo_vocab scenario_batch [] default_config fresh_world
    = (Ok tt, w')
    ∧ self_ w'
      = Solver default_config (demo_vocab !!! "<START>"%string)
          (demo_vocab !!! "<NULL>"%string) (demo_vocab !!! "<END>"%string)
          scenario_batch []
          (chosen_optimizer demo_externals default_config (model_params fresh_world))
          (Some 1%Z) None
    ∧ model_params w' = model_params fresh_world
    ∧ fs w' = fs fresh_world
    ∧ forward_log w' = forward_log fresh_world.
Proof.
  apply (init_fresh demo_externals demo_vocab scenario_batch [] default_config
           fresh_world).
  - by eexists.
  - by eexists.
  - by eexists.
  - discriminate.
  - simpl. lia.
  - reflexivity.
  - reflexivity.
  - reflexivity.
  - reflexivity.
Defined.

Lemma init_resume_witness :
  ∃ w' kind,
    __init__ demo_externals demo_vocab scenario_batch [] resume_config saved_world
    = (Ok tt, w')
    ∧ (kind = Adam ↔ update_rule resume_config = "adam"%string)
    ∧ self_ w'
      = Solver resume_config (demo_vocab !!! "<START>"%string)
          (demo_vocab !!! "<NULL>"%string) (demo_vocab !!! "<END>"%string)
          scenario_batch []
          (Some (kind, ck_optimizer_state_dict saved_checkpoint))
          (Some (ck_iteration saved_checkpoint + 1)%Z) None
    ∧ model_params w' = ck_model_state_dict saved_checkpoint
    ∧ fs w' = fs saved_world
    ∧ forward_log w' = forward_log saved_world.
Proof.
  apply (init_resume demo_externals demo_vocab scenario_batch [] resume_config
           "./model/100.pth"%string saved_checkpoint saved_world).
  - by eexists.
  - by eexists.
  - by eexists.
  - discriminate.
  - simpl. lia.
  - reflexivity.
  - reflexivity.
  - reflexivity.
  - left. reflexivity.
  - reflexivity.
  - reflexivity.
Defined.

Lemma init_unknown_optimizer_with_checkpoint_witness :
  ∃ w', __init__ demo_externals demo_vocab scenario_batch [] sgd_resume_config saved_world
        = (Raise AttributeError, w')
        ∧ model_params w' = ck_model_state_dict saved_checkpoint
        ∧ optimizer (self_ w') = None
        ∧ start_iter (self_ w') = None.
Proof.
  apply (init_unknown_optimizer_with_checkpoint demo_externals demo_vocab scenario_batch
           [] sgd_resume_config "./model/100.pth"%string saved_checkpoint saved_world).
  - by eexists.
  - by eexists.
  - by eexists.
  - discriminate.
  - simpl. lia.
  - reflexivity.
  - reflexivity.
  - discriminate.
  - discriminate.
  - reflexivity.
  - reflexivity.
Defined.

Lemma init_missing_token_witness :
  ∃ w', __init__ demo_externals ∅ [] [] default_config fresh_world = (Raise KeyError, w')
        ∧ model_params w' = model_params fresh_world
        ∧ fs w' = fs fresh_world
        ∧ optimizer (self_ w') = optimizer (self_ fresh_world)
        ∧ start_iter (self_ w') = start_iter (self_ fresh_world).
Proof.
  apply (init_missing_token demo_externals ∅ [] [] default_config fresh_world).
  left. reflexivity.
Defined.

(** * More about evaluation and the iteration handler *)

Lemma chunks_fuel_sublist {A} n : ∀ fuel (l : list A),
  mjoin (chunks_fuel fuel n l) `sublist_of` l.
Proof.
  induction fuel as [|fuel IH]; intros l; [apply sublist_nil_l|].
  destruct l as [|x l]; [done|].
  change (take n (x :: l) ++ mjoin (chunks_fuel fuel n (drop n (x :: l)))
          `sublist_of` x :: l).
  rewrite <-(take_drop n (x :: l)) at 3. by apply sublist_app.
Qed.

Lemma zip_fst_sublist {A B} (l : list A) (k : list B) : (zip l k).*1 `sublist_of` l.
Proof.
  revert k. induction l as [|x l IH]; intros [|y k]; simpl;
    [done|done|apply sublist_nil_l|]. by apply sublist_skip.
Qed.

Lemma _save_without_optimizer epoch iteration l w :
  optimizer (self_ w) = None → _save epoch iteration l w = (Raise AttributeError, w).
Proof.
  intros Ho. unfold _save. rewrite bind_get.
  erewrite bind_Raise; [done|]. unfold get_optimizer. by rewrite Ho.
Qed.

Section ValidationRun.
Context (E : externals).

Lemma run_batches_val θ (cs : list (list (feature * Z))) : ∀ st w,
  model_params w = θ →
  run_batches E (default_collate <$> cs) st w
  = (Ok (EngineState (es_captions st ++ mjoin (batch_captions E θ <$> cs)) (es_scores st)),
     w).
Proof.
  induction cs as [|c cs IH]; intros st w Hθ.
  { simpl. rewrite app_nil_r. by destruct st. }
  rewrite fmap_cons. cbn [run_batches].
  rewrite (bind_lift_Ok _ _ (PairBatch c.*1 c.*2)) by done.
  erewrite (bind_Ok _ _ _ w w); [|reflexivity].
  rewrite IH by done. cbn [es_captions es_scores]. rewrite Hθ.
  by rewrite fmap_cons, <-app_assoc.
Qed.

(** X14. The validation run of [test]: the scores are [evaluate] of the
    captions of all validation batches in loader order, each batch
    contributing its image ids zipped with the decoded beam search output;
    captions of an earlier run are not carried over, the world is left as
    it was, and the image ids of the captions are validation image ids in
    the order of the data set. *)
Theorem validation_scores (arg : test_arg) (w : world) :
  let captions :=
    mjoin (batch_captions E (model_params w)
             <$> chunks (batch_size (cfg (self_ w))) (val_dataset (self_ w))) in
  test E arg true w = (Ok (Some (evaluate E captions)), w)
  ∧ captions.*1 `sublist_of` (val_dataset (self_ w)).*2.
Proof.
  intros captions. split.
  - unfold test. rewrite bind_get. unfold test_engine_run, val_loader.
    erewrite (bind_Ok _ _ _ w w).
    2:{ erewrite (bind_Ok _ _ _ w w); [reflexivity|].
        by apply (run_batches_val (model_params w)). }
    done.
  - assert (∀ cs : list (list (feature * Z)),
              (mjoin (batch_captions E (model_params w) <$> cs)).*1
              `sublist_of` (mjoin cs).*2) as Hcs.
    { induction cs as [|c cs IH]; [apply sublist_nil_l|].
      rewrite fmap_cons. simpl. rewrite !fmap_app. apply sublist_app; [|done].
      apply zip_fst_sublist. }
    etrans; [apply Hcs|]. apply (fmap_sublist snd), chunks_fuel_sublist.
Qed.

Lemma run_batches_keeps loader : ∀ st, keeps eq (run_batches E loader st).
Proof.
  induction loader as [|b loader IH]; intros st; [keeps_pure|].
  cbn [run_batches]. apply keeps_bind; [apply _|keeps_pure|]. intros batch.
  apply keeps_bind; [apply _| |by intros ?].
  unfold _test. destruct batch; keeps_pure.
Qed.

(** X15. [test] with [is_validation=False] on a data set: whatever
    happens, [test_loader] has been set and nothing else has changed; on a
    data set without items the call returns [None], on every other one it
    raises. *)
Theorem test_on_dataset_outcome (d : dataset) (w : world) :
  let empty := match d with PairData items => items = [] | TripleData items => items = [] end in
  (test E (ArgDataset d) false w).2 = set_self (set_test_loader d (self_ w)) w
  ∧ (empty → (test E (ArgDataset d) false w).1 = Ok None)
  ∧ (¬ empty → ∃ e, (test E (ArgDataset d) false w).1 = Raise e).
Proof.
  intros empty. split; [|split].
  - unfold test. rewrite bind_modify, bind_get.
    match goal with
    | |- (?m ?w0).2 = _ => cut (keeps eq m); [intros Hk; symmetry; apply Hk|]
    end.
    apply keeps_bind; [apply _| |intros ?; keeps_pure].
    unfold test_engine_run.
    apply keeps_bind; [apply _|apply run_batches_keeps|intros ?; keeps_pure].
  - intros Hempty. unfold test. rewrite bind_modify, bind_get.
    assert (pack_collate d (batch_size (cfg (self_ w))) = []) as Hl.
    { unfold empty in Hempty. destruct d as [items|items]; by rewrite Hempty. }
    cbn [self_ set_self cfg set_test_loader]. by rewrite Hl.
  - intros Hne. destruct (test_dataset_raises E d w) as (e & w' & ->); [|by exists e].
    by destruct d as [[|??]|[|??]].
Qed.
End ValidationRun.

Section IterationHandler.
Context (E : externals).

(** X16. The iteration handler returns exactly when both intervals are
    not zero and, at an iteration where a snapshot is due, the solver has
    an optimiser; a zero interval gives a [ZeroDivisionError]. Whether it
    returns or raises, it leaves the solver, the model and the log alone,
    changes no file but the checkpoint of its iteration, and changes no
    file at all when it raises. *)
Theorem iteration_handler_outcome (epoch iteration : Z) (output : R * Q) (w : world) :
  let r := training_end_iter_handler E epoch iteration output w in
  let s := cfg (self_ w) in
  (returns r.1
   ↔ eval_every s ≠ 0%Z ∧ snapshot_steps s ≠ 0%Z
     ∧ ((iteration `mod` snapshot_steps s = 0)%Z → is_Some (optimizer (self_ w))))
  ∧ (r.1 = Raise ZeroDivisionError ↔ eval_every s = 0%Z ∨ snapshot_steps s = 0%Z)
  ∧ self_ r.2 = self_ w ∧ model_params r.2 = model_params w
  ∧ forward_log r.2 = forward_log w
  ∧ (∀ p, p ≠ checkpoint_path (checkpoint_dir s) iteration → fs r.2 !! p = fs w !! p)
  ∧ (¬ returns r.1 → fs r.2 = fs w).
Proof.
  intros r s. unfold r, training_end_iter_handler. rewrite bind_get. fold s.
  unfold py_mod.
  destruct (bool_decide_reflect (eval_every s = 0%Z)) as [He|He].
  { simpl. split; [split; [by intros [? ?]|by intros [? _]]|].
    split; [split; [by left|done]|]. done. }
  erewrite (bind_lift_Ok _ _ _ _ eq_refl).
  erewrite (bind_Ok _ _ tt w w).
  2:{ case_bool_decide; [|done].
      destruct (test_validation E (ArgLoader (val_loader (self_ w))) w) as (sc & Ht & _).
      by erewrite (bind_Ok _ _ _ _ _ Ht). }
  destruct (bool_decide_reflect (snapshot_steps s = 0%Z)) as [Hs|Hs].
  { simpl. split; [split; [by intros [? ?]|by intros (_ & ? & _)]|].
    split; [split; [by right|done]|]. done. }
  erewrite (bind_lift_Ok _ _ _ _ eq_refl).
  case_bool_decide as Hdiv.
  - destruct (optimizer (self_ w)) as [o|] eqn:Ho.
    + rewrite (_save_Ok _ _ _ _ o Ho). simpl.
      split; [split; [done|by eexists]|].
      split; [split; [done|by intros [?|?]]|].
      repeat split; try done.
      * intros p Hp. by apply lookup_insert_ne.
      * intros Hn. exfalso. apply Hn. by eexists.
    + rewrite (_save_without_optimizer _ _ _ _ Ho). simpl.
      split; [split; [by intros [? ?]|]|].
      { intros (_ & _ & Hopt). by destruct (Hopt Hdiv). }
      split; [split; [done|by intros [?|?]]|]. done.
  - simpl. split; [split; [done|by eexists]|].
    split; [split; [done|by intros [?|?]]|]. done.
Qed.
End IterationHandler.


(** * The inverse vocabulary *)

Lemma idx_to_word_snoc items w i :
  idx_to_word (items ++ [(w, i)]) = <[i := w]> (idx_to_word items).
Proof. unfold idx_to_word. by rewrite foldl_app. Qed.

Lemma idx_to_word_lookup_Some items : ∀ i w,
  idx_to_word items !! i = Some w → (w, i) ∈ items.
Proof.
  induction items as [|[w0 i0] items IH] using rev_ind; intros i w H; [done|].
  rewrite idx_to_word_snoc in H. apply elem_of_app.
  destruct (decide (i0 = i)) as [->|Hi].
  - rewrite lookup_insert_eq in H. injection H as ->. right. by apply list_elem_of_singleton.
  - rewrite lookup_insert_ne in H by done. left. by apply IH.
Qed.

Lemma idx_to_word_lookup_is_Some items : ∀ w i,
  (w, i) ∈ items → is_Some (idx_to_word items !! i).
Proof.
  induction items as [|[w0 i0] items IH] using rev_ind; intros w i H;
    [by apply elem_of_nil in H|].
  rewrite idx_to_word_snoc. destruct (decide (i0 = i)) as [->|Hi].
  - rewrite lookup_insert_eq. by eexists.
  - rewrite lookup_insert_ne by done. apply elem_of_app in H as [H|H]; [by eapply IH|].
    apply list_elem_of_singleton in H. by injection H as -> ->.
Qed.

Lemma NoDup_snd_inj {A B} (l : list (A * B)) x1 x2 y :
  NoDup l.*2 → (x1, y) ∈ l → (x2, y) ∈ l → x1 = x2.
Proof.
  induction l as [|[x0 y0] l IH]; [by intros _ ?%elem_of_nil|].
  rewrite fmap_cons. intros [Hy Hl]%NoDup_cons [H1|H1]%elem_of_cons [H2|H2]%elem_of_cons.
  - congruence.
  - injection H1 as -> ->. exfalso. apply Hy. simpl.
    apply list_elem_of_fmap. by exists (x2, y0).
  - injection H2 as -> ->. exfalso. apply Hy. simpl.
    apply list_elem_of_fmap. by exists (x1, y0).
  - by apply IH.
Qed.

Lemma size_list_to_set_le (l : list Z) : size (list_to_set l : gset Z) ≤ length l.
Proof.
  induction l as [|x l IH]; [done|].
  simpl. destruct (decide (x ∈ (list_to_set l : gset Z))) as [Hx|Hx].
  - rewrite (subseteq_union_1_L {[x]}) by set_solver. lia.
  - rewrite size_union by set_solver. rewrite size_singleton. lia.
Qed.

(** X17. [idx_to_word], built from the items of [word_to_idx] in any
    order, maps an index only to a word that has this index, and has an
    entry for every index in use, so it is never larger than
    [word_to_idx]. When no two words share an index it is the inverse of
    [word_to_idx] and has the same size. *)
Theorem idx_to_word_inverse (word_to_idx : gmap string Z) (items : list (string * Z)) :
  items ≡ₚ map_to_list word_to_idx →
  (∀ i w, idx_to_word items !! i = Some w → word_to_idx !! w = Some i)
  ∧ (∀ w i, word_to_idx !! w = Some i →
       ∃ w', idx_to_word items !! i = Some w' ∧ word_to_idx !! w' = Some i)
  ∧ size (idx_to_word items) ≤ size word_to_idx
  ∧ (NoDup items.*2 →
       size (idx_to_word items) = size word_to_idx
       ∧ ∀ w i, word_to_idx !! w = Some i → idx_to_word items !! i = Some w).
Proof.
  intros Hitems.
  assert (∀ w i, (w, i) ∈ items ↔ word_to_idx !! w = Some i) as Hin.
  { intros w i. rewrite Hitems. apply elem_of_map_to_list. }
  assert (dom (idx_to_word items) ≡@{gset Z} list_to_set items.*2) as Hdom.
  { intros i. rewrite elem_of_dom, elem_of_list_to_set, list_elem_of_fmap. split.
    - intros [w Hw]. exists (w, i). split; [done|]. by apply idx_to_word_lookup_Some.
    - intros ([w i'] & -> & Hp). by eapply idx_to_word_lookup_is_Some. }
  assert (length items = size word_to_idx) as Hlen.
  { by rewrite Hitems, length_map_to_list. }
  split; [|split; [|split]].
  - intros i w Hw. by apply Hin, idx_to_word_lookup_Some.
  - intros w i Hw. apply Hin in Hw.
    destruct (idx_to_word_lookup_is_Some _ _ _ Hw) as [w' Hw']. exists w'.
    split; [done|]. by apply Hin, idx_to_word_lookup_Some.
  - rewrite <-size_dom, Hdom, <-Hlen, <-(length_fmap snd items).
    apply size_list_to_set_le.
  - intros Hnd. split.
    + by rewrite <-size_dom, Hdom, size_list_to_set, length_fmap.
    + intros w i Hw. apply Hin in Hw.
      destruct (idx_to_word_lookup_is_Some _ _ _ Hw) as [w' Hw']. rewrite Hw'.
      f_equal. apply idx_to_word_lookup_Some in Hw'. by eapply NoDup_snd_inj.
Qed.

Lemma idx_to_word_inverse_witness :
  (∀ i w, idx_to_word (map_to_list demo_vocab) !! i = Some w → demo_vocab !! w = Some i)
  ∧ (∀ w i, demo_vocab !! w = Some i →
       ∃ w', idx_to_word (map_to_list demo_vocab) !! i = Some w'
             ∧ demo_vocab !! w' = Some i)
  ∧ size (idx_to_word (map_to_list demo_vocab)) ≤ size demo_vocab
  ∧ (NoDup (map_to_list demo_vocab).*2 →
       size (idx_to_word (map_to_list demo_vocab)) = size demo_vocab
       ∧ ∀ w i, demo_vocab !! w = Some i →
           idx_to_word (map_to_list demo_vocab) !! i = Some w).
Proof. apply (idx_to_word_inverse demo_vocab (map_to_list demo_vocab)). reflexivity. Defined.


(** * The training run *)

Lemma chunks_fuel_Forall {A} (P : A → Prop) n : n ≠ 0 → ∀ fuel (l : list A),
  Forall P l → Forall (λ c, c ≠ [] ∧ Forall P c) (chunks_fuel fuel n l).
Proof.
  intros Hn. induction fuel as [|fuel IH]; intros l Hl; [constructor|].
  destruct l as [|x l]; [constructor|].
  change (Forall (λ c, c ≠ [] ∧ Forall P c)
            (take n (x :: l) :: chunks_fuel fuel n (drop n (x :: l)))).
  constructor.
  - split; [by destruct n|by apply Forall_take].
  - by apply IH, Forall_drop.
Qed.

Lemma chunks_fuel_length {A} n : ∀ fuel (l l' : list A),
  length l = length l' →
  length (chunks_fuel fuel n l) = length (chunks_fuel fuel n l').
Proof.
  induction fuel as [|fuel IH]; intros l l' Hlen; [done|].
  destruct l as [|x l], l' as [|x' l']; [done..|].
  change (S (length (chunks_fuel fuel n (drop n (x :: l))))
          = S (length (chunks_fuel fuel n (drop n (x' :: l'))))).
  f_equal. apply IH. by rewrite !length_drop, Hlen.
Qed.

Lemma chunks_length_perm {A} n (l l' : list A) :
  l ≡ₚ l' → length (chunks n l) = length (chunks n l').
Proof.
  intros Hp. unfold chunks. rewrite (Permutation_length Hp).
  apply chunks_fuel_length, Permutation_length, Hp.
Qed.

Lemma checkpoints_written_refl dir epoch_of files :
  checkpoints_written dir (λ _, False) epoch_of files files.
Proof. split; [by intros k []|done]. Qed.

Lemma checkpoints_written_trans dir (S1 S2 : Z → Prop) epoch_of f0 f1 f2 :
  (∀ k, S1 k → ¬ S2 k) →
  checkpoints_written dir S1 epoch_of f0 f1 →
  checkpoints_written dir S2 epoch_of f1 f2 →
  checkpoints_written dir (λ k, S1 k ∨ S2 k) epoch_of f0 f2.
Proof.
  intros Hdis [Hin1 Hout1] [Hin2 Hout2]. split.
  - intros k [Hk|Hk]; [|by apply Hin2].
    rewrite Hout2; [by apply Hin1|].
    intros k' Hk' Heq%checkpoint_path_inj. subst k'. by eapply Hdis.
  - intros p Hp. rewrite Hout2, Hout1; [done|..]; intros k Hk; apply Hp; auto.
Qed.

Lemma checkpoints_written_iff dir (S1 S2 : Z → Prop) epoch_of f0 f1 :
  (∀ k, S1 k ↔ S2 k) →
  checkpoints_written dir S1 epoch_of f0 f1 →
  checkpoints_written dir S2 epoch_of f0 f1.
Proof.
  intros Hiff [Hin Hout]. split.
  - intros k Hk. by apply Hin, Hiff.
  - intros p Hp. apply Hout. intros k Hk. by apply Hp, Hiff.
Qed.

Section TrainingRun.
Context (M : model_api) (E : externals).

Lemma training_start_handler_Ok w first :
  start_iter (self_ w) = Some first →
  train_loader_len (self_ w) ≠ 0 →
  training_start_handler w = (Ok tt, w).
Proof.
  intros Hs Hn. unfold training_start_handler.
  assert (get_start_iter w = (Ok first, w)) as Hget
    by (unfold get_start_iter; by rewrite Hs).
  rewrite !(bind_Ok _ _ _ _ _ Hget), bind_get. unfold py_floordiv.
  rewrite bool_decide_false by lia. done.
Qed.

Lemma train_iteration epoch k c w o :
  optimizer (self_ w) = Some o →
  eval_every (cfg (self_ w)) ≠ 0%Z →
  snapshot_steps (cfg (self_ w)) ≠ 0%Z →
  good_batch (V M) (_null (self_ w)) c →
  ∃ b output w1 w2 o2,
    pack_collate_fn c = Ok b
    ∧ _train M E b w = (Ok output, w1)
    ∧ training_end_iter_handler E epoch k output w1 = (Ok tt, w2)
    ∧ same_settings (self_ w) (self_ w2)
    ∧ optimizer (self_ w2) = Some o2
    ∧ checkpoints_written (checkpoint_dir (cfg (self_ w)))
        (λ k', k' = k ∧ (k `mod` snapshot_steps (cfg (self_ w)) = 0)%Z)
        (λ _ e, e = epoch) (fs w) (fs w2).
Proof.
  intros Ho He Hs [Hne Hall].
  assert (Forall (λ ex : example, 0 < length ex.1.2) c) as Hpos.
  { eapply Forall_impl; [exact Hall|]. simpl. lia. }
  assert (valid_batch (V M) (_null (self_ w)) c) as Hvalid.
  { eapply Forall_impl; [exact Hall|]. by intros ex [_ ?]. }
  assert (Exists (λ ex : example, 2 ≤ length ex.1.2) c) as Hlong.
  { destruct c as [|ex c]; [done|]. apply Forall_cons in Hall as [[? _] _]. by left. }
  pose proof (pack_collate_fn_Ok c Hne Hpos) as Hb.
  set (b := Collated _ _ _ _) in Hb.
  destruct (predicted_tokens_positive _ _ Hb Hlong) as [HT _].
  destruct (_train_cases M E c b w o Hb Hvalid Ho) as (Hsteps & _ & _ & Hret).
  assert (timesteps M (model_params w) b ≠ []) as Hnil.
  { intros Hnil. rewrite Hnil in Hsteps. change (length []) with 0 in Hsteps. lia. }
  specialize (Hret Hnil). clear Hnil Hsteps HT.
  set (w1 := trained M E b o w _) in *.
  match type of Hret with _ = (Ok ?out, _) => set (output := out) in Hret end.
  assert (same_settings (self_ w) (self_ w1)) as Hset.
  { unfold w1, trained. simpl. repeat split; try done. by rewrite Ho. }
  destruct Hset as (Hcfg & Hrest).
  pose proof (handler_effect E epoch k output w1 _ eq_refl) as Hh.
  rewrite Hcfg in Hh. specialize (Hh He Hs).
  eexists b, output, w1, _, _. split; [done|]. split; [done|]. split; [exact Hh|].
  case_bool_decide as Hdiv.
  - split; [by split|]. split; [reflexivity|]. split.
    + intros k' [-> _]. eexists. unfold snapshot. cbn [fs set_fs].
      rewrite Hcfg. rewrite lookup_insert_eq. done.
    + intros p Hp. unfold snapshot. cbn [fs set_fs]. rewrite Hcfg.
      rewrite lookup_insert_ne; [done|]. intros <-. by eapply Hp.
  - split; [by split|]. split; [reflexivity|]. split; [by intros k' [_ ?]|done].
Qed.

Lemma run_once_on_dataset_checkpoints epoch B cs : ∀ first w o,
  optimizer (self_ w) = Some o →
  eval_every (cfg (self_ w)) ≠ 0%Z →
  snapshot_steps (cfg (self_ w)) ≠ 0%Z →
  Forall (good_batch (V M) (_null (self_ w))) cs →
  ((epoch - 1) * B ≤ first)%Z →
  (first + Z.of_nat (length cs) ≤ epoch * B)%Z →
  ∃ w' o',
    run_once_on_dataset M E epoch first (pack_collate_fn <$> cs) w
    = (Ok (first + Z.of_nat (length cs))%Z, w')
    ∧ same_settings (self_ w) (self_ w')
    ∧ optimizer (self_ w') = Some o'
    ∧ checkpoints_written (checkpoint_dir (cfg (self_ w)))
        (λ k, (first < k ≤ first + Z.of_nat (length cs))%Z
              ∧ (k `mod` snapshot_steps (cfg (self_ w)) = 0)%Z)
        (λ k e, ((e - 1) * B < k ≤ e * B)%Z) (fs w) (fs w').
Proof.
  induction cs as [|c cs IH]; intros first w o Ho He Hs Hgood Hlo Hhi.
  { exists w, o. simpl. rewrite Z.add_0_r. split; [done|]. split; [done|].
    split; [done|]. eapply checkpoints_written_iff; [|apply checkpoints_written_refl].
    intros k. split; [done|]. lia. }
  apply Forall_cons in Hgood as [Hc Hgood].
  rewrite length_cons, Nat2Z.inj_succ in Hhi.
  destruct (train_iteration epoch (first + 1)%Z c w o Ho He Hs Hc)
    as (b & output & w1 & w2 & o2 & Hb & Htrain & Hhandler & Hset & Ho2 & Hfiles).
  pose proof Hset as (Hcfg & _ & Hnull & _).
  destruct (IH (first + 1)%Z w2 o2) as (w' & o' & Hrun & Hset' & Ho' & Hfiles');
    [done|by rewrite Hcfg..|by rewrite Hnull|lia|lia|].
  exists w', o'. split; [|split; [by etrans|split; [done|]]].
  - rewrite fmap_cons. cbn [run_once_on_dataset].
    rewrite (bind_lift_Ok _ _ _ _ Hb). cbv zeta.
    rewrite (bind_Ok _ _ _ _ _ Htrain), (bind_Ok _ _ _ _ _ Hhandler), Hrun.
    do 2 f_equal. rewrite length_cons, Nat2Z.inj_succ. lia.
  - rewrite Hcfg in Hfiles'.
    eapply checkpoints_written_iff;
      [|eapply checkpoints_written_trans; [|..|exact Hfiles']].
    + intros k. rewrite length_cons, Nat2Z.inj_succ. cbv beta.
      instantiate (1 := λ k, k = (first + 1)%Z
                             ∧ (k `mod` snapshot_steps (cfg (self_ w)) = 0)%Z).
      cbv beta. lia.
    + cbv beta. lia.
    + destruct Hfiles as [Hin Hout]. split.
      * intros k [-> Hk]. destruct (Hin (first + 1)%Z) as (c0 & Hc0 & Hit & Hep);
          [done|]. exists c0. split; [done|]. split; [done|]. rewrite Hep. lia.
      * intros p Hp. apply Hout. intros k [-> Hk]. apply Hp. done.
Qed.

Lemma run_epochs_checkpoints B orders : ∀ epoch w o,
  optimizer (self_ w) = Some o →
  eval_every (cfg (self_ w)) ≠ 0%Z →
  snapshot_steps (cfg (self_ w)) ≠ 0%Z →
  batch_size (cfg (self_ w)) ≠ 0 →
  trainable (V M) (_null (self_ w)) (train_dataset (self_ w)) →
  Forall (λ order, order ≡ₚ train_dataset (self_ w)) orders →
  B = train_loader_len (self_ w) →
  (0 ≤ epoch)%Z →
  ∃ w' o',
    run_epochs M E epoch (epoch * Z.of_nat B) orders w = (Ok tt, w')
    ∧ same_settings (self_ w) (self_ w')
    ∧ optimizer (self_ w') = Some o'
    ∧ checkpoints_written (checkpoint_dir (cfg (self_ w)))
        (λ k, (epoch * Z.of_nat B < k
               ≤ (epoch + Z.of_nat (length orders)) * Z.of_nat B)%Z
              ∧ (k `mod` snapshot_steps (cfg (self_ w)) = 0)%Z)
        (λ k e, ((e - 1) * Z.of_nat B < k ≤ e * Z.of_nat B)%Z) (fs w) (fs w').
Proof.
  induction orders as [|order orders IH]; intros epoch w o Ho He Hs Hbs Hdata Hperm HB Hep.
  { exists w, o. split; [done|]. split; [done|]. split; [done|].
    eapply checkpoints_written_iff; [|apply checkpoints_written_refl].
    intros k. split; [done|]. simpl. lia. }
  apply Forall_cons in Hperm as [Horder Hperm].
  set (cs := chunks (batch_size (cfg (self_ w))) order).
  assert (length cs = B) as Hlen.
  { rewrite HB. unfold cs, train_loader_len. by apply chunks_length_perm. }
  assert (Forall (good_batch (V M) (_null (self_ w))) cs) as Hgood.
  { apply chunks_fuel_Forall; [done|]. unfold trainable in Hdata. by rewrite Horder. }
  destruct (run_once_on_dataset_checkpoints (epoch + 1)%Z (Z.of_nat B) cs
              (epoch * Z.of_nat B)%Z w o Ho He Hs Hgood)
    as (w1 & o1 & Hrun & Hset & Ho1 & Hfiles); [lia|lia|].
  pose proof Hset as (Hcfg & _ & Hnull & _ & Htrain & _).
  destruct (IH (epoch + 1)%Z w1 o1) as (w' & o' & Hrun' & Hset' & Ho' & Hfiles');
    [done|by rewrite Hcfg..|by rewrite Hnull, Htrain|by rewrite Htrain|
     |lia|].
  { rewrite HB. unfold train_loader_len. by rewrite Hcfg, Htrain. }
  exists w', o'. split; [|split; [by etrans|split; [done|]]].
  - cbn [run_epochs]. cbv zeta. rewrite bind_get. unfold train_loader. fold cs.
    rewrite (bind_Ok _ _ _ _ _ Hrun). rewrite Hlen.
    replace (epoch * Z.of_nat B + Z.of_nat B)%Z with ((epoch + 1) * Z.of_nat B)%Z by lia.
    exact Hrun'.
  - rewrite Hcfg in Hfiles'. rewrite Hlen in Hfiles.
    eapply checkpoints_written_iff;
      [|eapply checkpoints_written_trans; [|exact Hfiles|exact Hfiles']].
    + intros k. rewrite length_cons, Nat2Z.inj_succ. cbv beta. nia.
    + cbv beta. nia.
Qed.

(** X18. A whole run of [train]. On a solver with an optimiser, a
    training set that is not empty and whose examples have at least two
    valid tokens, and intervals that are not zero, the run returns. It
    counts its iterations from 1 whatever [start_iter] is; afterwards the
    checkpoint file of every iteration divisible by [snapshot_steps], up
    to the number of epochs times the batches per epoch, holds a
    checkpoint of that iteration and of the epoch the iteration lies in,
    and no other file has changed: nothing is saved at the end of an
    epoch. The settings of the solver are kept. *)
Theorem train_checkpoints (orders : list (list example)) (w : world)
    (o : optimizer_kind * state_dict) (first : Z) :
  optimizer (self_ w) = Some o →
  start_iter (self_ w) = Some first →
  train_dataset (self_ w) ≠ [] →
  batch_size (cfg (self_ w)) ≠ 0 →
  eval_every (cfg (self_ w)) ≠ 0%Z →
  snapshot_steps (cfg (self_ w)) ≠ 0%Z →
  trainable (V M) (_null (self_ w)) (train_dataset (self_ w)) →
  Forall (λ order, order ≡ₚ train_dataset (self_ w)) orders →
  let per_epoch := Z.of_nat (train_loader_len (self_ w)) in
  ∃ w',
    train M E orders w = (Ok tt, w')
    ∧ same_settings (self_ w) (self_ w')
    ∧ checkpoints_written (checkpoint_dir (cfg (self_ w)))
        (λ k, (1 ≤ k ≤ Z.of_nat (length orders) * per_epoch)%Z
              ∧ (k `mod` snapshot_steps (cfg (self_ w)) = 0)%Z)
        (λ k epoch, ((epoch - 1) * per_epoch < k ≤ epoch * per_epoch)%Z)
        (fs w) (fs w').
Proof.
  intros Ho Hstart Hne Hbs He Hs Hdata Hperm per_epoch.
  assert (train_loader_len (self_ w) ≠ 0) as Hlen.
  { unfold train_loader_len, chunks. by destruct (train_dataset (self_ w)). }
  destruct (run_epochs_checkpoints (train_loader_len (self_ w)) orders 0%Z w o
              Ho He Hs Hbs Hdata Hperm eq_refl) as (w' & o' & Hrun & Hset & _ & Hfiles);
    [lia|].
  exists w'. split; [|split; [done|]].
  - unfold train. rewrite (bind_Ok _ _ _ _ _ (training_start_handler_Ok w first Hstart Hlen)).
    exact Hrun.
  - eapply checkpoints_written_iff; [|exact Hfiles].
    intros k. cbv beta. fold per_epoch. lia.
Qed.
End TrainingRun.


Lemma train_checkpoints_witness :
  let w := train_world in
  let per_epoch := Z.of_nat (train_loader_len (self_ w)) in
  ∃ w',
    train demo_model demo_externals [scenario_batch; scenario_batch] w = (Ok tt, w')
    ∧ same_settings (self_ w) (self_ w')
    ∧ checkpoints_written (checkpoint_dir (cfg (self_ w)))
        (λ k, (1 ≤ k ≤ Z.of_nat (length [scenario_batch; scenario_batch]) * per_epoch)%Z
              ∧ (k `mod` snapshot_steps (cfg (self_ w)) = 0)%Z)
        (λ k epoch, ((epoch - 1) * per_epoch < k ≤ epoch * per_epoch)%Z)
        (fs w) (fs w').
Proof.
  apply (train_checkpoints demo_model demo_externals [scenario_batch; scenario_batch]
           train_world (Adam, ∅) 1%Z).
  - reflexivity.
  - reflexivity.
  - discriminate.
  - simpl. lia.
  - simpl. lia.
  - simpl. lia.
  - repeat constructor; unfold valid_token; simpl; lia.
  - repeat constructor.
Defined.

(** * The end-of-epoch handler *)

(** X19. [training_end_epoch_handler] saves whatever the snapshot
    interval is: it returns exactly when the solver has an optimiser and
    otherwise raises an [AttributeError] without writing; the file of the
    iteration then holds the epoch, the iteration, the loss and the
    current states of the model and the optimiser; no other file, nor the
    solver, the model or the log, is changed; and firing it again changes
    nothing. *)
Theorem epoch_handler_outcome (epoch iteration : Z) (output : R * Q) (w : world) :
  let r := training_end_epoch_handler epoch iteration output w in
  let path := checkpoint_path (checkpoint_dir (cfg (self_ w))) iteration in
  (returns r.1 ↔ is_Some (optimizer (self_ w)))
  ∧ (¬ returns r.1 → r = (Raise AttributeError, w))
  ∧ (returns r.1 →
     ∃ c, fs r.2 !! path = Some (Pickled c)
          ∧ ck_epoch c = epoch ∧ ck_iteration c = iteration
          ∧ ck_model_state_dict c = model_params w
          ∧ Some (ck_optimizer_state_dict c) = snd <$> optimizer (self_ w)
          ∧ ck_loss c = output.1)
  ∧ self_ r.2 = self_ w ∧ model_params r.2 = model_params w
  ∧ forward_log r.2 = forward_log w
  ∧ (∀ p, p ≠ path → fs r.2 !! p = fs w !! p)
  ∧ training_end_epoch_handler epoch iteration output r.2 = r.
Proof.
  intros r path. unfold r, training_end_epoch_handler.
  destruct (optimizer (self_ w)) as [o|] eqn:Ho.
  - rewrite (_save_Ok _ _ _ _ o Ho). cbn [fst snd]. fold path.
    split; [split; [by eexists|by eexists]|].
    split; [intros Hn; exfalso; apply Hn; by eexists|].
    split.
    { intros _. eexists. cbn [fs set_fs]. rewrite lookup_insert_eq.
      done. }
    repeat split; try done.
    + intros p Hp. cbn [fs set_fs]. by rewrite lookup_insert_ne.
    + rewrite (_save_Ok _ _ _ _ o) by done. f_equal. unfold set_fs. simpl.
      fold path. by rewrite insert_insert_eq.
  - rewrite (_save_without_optimizer _ _ _ _ Ho). cbn [fst snd].
    split; [split; [by intros [? ?]|by intros [? ?]]|].
    split; [done|]. split; [by intros [? ?]|].
    repeat split; try done. by apply _save_without_optimizer.
Qed.

(** * Training without an optimiser *)

Section NoOptimizer.
Context (M : model_api) (E : externals).

(** X20. On a solver that the constructor left without an optimiser
    every call of [_train] raises an [AttributeError] and changes nothing,
    and a run of [train] over at least one epoch raises at its first batch,
    from [_train] or from the collate function, with the world, the
    checkpoint files included, as it was. *)
Theorem train_without_optimizer (order : list example) (orders : list (list example))
    (w : world) (first : Z) :
  optimizer (self_ w) = None →
  start_iter (self_ w) = Some first →
  train_dataset (self_ w) ≠ [] →
  batch_size (cfg (self_ w)) ≠ 0 →
  order ≡ₚ train_dataset (self_ w) →
  (∀ b, _train M E b w = (Raise AttributeError, w))
  ∧ ∃ e, train M E (order :: orders) w = (Raise e, w)
         ∧ (e = AttributeError ∨ e = RuntimeError).
Proof.
  intros Ho Hstart Hne Hbs Hperm.
  assert (∀ b, _train M E b w = (Raise AttributeError, w)) as Htrain.
  { intros b. unfold _train. erewrite bind_Raise; [done|].
    unfold get_optimizer. by rewrite Ho. }
  split; [done|].
  assert (train_loader_len (self_ w) ≠ 0) as Hlen.
  { unfold train_loader_len, chunks. by destruct (train_dataset (self_ w)). }
  unfold train.
  rewrite (bind_Ok _ _ _ _ _ (training_start_handler_Ok w first Hstart Hlen)).
  cbn [run_epochs]. cbv zeta. rewrite bind_get. unfold train_loader, chunks.
  destruct order as [|ex order].
  { apply Permutation_nil_l in Hperm. done. }
  cbn [length chunks_fuel fmap list_fmap run_once_on_dataset].
  destruct (pack_collate_fn (take (batch_size (cfg (self_ w))) (ex :: order)))
    as [b|e] eqn:Hb.
  - exists AttributeError. split; [|by left].
    erewrite bind_Raise; [done|].
    rewrite (bind_lift_Ok _ _ _ _ eq_refl). cbv zeta.
    by erewrite bind_Raise.
  - exists e. split; [by erewrite bind_Raise|].
    apply pack_collate_fn_raises in Hb as ->. right.
    by destruct (batch_size (cfg (self_ w))).
Qed.
End NoOptimizer.

Lemma train_without_optimizer_witness :
  let w := World (Solver sgd_config 1 0 2 scenario_batch [] None (Some 1%Z) None) ∅ ∅ [] in
  (∀ b, _train demo_model demo_externals b w = (Raise AttributeError, w))
  ∧ ∃ e, train demo_model demo_externals [scenario_batch] w = (Raise e, w)
         ∧ (e = AttributeError ∨ e = RuntimeError).
Proof.
  apply (train_without_optimizer demo_model demo_externals scenario_batch []
           (World (Solver sgd_config 1 0 2 scenario_batch [] None (Some 1%Z) None) ∅ ∅ [])
           1%Z).
  - reflexivity.
  - reflexivity.
  - discriminate.
  - simpl. lia.
  - reflexivity.
Defined.
